(** * The per-connection server of Hypercorn's trio worker

    A shallow embedding of [hypercorn/trio/server.py]: the request task
    [_handle], the connection object [Server] with [run], [protocol_send],
    [_read_data], [_close] and [_update_keep_alive_timeout], and the
    delayed-close task [_call_later].

    Everything the module awaits on lives outside of it (the trio stream, the
    protocol engine, the nursery, the logger).  Those collaborators are
    oracles: each answers a call as a function of the history of calls made
    so far, so that a theorem quantified over the environment covers every
    behaviour they can show to this code. *)

From Stdlib Require Import ZArith Lia Strings.Byte.
From stdpp Require Import base list strings.

Open Scope string_scope.
Open Scope list_scope.

Set Warnings "-register-all".

(** ** Exceptions *)

(** The exception classes the module names in its [except] clauses, and one
    representative for every other class on each side of [Exception].
    [trio.Cancelled] and [trio.MultiError] derive from [BaseException]
    only, the resource errors, [TooSlowError] and [AttributeError] from
    [Exception]. *)
Inductive exn : Type :=
| Cancelled
| MultiError (excs : list exn)
| BrokenResourceError
| ClosedResourceError
| BusyResourceError
| TooSlowError
| AttributeError
| OtherException (name : string)
| OtherBaseException (name : string).

(** [isinstance(e, Exception)] *)
Definition is_Exception (e : exn) : bool :=
  match e with
  | Cancelled | MultiError _ | OtherBaseException _ => false
  | _ => true
  end.

(** [isinstance(e, trio.MultiError)] *)
Definition is_MultiError (e : exn) : bool :=
  match e with MultiError _ => true | _ => false end.

(** [isinstance(e, trio.Cancelled)] *)
Definition is_Cancelled (e : exn) : bool :=
  match e with Cancelled => true | _ => false end.

(** trio's [MultiError.filter]: the handler is applied to every leaf of the
    exception tree, a leaf for which it answers [None] is dropped, a
    [MultiError] left without children disappears, and one left with a
    single child collapses to that child. *)
Fixpoint filter_exn (handler : exn -> option exn) (e : exn) : option exn :=
  match e with
  | MultiError excs =>
      let kept :=
        (fix go (l : list exn) : list exn :=
           match l with
           | [] => []
           | x :: l' =>
               match filter_exn handler x with
               | Some y => y :: go l'
               | None => go l'
               end
           end) excs in
      match kept with
      | [] => None
      | [y] => Some y
      | _ => Some (MultiError kept)
      end
  | _ => handler e
  end.

(** [lambda exc: None if isinstance(exc, trio.Cancelled) else exc] *)
Definition drop_cancelled (exc : exn) : option exn :=
  if is_Cancelled exc then None else Some exc.

(** Every leaf of the tree is a [trio.Cancelled]. *)
Fixpoint only_cancelled (e : exn) : bool :=
  match e with
  | Cancelled => true
  | MultiError excs =>
      (fix all (l : list exn) : bool :=
         match l with
         | [] => true
         | x :: l' => only_cancelled x && all l'
         end) excs
  | _ => false
  end.

(** ** Events and data *)

Definition bytes : Type := list byte.

(** [hypercorn.events]: [RawData], [Closed], and [Updated] for any other
    subclass of [Event], which the tests of [protocol_send] both skip. *)
Inductive Event : Type :=
| RawData (data : bytes)
| Closed
| Updated.

(** What [parse_socket_addr] returns. *)
Definition address : Type := option (string * Z).

Definition MAX_RECV : Z := 2 ^ 16.

(** What one awaited call comes to: it returns, it raises, or it never
    completes. *)
Inductive Outcome (A : Type) : Type :=
| Ret (a : A)
| Raise (e : exn)
| Pending.
Arguments Ret {A} a.
Arguments Raise {A} e.
Arguments Pending {A}.

(** A call of trio's [MultiError.filter].  trio declares it as a
    classmethod, [filter(cls, handler, root_exc)]: a call that gives it the
    exception to filter answers with what is left of it, and a call that
    gives it the handler alone is refused by Python with a [TypeError]
    (a positional argument is missing) before anything is filtered. *)
Definition MultiError_filter (handler : exn -> option exn)
    (root_exc : option exn) : Outcome (option exn) :=
  match root_exc with
  | Some e => Ret (filter_exn handler e)
  | None => Raise (OtherException "TypeError")
  end.

(** ** The delayed-close task *)

Module CallLater.

(** The body of [with cancel_scope:] in [_call_later], as the sequence of
    steps the task goes through.  [Sleep] is [await trio.sleep(timeout)],
    [SetShield] the assignment to [cancel_scope.shield]; the awaited
    callback is entered ([Invoke]), passes some checkpoints of its own
    ([Yield]) and returns ([Complete]). *)
Inductive instr : Type :=
| Sleep
| SetShield (b : bool)
| Invoke
| Yield
| Complete.

Inductive exit : Type :=
| Returned          (* the task function returned *)
| CancelledOut.     (* [Cancelled] left the task, for the nursery to absorb *)

Record task : Type := mkTask {
  code : list instr;        (* what remains to run; the head is where it is suspended *)
  cancel_called : bool;     (* [cancel_scope.cancel()] was called *)
  shield : bool;            (* [cancel_scope.shield] *)
  scope_cancelled : bool;   (* the enclosing (connection) scope is cancelled *)
  elapsed : bool;           (* the sleep's deadline has passed *)
  invoked : bool;           (* the callback was entered *)
  completed : bool;         (* the callback returned *)
  exited : option exit
}.

Definition set_code (c : list instr) (t : task) : task :=
  mkTask c (cancel_called t) (shield t) (scope_cancelled t) (elapsed t)
         (invoked t) (completed t) (exited t).
Definition set_cancel_called (b : bool) (t : task) : task :=
  mkTask (code t) b (shield t) (scope_cancelled t) (elapsed t)
         (invoked t) (completed t) (exited t).
Definition set_shield (b : bool) (t : task) : task :=
  mkTask (code t) (cancel_called t) b (scope_cancelled t) (elapsed t)
         (invoked t) (completed t) (exited t).
Definition set_scope_cancelled (b : bool) (t : task) : task :=
  mkTask (code t) (cancel_called t) (shield t) b (elapsed t)
         (invoked t) (completed t) (exited t).
Definition set_elapsed (b : bool) (t : task) : task :=
  mkTask (code t) (cancel_called t) (shield t) (scope_cancelled t) b
         (invoked t) (completed t) (exited t).
Definition set_invoked (b : bool) (t : task) : task :=
  mkTask (code t) (cancel_called t) (shield t) (scope_cancelled t) (elapsed t)
         b (completed t) (exited t).
Definition set_completed (b : bool) (t : task) : task :=
  mkTask (code t) (cancel_called t) (shield t) (scope_cancelled t) (elapsed t)
         (invoked t) b (exited t).
Definition set_exited (x : exit) (t : task) : task :=
  mkTask [] (cancel_called t) (shield t) (scope_cancelled t) (elapsed t)
         (invoked t) (completed t) (Some x).

(** The awaited callback ([self.stream.aclose]) with [k] checkpoints. *)
Definition callback (k : nat) : list instr :=
  Invoke :: repeat Yield k ++ [Complete].

(** [_call_later(timeout, callback)] as [nursery.start] hands it back: the
    cancel scope was created and reported through [task_status.started],
    the [with] block is entered and the task is suspended in the sleep. *)
Definition _call_later (k : nat) : task :=
  mkTask (Sleep :: SetShield true :: callback k)
         false false false false false false None.

(** trio's rule for a checkpoint: [Cancelled] is raised there when the
    task's own scope is cancelled, or an enclosing one is and no shield
    stands in between. *)
Definition delivers (t : task) : bool :=
  cancel_called t || (scope_cancelled t && negb (shield t)).

(** [Cancelled] raised at a checkpoint unwinds the [with] block: the
    task's own scope absorbs it unless it belongs to the enclosing one. *)
Definition unwind (t : task) : task :=
  if scope_cancelled t && negb (shield t)
  then set_exited CancelledOut t
  else set_exited Returned t.

(** Run the synchronous code up to the next checkpoint. *)
Fixpoint exec (c : list instr) (t : task) : task :=
  match c with
  | [] => set_exited Returned t
  | SetShield b :: c' => exec c' (set_shield b t)
  | Invoke :: c' => exec c' (set_invoked true t)
  | Complete :: c' => exec c' (set_completed true t)
  | Sleep :: _ | Yield :: _ => set_code c t
  end.

(** The scheduler runs the task from the checkpoint it is suspended at. *)
Definition resume (t : task) : task :=
  match exited t with
  | Some _ => t
  | None =>
      match code t with
      | Sleep :: c' =>
          if delivers t then unwind t
          else if elapsed t then exec c' t
          else t
      | Yield :: c' =>
          if delivers t then unwind t else exec c' t
      | c => exec c t
      end
  end.

Inductive event : Type :=
| Cancel         (* [handle.cancel()] *)
| ScopeCancel    (* the connection's scope is cancelled *)
| Deadline       (* the keep-alive time has elapsed *)
| Resume.        (* the task is scheduled *)

Definition step (t : task) (ev : event) : task :=
  match ev with
  | Cancel => set_cancel_called true t
  | ScopeCancel => set_scope_cancelled true t
  | Deadline => set_elapsed true t
  | Resume => resume t
  end.

Definition steps (evs : list event) (t : task) : task :=
  fold_left step evs t.

(** The task is still in [trio.sleep]. *)
Definition sleeping (t : task) : bool :=
  match exited t, code t with
  | None, Sleep :: _ => true
  | _, _ => false
  end.

(** A delayed close that can still fire: asleep and not cancelled. *)
Definition pending (t : task) : bool :=
  sleeping t && negb (cancel_called t).

Definition is_sleep (i : instr) : bool :=
  match i with Sleep => true | _ => false end.

(** The task never goes back to sleep: [Sleep] can only be what the task
    is suspended at. *)
Definition wf (t : task) : Prop :=
  forallb (fun i => negb (is_sleep i)) (tail (code t)) = true.

Definition is_resume (ev : event) : bool :=
  match ev with Resume => true | _ => false end.
Definition is_cancel (ev : event) : bool :=
  match ev with Cancel => true | _ => false end.

End CallLater.

(** ** The calls the connection makes, in the order it makes them *)

Inductive action : Type :=
| DoHandshake
| SelectedAlpnProtocol
| GetPeerName                        (* the stream's socket looked up, its peer resolved *)
| GetSockName
| OpenNursery
| NewProtocol (ssl : bool) (client server : address) (alpn : option string)
| Initiate
| Handle (ev : Event)
| Send (ev : Event)                  (* the engine calls [protocol_send] *)
| ReceiveSome (max_bytes : Z)
| Acquire                            (* [send_lock] taken *)
| SendAll (data : bytes)
| Release
| SendEof
| AClose
| CancelTimer (h : nat)
| ReadIdle
| StartTimer
| InvokeAsgi
| LogException (msg : string)
| SendNone.

Definition history : Type := list action.

(** What the protocol engine does while it handles one event: the outbound
    events it passes to [protocol_send], then how the call ends.  A failure
    of [protocol_send] is not caught by the engine. *)
Record reaction : Type := mkReaction {
  r_sends : list Event;
  r_result : Outcome unit
}.

(** The collaborators.  Each answer may depend on everything that happened
    before the call. *)
Record Env : Type := mkEnv {
  (* [None]: the stream has no [do_handshake] (a plain socket stream) *)
  e_do_handshake : option (Outcome unit);
  e_selected_alpn_protocol : option string;
  (* the stream's socket looked up ([self.stream.socket], or
     [.transport_stream.socket] after a handshake) and its peer address
     parsed, [parse_socket_addr(socket.family, socket.getpeername())]; a
     stream without that attribute answers [Raise AttributeError] *)
  e_peername : Outcome address;
  e_sockname : Outcome address;    (* [parse_socket_addr(.., getsockname())] *)
  e_initiate : history -> reaction;
  e_handle : history -> Event -> reaction;
  e_idle : history -> bool;
  e_send_all : history -> Outcome unit;
  e_send_eof : history -> Outcome unit;
  e_aclose : history -> Outcome unit;
  e_start : history -> Outcome unit;           (* [nursery.start] *)
  e_close_checkpoints : nat;                   (* inside the timer's [aclose] *)
  e_nursery_exit : history -> Outcome unit -> Outcome unit;
  e_log : history -> Outcome unit;
  e_app_send : history -> Outcome unit;
  (* what the call [error.filter(handler)] comes to on the caught [error];
     with trio it is [MultiError_filter handler None] *)
  e_filter : (exn -> option exn) -> exn -> Outcome (option exn)
}.

(** ** The connection's state *)

Record State : Type := mkState {
  st_trace : history;
  st_handle : option nat;                  (* [_keep_alive_timeout_handle] *)
  st_timers : list CallLater.task;         (* the cancel scopes handed out *)
  st_lock : bool                           (* [send_lock] is held *)
}.

Definition set_trace (tr : history) (s : State) : State :=
  mkState tr (st_handle s) (st_timers s) (st_lock s).
Definition set_handle (h : option nat) (s : State) : State :=
  mkState (st_trace s) h (st_timers s) (st_lock s).
Definition set_timers (ts : list CallLater.task) (s : State) : State :=
  mkState (st_trace s) (st_handle s) ts (st_lock s).
Definition set_lock (b : bool) (s : State) : State :=
  mkState (st_trace s) (st_handle s) (st_timers s) b.

(** [Server.__init__] *)
Definition init : State := mkState [] None [] false.

(** ** Coroutines: state, exceptions, suspension *)

Definition M (A : Type) : Type := State -> Outcome A * State.

Definition ret {A} (a : A) : M A := fun s => (Ret a, s).
Definition raise {A} (e : exn) : M A := fun s => (Raise e, s).

Definition bind {A B} (m : M A) (k : A -> M B) : M B :=
  fun s =>
    match m s with
    | (Ret a, s') => k a s'
    | (Raise e, s') => (Raise e, s')
    | (Pending, s') => (Pending, s')
    end.

Declare Scope coro_scope.
Delimit Scope coro_scope with coro.
Notation "x <- m ;; k" := (bind m (fun x => k))
  (at level 100, m at next level, right associativity) : coro_scope.
Notation "m ;; k" := (bind m (fun _ => k))
  (at level 100, right associativity) : coro_scope.
Open Scope coro_scope.

(** [try: m except <classes>: h]; the handler table answers [None] for an
    exception no clause matches. *)
Definition try_except {A} (m : M A) (h : exn -> option (M A)) : M A :=
  fun s =>
    match m s with
    | (Raise e, s') =>
        match h e with
        | Some k => k s'
        | None => (Raise e, s')
        end
    | r => r
    end.

(** [try: m finally: f] *)
Definition try_finally {A} (m : M A) (f : M unit) : M A :=
  fun s =>
    match m s with
    | (Pending, s') => (Pending, s')
    | (o, s') =>
        match f s' with
        | (Ret _, s'') => (o, s'')
        | (Raise e, s'') => (Raise e, s'')
        | (Pending, s'') => (Pending, s'')
        end
    end.

(** Record a call. *)
Definition emit (a : action) : M unit :=
  fun s => (Ret tt, set_trace (st_trace s ++ [a]) s).

(** Let a collaborator answer, knowing the history. *)
Definition ask {A} (f : history -> Outcome A) : M A :=
  fun s => (f (st_trace s), s).

Definition call {A} (a : action) (f : history -> Outcome A) : M A :=
  emit a ;; ask f.

Section Server.

Context (env : Env).

(** *** [Server._close] *)
Definition _close : M unit :=
  try_except (call SendEof (e_send_eof env))
    (fun e =>
       match e with
       | BrokenResourceError | AttributeError
       | BusyResourceError | ClosedResourceError => Some (ret tt)
       | _ => None
       end) ;;
  call AClose (e_aclose env).

(** *** [Server._update_keep_alive_timeout] *)

(** [self._keep_alive_timeout_handle.cancel()] *)
Definition cancel_handle (h : nat) : M unit :=
  emit (CancelTimer h) ;;
  fun s =>
    (Ret tt,
     set_timers (alter (fun t => CallLater.step t CallLater.Cancel) h (st_timers s)) s).

(** [await self.nursery.start(_call_later, keep_alive_timeout, self.stream.aclose)]:
    the new task's cancel scope is the handle. *)
Definition start_call_later : M nat :=
  call StartTimer (e_start env) ;;
  fun s =>
    (Ret (length (st_timers s)),
     set_timers (st_timers s ++ [CallLater._call_later (e_close_checkpoints env)]) s).

Definition read_idle : M bool :=
  emit ReadIdle ;; fun s => (Ret (e_idle env (st_trace s)), s).

(** The method run by one task with no other task in it meanwhile. *)
Definition _update_keep_alive_timeout : M unit :=
  (fun s =>
     match st_handle s with
     | Some h => cancel_handle h s
     | None => (Ret tt, s)
     end) ;;
  (fun s => (Ret tt, set_handle None s)) ;;
  idle <- read_idle ;;
  if idle : bool
  then h <- start_call_later ;; fun s => (Ret tt, set_handle (Some h) s)
  else ret tt.

(** The method has one suspension, [await self.nursery.start(...)], between
    the clearing of the handle and the assignment of the new one; other
    tasks run there, and they reach the method through [protocol_send].
    [rearm_until_start] is the method up to that point: its value is the
    cancel scope of the task just started, not yet stored. *)
Definition rearm_until_start : M (option nat) :=
  (fun s =>
     match st_handle s with
     | Some h => cancel_handle h s
     | None => (Ret tt, s)
     end) ;;
  (fun s => (Ret tt, set_handle None s)) ;;
  idle <- read_idle ;;
  if idle : bool
  then h <- start_call_later ;; ret (Some h)
  else ret None.

(** ... and [rearm_after_start] is the rest of it, once the task is
    resumed: the assignment to [self._keep_alive_timeout_handle]. *)
Definition rearm_after_start (started : option nat) : M unit :=
  match started with
  | Some h => fun s => (Ret tt, set_handle (Some h) s)
  | None => ret tt
  end.

(** Two tasks in the method at once: the second calls it while the first
    is suspended in [nursery.start], and both are resumed afterwards. *)
Definition overlapping_rearms : M unit :=
  a <- rearm_until_start ;;
  b <- rearm_until_start ;;
  rearm_after_start a ;;
  rearm_after_start b.

(** *** [Server.protocol_send] *)

(** [async with self.send_lock:]; a task that finds the lock held waits
    for it.  What the task does once another task has released the lock, and
    an acquisition cut short by a cancellation, are not part of this
    definition: statements about a write assume the lock free, which stands
    for an acquisition that succeeded. *)
Definition with_send_lock {A} (m : M A) : M A :=
  fun s =>
    if st_lock s then (Pending, s)
    else try_finally
           (emit Acquire ;; (fun s => (Ret tt, set_lock true s)) ;; m)
           ((fun s => (Ret tt, set_lock false s)) ;; emit Release) s.

Definition protocol_send (event : Event) : M unit :=
  emit (Send event) ;;
  match event with
  | RawData data =>
      with_send_lock
        (try_except (call (SendAll data) (e_send_all env))
           (fun e =>
              match e with
              | BrokenResourceError => Some (ret tt)   (* Allow ASGI Apps to finish *)
              | _ => None
              end))
  | Closed => _close
  | Updated => ret tt
  end ;;
  _update_keep_alive_timeout.

(** *** The protocol engine, driven through [initiate] and [handle] *)

Fixpoint send_each (evs : list Event) : M unit :=
  match evs with
  | [] => ret tt
  | ev :: evs' => protocol_send ev ;; send_each evs'
  end.

Definition react (r : reaction) : M unit :=
  send_each (r_sends r) ;; fun s => (r_result r, s).

Definition protocol_initiate : M unit :=
  emit Initiate ;; fun s => react (e_initiate env (st_trace s)) s.

Definition protocol_handle (ev : Event) : M unit :=
  emit (Handle ev) ;; fun s => react (e_handle env (st_trace s) ev) s.

(** *** [Server._read_data]

    [reads] is what the successive calls of [receive_some] come to; the
    call after the last of them does not complete. *)
Fixpoint _read_data (reads : list (Outcome bytes)) : M unit :=
  emit (ReceiveSome MAX_RECV) ;;
  match reads with
  | [] => fun s => (Pending, s)
  | Pending :: _ => fun s => (Pending, s)
  | Raise TooSlowError :: reads' =>
      protocol_handle Closed ;;
      _close ;;
      _read_data reads'
  | Raise ClosedResourceError :: _ => ret tt
  | Raise BrokenResourceError :: _ => ret tt
  | Raise e :: _ => raise e
  | Ret data :: reads' =>
      protocol_handle (RawData data) ;;
      _update_keep_alive_timeout ;;
      match data with
      | [] => ret tt
      | _ :: _ => _read_data reads'
      end
  end.

(** *** [Server.run] *)

Definition do_handshake : M unit :=
  match e_do_handshake env with
  | None => raise AttributeError        (* no such attribute on the stream *)
  | Some r => call DoHandshake (fun _ => r)
  end.

(** The first [try] of [run]: [None] stands for its [return], otherwise
    the negotiated protocol and the [ssl] flag.  The two lookups of the
    stream's socket are with the resolution of the peer's address
    ([e_peername]). *)
Definition negotiate : M (option (option string * bool)) :=
  try_except
    (failed <- try_except (do_handshake ;; ret false)
                 (fun e =>
                    match e with
                    | BrokenResourceError | TooSlowError => Some (ret true)
                    | _ => None
                    end) ;;
     if failed : bool then ret None
     else
       emit SelectedAlpnProtocol ;;
       ret (Some (e_selected_alpn_protocol env, true)))
    (fun e =>
       match e with
       | AttributeError => Some (ret (Some (Some "http/1.1", false)))
       | _ => None
       end).

(** The body of [async with trio.open_nursery()]. *)
Definition serve (reads : list (Outcome bytes)) (ssl : bool)
    (client server : address) (alpn : option string) : M unit :=
  emit (NewProtocol ssl client server alpn) ;;
  protocol_initiate ;;
  _update_keep_alive_timeout ;;
  _read_data reads.

(** Leaving the nursery block waits for the child tasks and raises what
    the body and they raised, combined by trio.  What the child tasks do
    while the block waits for them (a delayed close that fires, a request
    task that sends) is the answer of the oracle and nothing else: it is not
    in the trace, and the timer tasks of the state are left as the body left
    them. *)
Definition open_nursery (body : M unit) : M unit :=
  emit OpenNursery ;;
  fun s =>
    match body s with
    | (Pending, s') => (Pending, s')
    | (o, s') => (e_nursery_exit env (st_trace s') o, s')
    end.

(** The second [try] of [run]: the nursery block and [except
    trio.MultiError: pass] ... *)
Definition guarded (reads : list (Outcome bytes)) (ssl : bool)
    (client server : address) (alpn : option string) : M unit :=
  try_except
    (open_nursery (serve reads ssl client server alpn))
    (fun e =>
       match e with
       | MultiError _ => Some (ret tt)
       | _ => None
       end).

(** ... and its [finally: await self._close()]. *)
Definition connection (reads : list (Outcome bytes)) (ssl : bool)
    (client server : address) (alpn : option string) : M unit :=
  try_finally (guarded reads ssl client server alpn) _close.

Definition run (reads : list (Outcome bytes)) : M unit :=
  n <- negotiate ;;
  match n with
  | None => ret tt                       (* Handshake failed *)
  | Some (alpn_protocol, ssl) =>
      client <- call GetPeerName (fun _ => e_peername env) ;;
      server <- call GetSockName (fun _ => e_sockname env) ;;
      connection reads ssl client server alpn_protocol
  end.

(** *** [_handle]: one request task

    [app] is what [invoke_asgi(app, scope, receive, send)] comes to. *)
Definition log_exception (msg : string) : M unit :=
  call (LogException msg) (e_log env).

Definition send_none : M unit := call SendNone (e_app_send env).

Definition _handle (app : Outcome unit) : M unit :=
  try_except (call InvokeAsgi (fun _ => app))
    (fun e =>
       match e with
       | Cancelled => Some (raise e)
       | MultiError _ =>
           Some (errors <- (fun s => (e_filter env drop_cancelled e, s)) ;;
                 match errors with
                 | Some _ =>
                     log_exception "Error in ASGI Framework" ;; send_none
                 | None => raise e
                 end)
       | _ =>
           if is_Exception e
           then Some (log_exception "Error in ASGI Framework" ;; send_none)
           else None
       end).

End Server.

Arguments _close env s : simpl never.

(** ** Reading traces *)

(** How many calls of a kind a trace holds. *)
Definition count (p : action -> bool) (tr : history) : nat :=
  length (List.filter p tr).

Definition is_SendEof (a : action) : bool :=
  match a with SendEof => true | _ => false end.
Definition is_AClose (a : action) : bool :=
  match a with AClose => true | _ => false end.
Definition is_ReceiveSome (a : action) : bool :=
  match a with ReceiveSome _ => true | _ => false end.
Definition is_SendAll (a : action) : bool :=
  match a with SendAll _ => true | _ => false end.
Definition is_Handle (a : action) : bool :=
  match a with Handle _ => true | _ => false end.
Definition is_HandleClosed (a : action) : bool :=
  match a with Handle Closed => true | _ => false end.
Definition is_SendClosed (a : action) : bool :=
  match a with Send Closed => true | _ => false end.

(** How many times the teardown was entered: [send_eof] is called by
    [_close] and by nothing else. *)
Definition teardowns (tr : history) : nat := count is_SendEof tr.

(** The events passed to [protocol.handle], in order. *)
Fixpoint handled (tr : history) : list Event :=
  match tr with
  | [] => []
  | Handle ev :: tr' => ev :: handled tr'
  | _ :: tr' => handled tr'
  end.

(** What the read loop makes of one read. *)
Definition event_of (r : Outcome bytes) : list Event :=
  match r with
  | Ret data => [RawData data]
  | Raise TooSlowError => [Closed]
  | _ => []
  end.

(** [isinstance(ev, Closed)] *)
Definition is_Closed (ev : Event) : bool :=
  match ev with Closed => true | _ => false end.

(** The events the read loop makes of the first [n] reads. *)
Definition fed (reads : list (Outcome bytes)) (n : nat) : list Event :=
  flat_map event_of (take n reads).

(** How many of the events are [Closed]. *)
Definition closed_events (evs : list Event) : nat :=
  length (List.filter is_Closed evs).

(** No read and no write is attempted after a [Closed] was handed to the
    engine or sent by it. *)
Fixpoint silent_after_closed (tr : history) : bool :=
  match tr with
  | [] => true
  | a :: tr' =>
      (if is_HandleClosed a || is_SendClosed a
       then forallb (fun b => negb (is_ReceiveSome b || is_SendAll b)) tr'
       else true)
      && silent_after_closed tr'
  end.

(** The reads that end the loop of [_read_data] quietly: the peer has sent
    everything, or the transport is closed or broken. *)
Definition ends_loop (r : Outcome bytes) : bool :=
  match r with
  | Ret [] | Raise ClosedResourceError | Raise BrokenResourceError => true
  | _ => false
  end.

(** The reads after which the loop goes round again: some data, or a read
    that took too long. *)
Definition loops_on (r : Outcome bytes) : bool :=
  match r with
  | Ret (_ :: _) | Raise TooSlowError => true
  | _ => false
  end.

(** The data of the [RawData] events passed to [protocol_send], in order. *)
Fixpoint sent_data (tr : history) : list bytes :=
  match tr with
  | [] => []
  | Send (RawData data) :: tr' => data :: sent_data tr'
  | _ :: tr' => sent_data tr'
  end.

(** The data passed to [send_all], in order. *)
Fixpoint written_data (tr : history) : list bytes :=
  match tr with
  | [] => []
  | SendAll data :: tr' => data :: written_data tr'
  | _ :: tr' => written_data tr'
  end.

(** Calls that neither ask for a write nor make one. *)
Definition no_data (a : action) : bool :=
  match a with
  | Send (RawData _) | SendAll _ => false
  | _ => true
  end.

(** The discipline of [send_lock], read off a trace: the lock is taken only
    when free and given back only when held, and [send_all] is called only
    while it is held.  [held] says whether the lock is held where the trace
    starts; the answer is whether it is held where the trace ends, or [None]
    if the trace breaks the discipline. *)
Fixpoint lock_discipline (held : bool) (tr : history) : option bool :=
  match tr with
  | [] => Some held
  | Acquire :: tr' => if held then None else lock_discipline true tr'
  | Release :: tr' => if held then lock_discipline false tr' else None
  | SendAll _ :: tr' => if held then lock_discipline true tr' else None
  | _ :: tr' => lock_discipline held tr'
  end.

(** Calls that have nothing to do with the lock. *)
Definition lock_free (a : action) : bool :=
  match a with
  | Acquire | Release | SendAll _ => false
  | _ => true
  end.

(** ** Outcomes the connection absorbs *)

(** The half-close outcomes after which [_close] goes on to [aclose]. *)
Definition half_closed (r : Outcome unit) : bool :=
  match r with
  | Ret _
  | Raise BrokenResourceError | Raise AttributeError
  | Raise BusyResourceError | Raise ClosedResourceError => true
  | _ => false
  end.

(** The outcomes of [send_all] after which [protocol_send] carries on. *)
Definition written (r : Outcome unit) : bool :=
  match r with
  | Ret _ | Raise BrokenResourceError => true
  | _ => false
  end.

(** An environment in which no call of the engine or of the transport
    fails in a way the connection does not absorb. *)
Definition calm (env : Env) : Prop :=
  (forall h ev, r_result (e_handle env h ev) = Ret tt) /\
  (forall h, written (e_send_all env h) = true) /\
  (forall h, half_closed (e_send_eof env h) = true) /\
  (forall h, e_aclose env h = Ret tt) /\
  (forall h, e_start env h = Ret tt).

(** [n] calls of [_close] in a row. *)
Fixpoint close_repeatedly (env : Env) (n : nat) : M unit :=
  match n with
  | O => ret tt
  | S n' => _close env ;; close_repeatedly env n'
  end.

(** ** The idle timer, seen from the connection *)

(** The scheduler or the clock acts on the timer task of handle [i]. *)
Definition timer_event (i : nat) (ev : CallLater.event) (s : State) : State :=
  set_timers (alter (fun t => CallLater.step t ev) i (st_timers s)) s.

(** The delayed closes that can still fire. *)
Definition pending_timers (s : State) : nat :=
  length (List.filter CallLater.pending (st_timers s)).

(** Every delayed close that can still fire is the one the connection holds
    the handle of. *)
Definition timers_ok (s : State) : Prop :=
  (forall i t,
     st_timers s !! i = Some t -> CallLater.pending t = true ->
     st_handle s = Some i) /\
  Forall CallLater.wf (st_timers s).

(** The first two statements of [_update_keep_alive_timeout]: the current
    handle, if any, is cancelled and forgotten. *)
Definition disarm (s : State) : State :=
  match st_handle s with
  | Some h =>
      set_handle None
        (timer_event h CallLater.Cancel
           (set_trace (st_trace s ++ [CancelTimer h]) s))
  | None => set_handle None s
  end.

(** No delayed close can fire any more. *)
Definition settled (s : State) : Prop :=
  Forall (fun t => CallLater.pending t = false) (st_timers s).

(** [n] calls of [_update_keep_alive_timeout] in a row. *)
Fixpoint rearm_repeatedly (env : Env) (n : nat) : M unit :=
  match n with
  | O => ret tt
  | S n' => _update_keep_alive_timeout env ;; rearm_repeatedly env n'
  end.

(** The code holds no [Sleep]. *)
Definition no_sleep (c : list CallLater.instr) : bool :=
  forallb (fun i => negb (CallLater.is_sleep i)) c.

(** Where a task started by [_call_later] can be: still in its sleep, with
    nothing of the rest done, or past it for good. *)
Definition asleep (k : nat) (t : CallLater.task) : Prop :=
  CallLater.exited t = None /\
  CallLater.code t = CallLater.Sleep :: CallLater.SetShield true :: CallLater.callback k /\
  CallLater.invoked t = false /\
  CallLater.shield t = false /\
  CallLater.completed t = false.

(** The callback under way: shielded, its own scope not cancelled. *)
Definition in_callback (j : nat) (u : CallLater.task) : Prop :=
  CallLater.exited u = None /\
  CallLater.code u = repeat CallLater.Yield (S j) ++ [CallLater.Complete] /\
  CallLater.shield u = true /\
  CallLater.cancel_called u = false /\
  CallLater.invoked u = true.

(** The callback has returned and the task with it. *)
Definition callback_done (u : CallLater.task) : Prop :=
  CallLater.exited u = Some CallLater.Returned /\
  CallLater.completed u = true /\
  CallLater.invoked u = true /\
  CallLater.shield u = true.

(** ** What a coroutine adds to the trace *)

(** What the run of a coroutine may add to the connection's state: a piece
    of trace of a given shape, and the invariant of the timers is kept. *)
Definition rel (P : history -> Prop) (s s' : State) : Prop :=
  (exists tr, st_trace s' = st_trace s ++ tr /\ P tr) /\
  (timers_ok s -> timers_ok s').

(** A coroutine that does so from every state, however it ends. *)
Definition respects {A} (P : history -> Prop) (m : M A) : Prop :=
  forall s, rel P s (snd (m s)).

(** The shape of a piece of trace: [n] reads, the events [evs] handed to the
    engine, and [d] teardowns besides the one that the sending of each
    [Closed] by the engine brings. *)
Definition profile (n : nat) (evs : list Event) (d : nat) (tr : history) : Prop :=
  count is_ReceiveSome tr = n /\
  handled tr = evs /\
  teardowns tr = count is_SendClosed tr + d.

(** Traces of the code below the read loop. *)
Definition inner : history -> Prop := profile 0 [] 0.

(** The trace of one [_close]. *)
Definition closing : history -> Prop := profile 0 [] 1.

(** Traces of the read loop over [reads]. *)
Definition reading (reads : list (Outcome bytes)) (tr : history) : Prop :=
  exists n d,
    profile n (fed reads n) d tr /\ d <= closed_events (fed reads n).

(** The nursery block starts with the construction of the engine and the
    call of its [initiate]. *)
Definition opening (ssl : bool) (client server : address) (alpn : option string)
    (tr : history) : Prop :=
  exists t, tr = NewProtocol ssl client server alpn :: Initiate :: t.

(** Traces of the rearm: calls on the timers and the engine's [idle]. *)
Definition timer_trace (tr : history) : Prop :=
  Forall (fun a => match a with
                   | CancelTimer _ | ReadIdle | StartTimer => True
                   | _ => False
                   end) tr.


(** A coroutine run from [s] kept the discipline, and gave the lock back if
    it came to an end. *)
Definition lock_rel {A} (s : State) (r : Outcome A * State) : Prop :=
  (exists tr,
     st_trace (snd r) = st_trace s ++ tr /\
     lock_discipline (st_lock s) tr = Some (st_lock (snd r))) /\
  (fst r <> Pending -> st_lock (snd r) = st_lock s).

Definition lock_safe {A} (m : M A) : Prop := forall s, lock_rel s (m s).

(** A coroutine passes to [send_all] nothing but data it was asked to
    send, in the order it was asked, each at most once. *)
Definition writes_only_sent {A} (m : M A) : Prop :=
  forall s, exists tr,
    st_trace (snd (m s)) = st_trace s ++ tr /\
    sublist (written_data tr) (sent_data tr).

(** ** Tasks writing at the same time *)

Module SendLock.

(** Where a task stands in the [RawData] branch of [protocol_send]: at
    [async with self.send_lock], suspended in [send_all] with the lock
    held, or past the block with the lock given back. *)
Inductive place : Type :=
| AtLock
| InSendAll
| Past.

Record system : Type := mkSystem {
  lock : bool;
  tasks : list place
}.

(** The scheduler resumes task [i]: it takes the lock if it is free and
    starts writing, or its write ends (returning or raising) and it leaves
    the block. *)
Definition step (sys : system) (i : nat) : system :=
  match tasks sys !! i with
  | Some AtLock =>
      if lock sys then sys
      else mkSystem true (<[i := InSendAll]> (tasks sys))
  | Some InSendAll => mkSystem false (<[i := Past]> (tasks sys))
  | Some Past | None => sys
  end.

(** [n] tasks arrive at [protocol_send] with data to write. *)
Definition start (n : nat) : system := mkSystem false (replicate n AtLock).

(** The tasks are resumed in the order of [schedule]. *)
Definition run (schedule : list nat) (sys : system) : system :=
  fold_left step schedule sys.

Definition is_writing (p : place) : bool :=
  match p with InSendAll => true | _ => false end.

(** The writes in flight. *)
Definition in_flight (sys : system) : nat :=
  length (List.filter is_writing (tasks sys)).

End SendLock.

(** ** Request tasks and their channels *)

Module SpawnApp.

Section Channels.

(** The messages the engine passes to an application. *)
Context {message : Type}.

(** What one call of [spawn_app] creates: the memory channel opened with
    [config.max_app_queue_size], and on its receiving end the task started
    with [nursery.start_soon(_handle, app, config, scope,
    app_receive_channel.receive, send)].  [buffer] is the channel's buffer
    and [senders] the calls of [send] parked for want of room, oldest first;
    [received] is what the task's calls of [receive] have returned so far,
    and [receiving] says that the task is parked in [receive]. *)
Record app : Type := mkApp {
  max_buffer_size : nat;
  buffer : list message;
  senders : list message;
  received : list message;
  receiving : bool
}.

(** [spawn_app(nursery, app, config, scope, send)]: a new channel and a new
    task.  The nursery is the list of the request tasks started so far; the
    call returns [app_send_channel.send], here the index of the channel it
    sends on. *)
Definition spawn_app (max_app_queue_size : nat) (nursery : list app) :
    nat * list app :=
  (length nursery, nursery ++ [mkApp max_app_queue_size [] [] [] false]).

(** [await app_send_channel.send(m)]: the value goes to the task if it is
    parked in [receive], else into the buffer if there is room, else the
    call is parked. *)
Definition send (m : message) (a : app) : app :=
  if receiving a
  then mkApp (max_buffer_size a) (buffer a) (senders a) (received a ++ [m]) false
  else if Nat.ltb (length (buffer a)) (max_buffer_size a)
       then mkApp (max_buffer_size a) (buffer a ++ [m]) (senders a)
                  (received a) false
       else mkApp (max_buffer_size a) (buffer a) (senders a ++ [m])
                  (received a) false.

(** [await app_receive_channel.receive()] in the task: the oldest parked
    [send], if any, completes into the buffer; the head of the buffer is
    returned, and the task is parked if there is none. *)
Definition receive (a : app) : app :=
  if receiving a then a
  else
    let buf := buffer a ++ take 1 (senders a) in
    match buf with
    | m :: rest =>
        mkApp (max_buffer_size a) rest (drop 1 (senders a)) (received a ++ [m]) false
    | [] =>
        mkApp (max_buffer_size a) [] (drop 1 (senders a)) (received a) true
    end.

Inductive op : Type :=
| Spawn (max_app_queue_size : nat)     (* the engine calls [spawn_app] *)
| Send (c : nat) (m : message)         (* the engine calls what it returned *)
| Receive (c : nat).                   (* the application calls [receive] *)

Definition step (nursery : list app) (o : op) : list app :=
  match o with
  | Spawn size => snd (spawn_app size nursery)
  | Send c m => alter (send m) c nursery
  | Receive c => alter receive c nursery
  end.

Definition run (ops : list op) (nursery : list app) : list app :=
  fold_left step ops nursery.

(** The messages passed to the send function of channel [c]. *)
Fixpoint sent_to (c : nat) (ops : list op) : list message :=
  match ops with
  | [] => []
  | Send c' m :: ops' => if Nat.eqb c' c then m :: sent_to c ops' else sent_to c ops'
  | _ :: ops' => sent_to c ops'
  end.

(** Everything passed to a channel, in the order it reaches the
    application. *)
Definition queue (a : app) : list message :=
  received a ++ buffer a ++ senders a.

(** The channel respects its bound: calls of [send] are parked only while
    the buffer is full, and the task only while there is nothing for it. *)
Definition bounded (a : app) : Prop :=
  length (buffer a) <= max_buffer_size a /\
  (senders a <> [] -> length (buffer a) = max_buffer_size a /\ receiving a = false) /\
  (receiving a = true -> buffer a = [] /\ senders a = []).

End Channels.

End SpawnApp.

(** ** Sample connections *)

(** The engine emits nothing and returns. *)
Definition quiet : reaction := mkReaction [] (Ret tt).

Definition peer : address := Some ("192.0.2.7", 50000%Z).
Definition host : address := Some ("192.0.2.1", 8000%Z).

(** [b"GET"] *)
Definition GET : bytes := [x47; x45; x54]%byte.

(** How a nursery block without failing child ends: with what its body
    raised, except that a cancellation of the body is met again at the
    checkpoint that closes the block, and trio raises the two together. *)
Definition quiet_nursery (o : Outcome unit) : Outcome unit :=
  match o with
  | Raise Cancelled => Raise (MultiError [Cancelled; Cancelled])
  | _ => o
  end.

(** A plain socket stream on which every call succeeds, with an engine that
    emits nothing and whose idleness is [idle]; a nursery without failing
    child; trio's [MultiError.filter], called as the code calls it. *)
Definition plain_env (idle : bool) : Env :=
  {| e_do_handshake := None;
     e_selected_alpn_protocol := None;
     e_peername := Ret peer;
     e_sockname := Ret host;
     e_initiate := fun _ => quiet;
     e_handle := fun _ _ => quiet;
     e_idle := fun _ => idle;
     e_send_all := fun _ => Ret tt;
     e_send_eof := fun _ => Ret tt;
     e_aclose := fun _ => Ret tt;
     e_start := fun _ => Ret tt;
     e_close_checkpoints := 1;
     e_nursery_exit := fun _ => quiet_nursery;
     e_log := fun _ => Ret tt;
     e_app_send := fun _ => Ret tt;
     e_filter := fun handler _ => MultiError_filter handler None |}.

(** A TLS stream whose handshake comes to [handshake]; it negotiates ["h2"]
    and has no [send_eof]. *)
Definition tls_env (handshake : Outcome unit) : Env :=
  {| e_do_handshake := Some handshake;
     e_selected_alpn_protocol := Some "h2";
     e_peername := Ret peer;
     e_sockname := Ret host;
     e_initiate := fun _ => quiet;
     e_handle := fun _ _ => quiet;
     e_idle := fun _ => true;
     e_send_all := fun _ => Ret tt;
     e_send_eof := fun _ => Raise AttributeError;
     e_aclose := fun _ => Ret tt;
     e_start := fun _ => Ret tt;
     e_close_checkpoints := 1;
     e_nursery_exit := fun _ => quiet_nursery;
     e_log := fun _ => Ret tt;
     e_app_send := fun _ => Ret tt;
     e_filter := fun handler _ => MultiError_filter handler None |}.

(** The plain connection with another engine and another nursery exit. *)
Definition plain_with (handle : history -> Event -> reaction)
    (nursery_exit : history -> Outcome unit -> Outcome unit) : Env :=
  {| e_do_handshake := None;
     e_selected_alpn_protocol := None;
     e_peername := Ret peer;
     e_sockname := Ret host;
     e_initiate := fun _ => quiet;
     e_handle := handle;
     e_idle := fun _ => false;
     e_send_all := fun _ => Ret tt;
     e_send_eof := fun _ => Ret tt;
     e_aclose := fun _ => Ret tt;
     e_start := fun _ => Ret tt;
     e_close_checkpoints := 1;
     e_nursery_exit := nursery_exit;
     e_log := fun _ => Ret tt;
     e_app_send := fun _ => Ret tt;
     e_filter := fun handler _ => MultiError_filter handler None |}.

(** An engine that fails on every event it is given. *)
Definition failing_engine_env : Env :=
  plain_with (fun _ _ => mkReaction [] (Raise (OtherException "ProtocolError")))
             (fun _ o => o).

(** An engine that answers every event by sending [Closed]. *)
Definition closing_engine_env : Env :=
  plain_with (fun _ _ => mkReaction [Closed] (Ret tt)) (fun _ o => o).

(** A nursery whose tasks fail together: the block ends with a
    [MultiError]. *)
Definition multierror_env : Env :=
  plain_with (fun _ _ => quiet)
             (fun _ _ => Raise (MultiError [OtherException "ValueError"; Cancelled])).

(** A stream whose handshake, peer address and half-close come to the given
    outcomes, everything else succeeding as on [plain_env]. *)
Definition stream_env (handshake : option (Outcome unit))
    (peername : Outcome address) (send_eof : Outcome unit) : Env :=
  {| e_do_handshake := handshake;
     e_selected_alpn_protocol := Some "h2";
     e_peername := peername;
     e_sockname := Ret host;
     e_initiate := fun _ => quiet;
     e_handle := fun _ _ => quiet;
     e_idle := fun _ => false;
     e_send_all := fun _ => Ret tt;
     e_send_eof := fun _ => send_eof;
     e_aclose := fun _ => Ret tt;
     e_start := fun _ => Ret tt;
     e_close_checkpoints := 1;
     e_nursery_exit := fun _ => quiet_nursery;
     e_log := fun _ => Ret tt;
     e_app_send := fun _ => Ret tt;
     e_filter := fun handler _ => MultiError_filter handler None |}.

(** An engine that answers every event it is given by sending the bytes
    [GET]. *)
Definition replying_env : Env :=
  plain_with (fun _ _ => mkReaction [RawData GET] (Ret tt)) (fun _ o => o).


(** A plain connection whose transport answers the write, the half-close
    and the close as given, with an engine whose idleness is [idle]. *)
Definition transport_env (send_all send_eof aclose : Outcome unit)
    (idle : bool) : Env :=
  {| e_do_handshake := None;
     e_selected_alpn_protocol := None;
     e_peername := Ret peer;
     e_sockname := Ret host;
     e_initiate := fun _ => quiet;
     e_handle := fun _ _ => quiet;
     e_idle := fun _ => idle;
     e_send_all := fun _ => send_all;
     e_send_eof := fun _ => send_eof;
     e_aclose := fun _ => aclose;
     e_start := fun _ => Ret tt;
     e_close_checkpoints := 1;
     e_nursery_exit := fun _ => quiet_nursery;
     e_log := fun _ => Ret tt;
     e_app_send := fun _ => Ret tt;
     e_filter := fun handler _ => MultiError_filter handler None |}.

(** * Properties *)

Lemma count_app p (a b : history) : count p (a ++ b) = count p a + count p b.
Proof. unfold count. now rewrite List.filter_app, length_app. Qed.

Lemma handled_app (a b : history) : handled (a ++ b) = handled a ++ handled b.
Proof.
  induction a as [|x a IH]; simpl; [reflexivity|].
  destruct x; simpl; rewrite ?IH; reflexivity.
Qed.

(** ** [_close] *)

(** [_close] in one equation: the half-close is attempted, the four errors
    named by the [except] clause are dropped, and the full close follows. *)
Lemma close_eq env s :
  _close env s =
  let h := st_trace s ++ [SendEof] in
  match e_send_eof env h with
  | Raise e =>
      if half_closed (Raise e)
      then (e_aclose env (h ++ [AClose]), set_trace (h ++ [AClose]) s)
      else (Raise e, set_trace h s)
  | Pending => (Pending, set_trace h s)
  | Ret _ => (e_aclose env (h ++ [AClose]), set_trace (h ++ [AClose]) s)
  end.
Proof.
  unfold _close, call, bind, try_except, emit, ask, ret; simpl.
  destruct (e_send_eof env (st_trace s ++ [SendEof])) as [[]|e|]; simpl;
    try reflexivity.
  destruct e; reflexivity.
Qed.

Lemma close_half_closed env s :
  half_closed (e_send_eof env (st_trace s ++ [SendEof])) = true ->
  _close env s =
  (e_aclose env (st_trace s ++ [SendEof; AClose]),
   set_trace (st_trace s ++ [SendEof; AClose]) s).
Proof.
  intros H. rewrite close_eq. cbv zeta.
  rewrite <- app_assoc. simpl.
  destruct (e_send_eof env (st_trace s ++ [SendEof])) as [[]|e|];
    [reflexivity| |discriminate].
  destruct e; try discriminate H; reflexivity.
Qed.

Lemma close_repeatedly_ok env :
  (forall h, half_closed (e_send_eof env h) = true) ->
  (forall h, e_aclose env h = Ret tt) ->
  forall n s,
    close_repeatedly env n s =
    (Ret tt, set_trace (st_trace s ++ concat (repeat [SendEof; AClose] n)) s).
Proof.
  intros Heof Hclose n. induction n as [|n IH]; intros s.
  - simpl. unfold ret. rewrite app_nil_r. now destruct s.
  - cbn [close_repeatedly]. unfold bind.
    rewrite close_half_closed by apply Heof.
    rewrite Hclose, IH. cbn [st_trace set_trace repeat concat].
    rewrite <- app_assoc. reflexivity.
Qed.

(** C10, as the code has it.  [_close] swallows every failure of the
    half-close that says the peer is gone, the stream is closed or busy, or
    the stream has no [send_eof], and always goes on to the full close; it
    then ends as [aclose] ends, which the code does not guard: it raises
    what [aclose] raises.  With an [aclose] that returns, [_close] returns,
    and may be called any number of times in a row. *)
Theorem close_ends_as_aclose_ends (env : Env) :
  (forall s,
     half_closed (e_send_eof env (st_trace s ++ [SendEof])) = true ->
     _close env s =
     (e_aclose env (st_trace s ++ [SendEof; AClose]),
      set_trace (st_trace s ++ [SendEof; AClose]) s)) /\
  (forall s e,
     half_closed (e_send_eof env (st_trace s ++ [SendEof])) = true ->
     e_aclose env (st_trace s ++ [SendEof; AClose]) = Raise e ->
     fst (_close env s) = Raise e) /\
  ((forall h, half_closed (e_send_eof env h) = true) ->
   (forall h, e_aclose env h = Ret tt) ->
   forall n s,
     close_repeatedly env n s =
     (Ret tt, set_trace (st_trace s ++ concat (repeat [SendEof; AClose] n)) s)).
Proof.
  split; [|split].
  - intros s. apply close_half_closed.
  - intros s e Hh Ha. rewrite close_half_closed by exact Hh. exact Ha.
  - apply close_repeatedly_ok.
Qed.

(** ** Composition *)

Lemma rel_refl P s : P [] -> rel P s s.
Proof.
  intros H. split; auto. exists []. now rewrite app_nil_r.
Qed.

Lemma rel_trans P Q R s1 s2 s3 :
  (forall a b, P a -> Q b -> R (a ++ b)) ->
  rel P s1 s2 -> rel Q s2 s3 -> rel R s1 s3.
Proof.
  intros HR ((t1 & E1 & H1) & T1) ((t2 & E2 & H2) & T2).
  split; [|auto].
  exists (t1 ++ t2). rewrite E2, E1, app_assoc. auto.
Qed.

Lemma rel_weaken P Q s s' : (forall t, P t -> Q t) -> rel P s s' -> rel Q s s'.
Proof.
  intros HPQ ((t & E & H) & T). split; auto. exists t; auto.
Qed.

(** A step that only extends the trace. *)
Lemma rel_trace (P : history -> Prop) tr s :
  P tr -> rel P s (set_trace (st_trace s ++ tr) s).
Proof.
  intros H. split; auto. exists tr. auto.
Qed.

Lemma respects_weaken {A} P Q (m : M A) :
  (forall t, P t -> Q t) -> respects P m -> respects Q m.
Proof. intros H Hm s. eapply rel_weaken; eauto. Qed.

Lemma respects_ret {A} P (a : A) : P [] -> respects P (ret a).
Proof. intros H s. now apply rel_refl. Qed.

Lemma respects_pure {A} P (o : State -> Outcome A) :
  P [] -> respects P (fun s => (o s, s)).
Proof. intros H s. now apply rel_refl. Qed.

Lemma respects_emit P a : P [a] -> respects P (emit a).
Proof. intros H s. now apply rel_trace. Qed.

Lemma respects_bind {A B} P Q R (m : M A) (k : A -> M B) :
  (forall t, P t -> R t) ->
  (forall a b, P a -> Q b -> R (a ++ b)) ->
  respects P m -> (forall a, respects Q (k a)) -> respects R (bind m k).
Proof.
  intros H1 H2 Hm Hk s. unfold bind.
  specialize (Hm s). destruct (m s) as [[a|e|] s1]; simpl in *.
  - eapply rel_trans; eauto. apply Hk.
  - eapply rel_weaken; eauto.
  - eapply rel_weaken; eauto.
Qed.

Lemma respects_try_except {A} P Q R (m : M A) (h : exn -> option (M A)) :
  (forall t, P t -> R t) ->
  (forall a b, P a -> Q b -> R (a ++ b)) ->
  respects P m -> (forall e k, h e = Some k -> respects Q k) ->
  respects R (try_except m h).
Proof.
  intros H1 H2 Hm Hh s. unfold try_except.
  specialize (Hm s). destruct (m s) as [[a|e|] s1]; simpl in *.
  - eapply rel_weaken; eauto.
  - destruct (h e) as [k|] eqn:E.
    + eapply rel_trans; eauto. eapply Hh; eauto.
    + eapply rel_weaken; eauto.
  - eapply rel_weaken; eauto.
Qed.

Lemma respects_try_finally {A} P Q R (m : M A) (f : M unit) :
  (forall t, P t -> R t) ->
  (forall a b, P a -> Q b -> R (a ++ b)) ->
  respects P m -> respects Q f -> respects R (try_finally m f).
Proof.
  intros H1 H2 Hm Hf s. unfold try_finally.
  specialize (Hm s). destruct (m s) as [[a|e|] s1]; simpl in *.
  - specialize (Hf s1). destruct (f s1) as [[[]|e|] s2]; simpl in *;
      eapply rel_trans; eauto.
  - specialize (Hf s1). destruct (f s1) as [[[]|e'|] s2]; simpl in *;
      eapply rel_trans; eauto.
  - eapply rel_weaken; eauto.
Qed.

Lemma inner_nil : inner [].
Proof. repeat split. Qed.

Lemma profile_app n1 e1 d1 n2 e2 d2 a b :
  profile n1 e1 d1 a -> profile n2 e2 d2 b ->
  profile (n1 + n2) (e1 ++ e2) (d1 + d2) (a ++ b).
Proof.
  unfold profile, teardowns. intros (A1 & A2 & A3) (B1 & B2 & B3).
  rewrite !count_app, handled_app, A1, A2, A3, B1, B2, B3.
  repeat split; lia.
Qed.

Lemma inner_app a b : inner a -> inner b -> inner (a ++ b).
Proof. intros Ha Hb. apply (profile_app 0 [] 0 0 [] 0); assumption. Qed.

Lemma closing_inner a b :
  a = [Send Closed] -> closing b -> inner (a ++ b).
Proof.
  unfold inner, closing, profile, teardowns. intros -> (B1 & B2 & B3).
  rewrite !count_app, handled_app, B1, B2, B3. cbn. repeat split; lia.
Qed.

Lemma close_respects env : respects closing (_close env).
Proof.
  intros s. rewrite close_eq. cbv zeta.
  assert (C1 : closing [SendEof]) by (repeat split).
  assert (C2 : closing [SendEof; AClose]) by (repeat split).
  assert (R1 : forall o : Outcome unit,
             rel closing s (snd (o, set_trace (st_trace s ++ [SendEof]) s))).
  { intros o. now apply rel_trace. }
  assert (R2 : forall o : Outcome unit,
             rel closing s
               (snd (o, set_trace ((st_trace s ++ [SendEof]) ++ [AClose]) s))).
  { intros o. rewrite <- app_assoc. now apply rel_trace. }
  destruct (e_send_eof env (st_trace s ++ [SendEof])) as [[]|e|]; auto.
  destruct (half_closed (Raise e)); auto.
Qed.

(** ** [_update_keep_alive_timeout] *)

(** The method in one equation. *)
Lemma update_eq env s :
  _update_keep_alive_timeout env s =
  let s1 := disarm s in
  let h := st_trace s1 ++ [ReadIdle] in
  if e_idle env h then
    match e_start env (h ++ [StartTimer]) with
    | Ret _ =>
        (Ret tt,
         set_handle (Some (length (st_timers s1)))
           (set_timers
              (st_timers s1 ++ [CallLater._call_later (e_close_checkpoints env)])
              (set_trace (h ++ [StartTimer]) s1)))
    | Raise e => (Raise e, set_trace (h ++ [StartTimer]) s1)
    | Pending => (Pending, set_trace (h ++ [StartTimer]) s1)
    end
  else (Ret tt, set_trace h s1).
Proof.
  unfold _update_keep_alive_timeout, disarm, read_idle, start_call_later,
    cancel_handle, timer_event, call, bind, emit, ask, ret.
  destruct (st_handle s) as [h0|]; simpl.
  - destruct (e_idle env _); [|reflexivity].
    destruct (e_start env _) as [[]|e|]; reflexivity.
  - destruct (e_idle env _); [|reflexivity].
    destruct (e_start env _) as [[]|e|]; reflexivity.
Qed.

(** *** The timer task *)

Lemma exec_no_sleep c t :
  forallb (fun i => negb (CallLater.is_sleep i)) c = true ->
  CallLater.sleeping (CallLater.exec c t) = false /\
  CallLater.wf (CallLater.exec c t).
Proof.
  revert t. induction c as [|i c IH]; intros t H.
  - split; reflexivity.
  - simpl in H. apply andb_prop in H as [Hi Hc].
    destruct i; try discriminate; cbn [CallLater.exec]; auto.
    split.
    + unfold CallLater.sleeping; simpl. now destruct (CallLater.exited t).
    + exact Hc.
Qed.

Lemma wf_call_later k : CallLater.wf (CallLater._call_later k).
Proof.
  unfold CallLater.wf; simpl. rewrite forallb_app; simpl.
  rewrite andb_true_r. induction k; simpl; auto.
Qed.

Lemma resume_wf t :
  CallLater.wf t ->
  CallLater.wf (CallLater.resume t) /\
  (CallLater.pending t = false -> CallLater.pending (CallLater.resume t) = false).
Proof.
  intros W. unfold CallLater.resume, CallLater.pending.
  destruct (CallLater.exited t) as [x|] eqn:Ex; [now split|].
  unfold CallLater.wf in W.
  assert (U : CallLater.wf (CallLater.unwind t) /\
              CallLater.sleeping (CallLater.unwind t) = false).
  { unfold CallLater.unwind.
    destruct (CallLater.scope_cancelled t && negb (CallLater.shield t));
      split; reflexivity. }
  destruct (CallLater.code t) as [|i c] eqn:Ec.
  - split; [reflexivity|]. intros _. reflexivity.
  - destruct i; cbn [tail] in W.
    + (* Sleep *)
      unfold CallLater.sleeping at 1. rewrite Ex, Ec.
      destruct (CallLater.delivers t) eqn:D.
      * split; [apply U|]. intros _. destruct U as [_ ->]. reflexivity.
      * destruct (CallLater.elapsed t).
        -- destruct (exec_no_sleep c t W) as [S1 W1].
           split; [exact W1|]. now rewrite S1.
        -- split; [unfold CallLater.wf; now rewrite Ec|].
           unfold CallLater.sleeping. rewrite Ex, Ec. auto.
    + (* SetShield *)
      destruct (exec_no_sleep (CallLater.SetShield b :: c) t) as [S1 W1];
        [exact W|]. split; [exact W1|]. now rewrite S1.
    + destruct (exec_no_sleep (CallLater.Invoke :: c) t) as [S1 W1];
        [exact W|]. split; [exact W1|]. now rewrite S1.
    + (* Yield *)
      destruct (CallLater.delivers t).
      * split; [apply U|]. intros _. destruct U as [_ ->]. reflexivity.
      * destruct (exec_no_sleep c t W) as [S1 W1].
        split; [exact W1|]. now rewrite S1.
    + destruct (exec_no_sleep (CallLater.Complete :: c) t) as [S1 W1];
        [exact W|]. split; [exact W1|]. now rewrite S1.
Qed.

(** No event makes a delayed close pending again. *)
Lemma step_wf t ev :
  CallLater.wf t ->
  CallLater.wf (CallLater.step t ev) /\
  (CallLater.pending t = false -> CallLater.pending (CallLater.step t ev) = false).
Proof.
  intros W. destruct ev; cbn [CallLater.step].
  - split; [exact W|]. intros _. unfold CallLater.pending; simpl.
    apply andb_false_r.
  - split; [exact W|]. auto.
  - split; [exact W|]. auto.
  - now apply resume_wf.
Qed.

Lemma cancel_not_pending t :
  CallLater.pending (CallLater.step t CallLater.Cancel) = false.
Proof. unfold CallLater.pending; simpl. apply andb_false_r. Qed.

(** *** Rearming *)

Lemma timers_ok_init : timers_ok init.
Proof. split; [intros i t H; discriminate H | constructor]. Qed.

Lemma disarm_settled s :
  timers_ok s ->
  settled (disarm s) /\ Forall CallLater.wf (st_timers (disarm s)) /\
  st_handle (disarm s) = None.
Proof.
  intros [Hp Hw]. unfold disarm, settled.
  destruct (st_handle s) as [h|] eqn:Eh; cbn.
  - split; [|split; [|reflexivity]]; apply Forall_lookup; intros i x Hx.
    + destruct (decide (h = i)) as [->|Hne].
      * rewrite list_lookup_alter_eq in Hx.
        destruct (st_timers s !! i); [|discriminate].
        injection Hx as <-. apply cancel_not_pending.
      * rewrite list_lookup_alter_ne in Hx by exact Hne.
        destruct (CallLater.pending x) eqn:Px; [|reflexivity].
        specialize (Hp i x Hx Px). congruence.
    + destruct (decide (h = i)) as [->|Hne].
      * rewrite list_lookup_alter_eq in Hx.
        destruct (st_timers s !! i) as [t|] eqn:Et; [|discriminate].
        injection Hx as <-.
        apply (step_wf t CallLater.Cancel).
        eapply Forall_lookup_1; eauto.
      * rewrite list_lookup_alter_ne in Hx by exact Hne.
        eapply Forall_lookup_1; eauto.
  - split; [|split; [exact Hw|reflexivity]].
    apply Forall_lookup; intros i x Hx.
    destruct (CallLater.pending x) eqn:Px; [|reflexivity].
    specialize (Hp i x Hx Px). discriminate.
Qed.

Lemma filter_settled ts :
  Forall (fun t => CallLater.pending t = false) ts ->
  List.filter CallLater.pending ts = [].
Proof.
  induction 1 as [|t ts Ht _ IH]; simpl; [reflexivity|]. now rewrite Ht.
Qed.

Lemma disarm_trace s :
  st_trace (disarm s) =
  st_trace s ++ match st_handle s with Some h => [CancelTimer h] | None => [] end.
Proof.
  unfold disarm. destruct (st_handle s); cbn; [reflexivity|].
  now rewrite app_nil_r.
Qed.

Lemma disarm_lock s : st_lock (disarm s) = st_lock s.
Proof. unfold disarm. now destruct (st_handle s). Qed.

Lemma disarm_length s : length (st_timers (disarm s)) = length (st_timers s).
Proof.
  unfold disarm. destruct (st_handle s); cbn; [|reflexivity].
  apply length_alter.
Qed.

(** The state the timers are in after a rearm. *)
Lemma update_timers env s :
  timers_ok s ->
  let idle := e_idle env (st_trace (disarm s) ++ [ReadIdle]) in
  let o := fst (_update_keep_alive_timeout env s) in
  let s' := snd (_update_keep_alive_timeout env s) in
  timers_ok s' /\
  pending_timers s' <= 1 /\
  (o = Ret tt ->
   if idle
   then st_timers s' =
          st_timers (disarm s) ++ [CallLater._call_later (e_close_checkpoints env)] /\
        st_handle s' = Some (length (st_timers s)) /\
        pending_timers s' = 1
   else st_timers s' = st_timers (disarm s) /\
        st_handle s' = None /\
        pending_timers s' = 0).
Proof.
  intros Hok. cbv zeta. rewrite update_eq. cbv zeta.
  destruct (disarm_settled s Hok) as (Hs & Hw & Hh).
  assert (Hnone : timers_ok (disarm s)).
  { split; [|exact Hw]. intros i t Hi Hp.
    eapply Forall_lookup_1 in Hs; eauto. congruence. }
  assert (H0 : forall tr, pending_timers (set_trace tr (disarm s)) = 0).
  { intros tr. unfold pending_timers; cbn. now rewrite filter_settled. }
  destruct (e_idle env (st_trace (disarm s) ++ [ReadIdle])).
  - destruct (e_start env _) as [[]|e|]; cbn [fst snd].
    + assert (H1 : pending_timers
                (set_handle (Some (length (st_timers (disarm s))))
                   (set_timers
                      (st_timers (disarm s) ++
                       [CallLater._call_later (e_close_checkpoints env)])
                      (set_trace ((st_trace (disarm s) ++ [ReadIdle]) ++ [StartTimer])
                         (disarm s)))) = 1).
      { unfold pending_timers; cbn.
        rewrite List.filter_app, filter_settled by exact Hs. reflexivity. }
      split; [|split].
      * split; cbn.
        -- intros i t Hi Hp. apply lookup_app_Some in Hi as [Hi|[Hge Hi]].
           ++ eapply Forall_lookup_1 in Hs; eauto. congruence.
           ++ apply list_lookup_singleton_Some in Hi as [Hi _].
              f_equal. lia.
        -- apply Forall_app. split; [exact Hw|].
           constructor; [apply wf_call_later|constructor].
      * rewrite H1. lia.
      * intros _. rewrite disarm_length. split; [reflexivity|].
        split; [rewrite <- disarm_length; reflexivity|exact H1].
    + split; [exact Hnone|]. split; [rewrite H0; lia|]. discriminate.
    + split; [exact Hnone|]. split; [rewrite H0; lia|]. discriminate.
  - cbn [fst snd]. split; [exact Hnone|]. split; [rewrite H0; lia|].
    intros _. split; [reflexivity|]. split; [exact Hh|apply H0].
Qed.

Lemma update_outcome env s :
  fst (_update_keep_alive_timeout env s) =
  if e_idle env (st_trace (disarm s) ++ [ReadIdle])
  then e_start env (st_trace (disarm s) ++ [ReadIdle; StartTimer])
  else Ret tt.
Proof.
  rewrite update_eq. cbv zeta. rewrite <- app_assoc. cbn [app].
  destruct (e_idle env _); [|reflexivity].
  destruct (e_start env _) as [[]|e|]; reflexivity.
Qed.

Lemma timer_trace_inner tr : timer_trace tr -> inner tr.
Proof.
  induction 1 as [|a tr Ha _ IH]; [apply inner_nil|].
  change (a :: tr) with ([a] ++ tr). apply inner_app; [|exact IH].
  destruct a; try contradiction; repeat split.
Qed.

Lemma update_trace env s :
  exists tr,
    st_trace (snd (_update_keep_alive_timeout env s)) = st_trace s ++ tr /\
    timer_trace tr.
Proof.
  rewrite update_eq. cbv zeta.
  assert (D : exists t0, st_trace (disarm s) = st_trace s ++ t0 /\ timer_trace t0).
  { rewrite disarm_trace. eexists; split; [reflexivity|].
    destruct (st_handle s); repeat constructor. }
  destruct D as (t0 & E0 & T0).
  destruct (e_idle env _).
  - exists (t0 ++ [ReadIdle; StartTimer]). split.
    + destruct (e_start env _) as [[]|e|]; cbn; rewrite E0, <- !app_assoc;
        reflexivity.
    + apply Forall_app. split; [exact T0|repeat constructor].
  - exists (t0 ++ [ReadIdle]). split.
    + cbn. now rewrite E0, <- !app_assoc.
    + apply Forall_app. split; [exact T0|repeat constructor].
Qed.

Lemma update_lock env s :
  st_lock (snd (_update_keep_alive_timeout env s)) = st_lock s.
Proof.
  rewrite update_eq. cbv zeta. rewrite <- (disarm_lock s).
  destruct (e_idle env _); [|reflexivity].
  destruct (e_start env _) as [[]|e|]; reflexivity.
Qed.

Lemma update_respects env : respects inner (_update_keep_alive_timeout env).
Proof.
  intros s. split.
  - destruct (update_trace env s) as (tr & E & T).
    exists tr. split; [exact E|]. now apply timer_trace_inner.
  - intros H. now apply update_timers.
Qed.

(** ** [protocol_send] *)

Lemma protocol_send_eq env ev s :
  protocol_send env ev s =
  let s0 := set_trace (st_trace s ++ [Send ev]) s in
  match ev with
  | RawData data =>
      if st_lock s then (Pending, s0)
      else
        let h := st_trace s ++ [Send ev; Acquire; SendAll data] in
        let s1 := set_lock false (set_trace (h ++ [Release]) s) in
        match e_send_all env h with
        | Pending => (Pending, set_lock true (set_trace h s))
        | r => if written r then _update_keep_alive_timeout env s1
               else (r, s1)
        end
  | Closed => (_close env ;; _update_keep_alive_timeout env) s0
  | Updated => _update_keep_alive_timeout env s0
  end.
Proof.
  unfold protocol_send, bind at 1, emit. cbv zeta.
  destruct ev as [data| |]; [|reflexivity|reflexivity].
  unfold bind, with_send_lock, try_finally, try_except, call, bind, emit, ask, ret.
  cbn [st_lock set_trace st_trace].
  destruct (st_lock s); [reflexivity|].
  cbn [st_lock set_trace st_trace set_lock fst snd].
  rewrite <- !app_assoc. cbn [app].
  destruct (e_send_all env _) as [[]|e|]; [| |reflexivity].
  - unfold written, set_trace, set_lock.
    cbn [st_trace st_handle st_timers st_lock].
    rewrite <- ?app_assoc. reflexivity.
  - destruct e; unfold written, set_trace, set_lock;
      cbn [st_trace st_handle st_timers st_lock];
      rewrite <- ?app_assoc; reflexivity.
Qed.

Lemma protocol_send_respects env ev : respects inner (protocol_send env ev).
Proof.
  intros s. rewrite protocol_send_eq. cbv zeta.
  assert (I1 : forall a, is_SendEof a = false -> is_ReceiveSome a = false ->
                 is_Handle a = false -> is_SendClosed a = false -> inner [a]).
  { intros a H1 H2 H3 H4. unfold inner, profile, teardowns, count; cbn.
    rewrite H1, H2, H4. destruct a; try discriminate; repeat split. }
  destruct ev as [data| |].
  - assert (I2 : inner [Send (RawData data)]) by (apply I1; reflexivity).
    destruct (st_lock s); [now apply rel_trace|].
    assert (I3 : inner [Send (RawData data); Acquire; SendAll data])
      by repeat split.
    assert (I4 : inner [Send (RawData data); Acquire; SendAll data; Release])
      by repeat split.
    assert (R3 : rel inner s
                   (set_lock true
                      (set_trace
                         (st_trace s ++ [Send (RawData data); Acquire; SendAll data])
                         s))).
    { split; [eexists; split; [reflexivity|exact I3]|auto]. }
    assert (R4 : rel inner s
                   (set_lock false
                      (set_trace
                         ((st_trace s ++ [Send (RawData data); Acquire; SendAll data])
                            ++ [Release])
                         s))).
    { split; [|auto]. exists [Send (RawData data); Acquire; SendAll data; Release].
      split; [|exact I4]. cbn. now rewrite <- app_assoc. }
    destruct (e_send_all env _) as [[]|e|]; [| |exact R3].
    + cbn [written]. eapply rel_trans; [apply inner_app|exact R4|].
      apply update_respects.
    + destruct (written (Raise e)); [|exact R4].
      eapply rel_trans; [apply inner_app|exact R4|]. apply update_respects.
  - set (s0 := set_trace (st_trace s ++ [Send Closed]) s).
    assert (R0 : rel (fun t => t = [Send Closed]) s s0)
      by now apply rel_trace.
    pose proof (close_respects env s0) as R1.
    assert (R2 : rel inner s (snd (_close env s0))).
    { eapply rel_trans; [|exact R0|exact R1]. apply closing_inner. }
    unfold bind. clear R0 R1. fold s0.
    destruct (_close env s0) as [o s1]. cbn [snd] in R2.
    destruct o as [[]|e|]; try exact R2.
    eapply rel_trans; [apply inner_app|exact R2|apply update_respects].
  - eapply rel_trans; [apply inner_app| |apply update_respects].
    apply rel_trace. repeat split.
Qed.

(** ** The engine's calls *)

Lemma send_each_respects env evs : respects inner (send_each env evs).
Proof.
  induction evs as [|ev evs IH]; cbn [send_each].
  - apply respects_ret, inner_nil.
  - apply (respects_bind inner inner inner);
      [auto|apply inner_app|apply protocol_send_respects|].
    intros ?. exact IH.
Qed.

Lemma react_respects env r : respects inner (react env r).
Proof.
  unfold react.
  apply (respects_bind inner inner inner);
    [auto|apply inner_app|apply send_each_respects|].
  intros ?. apply (respects_pure inner (fun _ => r_result r)), inner_nil.
Qed.

Lemma initiate_respects env :
  respects (fun tr => exists t, tr = Initiate :: t /\ inner t)
    (protocol_initiate env).
Proof.
  intros s. unfold protocol_initiate, bind, emit.
  eapply rel_trans; [|apply (rel_trace (fun t => t = [Initiate])); reflexivity
                     |apply react_respects].
  intros a b -> Hb. exists b. auto.
Qed.

Lemma handle_respects env ev :
  respects (fun tr => exists t, tr = Handle ev :: t /\ inner t)
    (protocol_handle env ev).
Proof.
  intros s. unfold protocol_handle, bind, emit.
  eapply rel_trans; [|apply (rel_trace (fun t => t = [Handle ev])); reflexivity
                     |apply react_respects].
  intros a b -> Hb. exists b. auto.
Qed.

(** ** The read loop *)

Lemma respects_emit_bind {B} (Q R : history -> Prop) a (k : M B) :
  (forall b, Q b -> R (a :: b)) -> respects Q k -> respects R (emit a ;; k).
Proof.
  intros H Hk s. unfold bind, emit.
  eapply rel_trans;
    [|apply (rel_trace (fun t => t = [a])); reflexivity|apply Hk].
  intros x b -> Hb. now apply H.
Qed.

Lemma handle_profile env ev :
  respects (profile 0 [ev] 0) (protocol_handle env ev).
Proof.
  eapply respects_weaken; [|apply handle_respects].
  intros t (t0 & -> & H0).
  apply (profile_app 0 [ev] 0 0 [] 0 [Handle ev] t0); [|exact H0].
  repeat split.
Qed.

Lemma inner_reading reads t : inner t -> reading reads t.
Proof. intros H. exists 0, 0. split; [exact H|]. cbn. lia. Qed.

Lemma fed_cons r reads n : fed (r :: reads) (S n) = event_of r ++ fed reads n.
Proof. reflexivity. Qed.

Lemma closed_events_app a b :
  closed_events (a ++ b) = closed_events a + closed_events b.
Proof. unfold closed_events. now rewrite List.filter_app, length_app. Qed.

Lemma reading_one r reads :
  event_of r = [] -> reading (r :: reads) [ReceiveSome MAX_RECV].
Proof.
  intros H. exists 1, 0. rewrite fed_cons, H. split; [repeat split|].
  cbn. lia.
Qed.

Lemma read_data_respects env reads :
  respects (reading reads) (_read_data env reads).
Proof.
  induction reads as [|r reads IH].
  - cbn [_read_data].
    apply (respects_emit_bind (fun t => t = [])).
    + intros b ->. exists 1, 0. split; [repeat split|]. cbn. lia.
    + now apply (respects_pure _ (fun _ => Pending)).
  - assert (Stop : forall (m : M unit),
               event_of r = [] -> respects (fun t => t = []) m ->
               respects (reading (r :: reads)) (emit (ReceiveSome MAX_RECV) ;; m)).
    { intros m Hr Hm. apply (respects_emit_bind (fun t => t = [])); [|exact Hm].
      intros b ->. now apply reading_one. }
    assert (Go : forall ev d0 (m : M unit),
               event_of r = [ev] -> d0 <= closed_events [ev] ->
               respects (fun t => exists n d, profile n (fed reads n) (d0 + d) t /\
                                   d <= closed_events (fed reads n)) m ->
               respects (reading (r :: reads))
                 (emit (ReceiveSome MAX_RECV) ;; protocol_handle env ev ;; m)).
    { intros ev d0 m Hr Hd Hm.
      apply (respects_emit_bind
               (fun t => exists n d, profile n (ev :: fed reads n) d t /\
                           d <= closed_events (ev :: fed reads n))).
      - intros b (n & d & Hp & Hle). exists (S n), d.
        rewrite fed_cons, Hr. split; [|exact Hle].
        apply (profile_app 1 [] 0 n (ev :: fed reads n) d [ReceiveSome MAX_RECV] b);
          [repeat split|exact Hp].
      - apply (respects_bind (profile 0 [ev] 0)
                 (fun t => exists n d, profile n (fed reads n) (d0 + d) t /\
                             d <= closed_events (fed reads n)));
          [| |apply handle_profile|intros ?; exact Hm].
        + intros t Ht. exists 0, 0. split; [exact Ht|]. lia.
        + intros a b Ha (n & d & Hp & Hle). exists n, (d0 + d). split.
          * apply (profile_app 0 [ev] 0 n (fed reads n) (d0 + d) a b Ha Hp).
          * change (ev :: fed reads n) with ([ev] ++ fed reads n).
            rewrite closed_events_app. lia. }
    assert (Rest : respects
                     (fun t => exists n d, profile n (fed reads n) (0 + d) t /\
                                 d <= closed_events (fed reads n))
                     (_read_data env reads)).
    { eapply respects_weaken; [|exact IH]. intros t H. exact H. }
    destruct r as [data|e|].
    + cbn [_read_data]. apply (Go (RawData data) 0); [reflexivity|cbn; lia|].
      apply (respects_bind inner
               (fun t => exists n d, profile n (fed reads n) (0 + d) t /\
                           d <= closed_events (fed reads n)));
        [| |apply update_respects|].
      * intros t Ht. exists 0, 0. split; [exact Ht|]. lia.
      * intros a b Ha (n & d & Hp & Hle). exists n, d. split; [|exact Hle].
        apply (profile_app 0 [] 0 n (fed reads n) (0 + d) a b Ha Hp).
      * intros ?. destruct data; [|exact Rest].
        apply respects_ret. exists 0, 0. split; [repeat split|]. lia.
    + destruct e; cbn [_read_data];
        try (apply Stop; [reflexivity|]);
        try (now apply (respects_ret (fun t => t = [])));
        try (now apply (respects_pure _ (fun _ => Raise _))).
      apply (Go Closed 1); [reflexivity|cbn; lia|].
      apply (respects_bind closing
               (fun t => exists n d, profile n (fed reads n) (0 + d) t /\
                           d <= closed_events (fed reads n)));
        [| |apply close_respects|intros ?; exact Rest].
      * intros t Ht. exists 0, 0. split; [exact Ht|]. lia.
      * intros a b Ha (n & d & Hp & Hle). exists n, d. split; [|exact Hle].
        apply (profile_app 0 [] 1 n (fed reads n) (0 + d) a b Ha Hp).
    + cbn [_read_data]. apply Stop; [reflexivity|].
      now apply (respects_pure _ (fun _ => Pending)).
Qed.

(** ** [run] *)

Lemma negotiate_eq env s :
  negotiate env s =
  match e_do_handshake env with
  | None => (Ret (Some (Some "http/1.1", false)), s)
  | Some r =>
      let s1 := set_trace (st_trace s ++ [DoHandshake]) s in
      match r with
      | Ret _ =>
          (Ret (Some (e_selected_alpn_protocol env, true)),
           set_trace (st_trace s ++ [DoHandshake; SelectedAlpnProtocol]) s)
      | Raise BrokenResourceError | Raise TooSlowError => (Ret None, s1)
      | Raise AttributeError => (Ret (Some (Some "http/1.1", false)), s1)
      | Raise e => (Raise e, s1)
      | Pending => (Pending, s1)
      end
  end.
Proof.
  unfold negotiate, do_handshake, try_except, bind, call, emit, ask, ret, raise.
  destruct (e_do_handshake env) as [[[]|e|]|]; cbn; try reflexivity.
  - now rewrite <- app_assoc.
  - destruct e; reflexivity.
Qed.

Lemma run_eq env reads s :
  run env reads s =
  match negotiate env s with
  | (Ret None, s1) => (Ret tt, s1)
  | (Ret (Some (alpn, ssl)), s1) =>
      match e_peername env with
      | Ret client =>
          let s2 := set_trace (st_trace s1 ++ [GetPeerName; GetSockName]) s1 in
          match e_sockname env with
          | Ret server => connection env reads ssl client server alpn s2
          | Raise e => (Raise e, s2)
          | Pending => (Pending, s2)
          end
      | Raise e => (Raise e, set_trace (st_trace s1 ++ [GetPeerName]) s1)
      | Pending => (Pending, set_trace (st_trace s1 ++ [GetPeerName]) s1)
      end
  | (Raise e, s1) => (Raise e, s1)
  | (Pending, s1) => (Pending, s1)
  end.
Proof.
  unfold run, bind at 1.
  destruct (negotiate env s) as [[[[alpn ssl]|]|e|] s1]; try reflexivity.
  unfold bind, call, bind, emit, ask. cbn [st_trace set_trace].
  destruct (e_peername env) as [client|e|]; try reflexivity.
  rewrite <- app_assoc. cbn [app].
  destruct (e_sockname env) as [server|e|]; reflexivity.
Qed.

Lemma respects_and {A} (P Q : history -> Prop) (m : M A) :
  respects P m -> respects Q m -> respects (fun t => P t /\ Q t) m.
Proof.
  intros HP HQ s. destruct (HP s) as ((t1 & E1 & H1) & T1).
  destruct (HQ s) as ((t2 & E2 & H2) & _).
  split; [|exact T1]. exists t1. split; [exact E1|]. split; [exact H1|].
  rewrite E1 in E2. apply app_inv_head in E2. now subst.
Qed.

Lemma inner_reading_app reads a b :
  inner a -> reading reads b -> reading reads (a ++ b).
Proof.
  intros Ha (n & d & Hp & Hle). exists n, d. split; [|exact Hle].
  apply (profile_app 0 [] 0 n (fed reads n) d a b Ha Hp).
Qed.

Lemma serve_reading env reads ssl client server alpn :
  respects (reading reads) (serve env reads ssl client server alpn).
Proof.
  unfold serve.
  apply (respects_emit_bind (reading reads)).
  { intros b Hb.
    apply (inner_reading_app reads [NewProtocol ssl client server alpn] b);
      [repeat split|exact Hb]. }
  apply (respects_bind inner (reading reads));
    [apply inner_reading|apply inner_reading_app| |intros ?].
  { eapply respects_weaken; [|apply initiate_respects].
    intros t (t0 & -> & H0).
    apply (inner_app [Initiate] t0); [repeat split|exact H0]. }
  apply (respects_bind inner (reading reads));
    [apply inner_reading|apply inner_reading_app|apply update_respects|intros ?].
  apply read_data_respects.
Qed.

Lemma serve_opening env reads ssl client server alpn :
  respects (opening ssl client server alpn)
    (serve env reads ssl client server alpn).
Proof.
  unfold serve.
  apply (respects_emit_bind (fun tr => exists t, tr = Initiate :: t)).
  { intros b (t & ->). now exists t. }
  apply (respects_bind (fun tr => exists t, tr = Initiate :: t) (fun _ => True));
    [auto| | |intros ?].
  - intros a b (t & ->) _. now exists (t ++ b).
  - eapply respects_weaken; [|apply initiate_respects].
    intros t (t0 & -> & _). now exists t0.
  - apply (respects_bind (fun _ => True) (fun _ => True)); [auto|auto| |intros ?].
    + eapply respects_weaken; [|apply update_respects]. auto.
    + eapply respects_weaken; [|apply read_data_respects]. auto.
Qed.

Lemma open_nursery_respects env (P R : history -> Prop) (body : M unit) :
  (forall b, P b -> R (OpenNursery :: b)) ->
  respects P body -> respects R (open_nursery env body).
Proof.
  intros H Hb s. unfold open_nursery, bind, emit.
  set (s0 := set_trace (st_trace s ++ [OpenNursery]) s).
  assert (R0 : rel (fun t => t = [OpenNursery]) s s0) by now apply rel_trace.
  specialize (Hb s0). clearbody s0.
  assert (R1 : rel R s (snd (body s0))).
  { eapply rel_trans; [|exact R0|exact Hb]. intros a b -> Hb'. now apply H. }
  destruct (body s0) as [[[]|e|] s1]; exact R1.
Qed.

(** The part of [run] the [finally] clause guards. *)
Lemma guarded_respects env reads ssl client server alpn :
  respects
    (fun tr => (exists t, tr = OpenNursery :: NewProtocol ssl client server alpn
                               :: Initiate :: t) /\ reading reads tr)
    (guarded env reads ssl client server alpn).
Proof.
  unfold guarded.
  set (P := fun tr => (exists t, tr = OpenNursery :: NewProtocol ssl client server alpn
                               :: Initiate :: t) /\ reading reads tr).
  apply (respects_try_except P (fun t => t = []) P); [auto| | |].
  - intros a b Ha ->. now rewrite app_nil_r.
  - apply respects_and.
    + apply (open_nursery_respects env (opening ssl client server alpn));
        [|apply serve_opening].
      intros b (t & ->). now exists t.
    + apply (open_nursery_respects env (reading reads));
        [|apply serve_reading].
      intros b Hb. apply (inner_reading_app reads [OpenNursery] b);
        [repeat split|exact Hb].
  - intros e k Hk. destruct e; try discriminate. injection Hk as <-.
    now apply respects_ret.
Qed.

(** What the guarded part raises: a [MultiError] leaving the nursery block
    is dropped, everything else passes. *)
Lemma guarded_eq env reads ssl client server alpn s :
  guarded env reads ssl client server alpn s =
  match open_nursery env (serve env reads ssl client server alpn) s with
  | (Raise (MultiError _), s1) => (Ret tt, s1)
  | r => r
  end.
Proof.
  unfold guarded, try_except.
  destruct (open_nursery env _ s) as [[[]|e|] s1]; try reflexivity.
  destruct e; reflexivity.
Qed.

Lemma connection_eq env reads ssl client server alpn s :
  connection env reads ssl client server alpn s =
  match guarded env reads ssl client server alpn s with
  | (Pending, s1) => (Pending, s1)
  | (o, s1) =>
      match _close env s1 with
      | (Ret _, s2) => (o, s2)
      | (Raise e, s2) => (Raise e, s2)
      | (Pending, s2) => (Pending, s2)
      end
  end.
Proof. reflexivity. Qed.

Lemma close_trace env s :
  exists c,
    st_trace (snd (_close env s)) = st_trace s ++ c /\
    (fst (_close env s) <> Pending -> c = [SendEof] \/ c = [SendEof; AClose]) /\
    closing c.
Proof.
  rewrite close_eq. cbv zeta.
  assert (C1 : closing [SendEof]) by (repeat split).
  assert (C2 : closing [SendEof; AClose]) by (repeat split).
  destruct (e_send_eof env _) as [[]|e|]; cbn [fst snd].
  - exists [SendEof; AClose]. rewrite <- app_assoc. cbn. auto.
  - destruct (half_closed (Raise e)); cbn [fst snd].
    + exists [SendEof; AClose]. rewrite <- app_assoc. cbn. auto.
    + exists [SendEof]. cbn. auto.
  - exists [SendEof]. cbn. split; [reflexivity|]. split; [congruence|exact C1].
Qed.

(** Whenever the guarded part is left, the teardown runs and ends the
    trace. *)
Lemma connection_trace env reads ssl client server alpn s o s' :
  connection env reads ssl client server alpn s = (o, s') ->
  o <> Pending ->
  exists t c,
    st_trace s' = st_trace s ++ t ++ c /\
    (c = [SendEof] \/ c = [SendEof; AClose]) /\
    reading reads t /\
    (exists t', t = OpenNursery :: NewProtocol ssl client server alpn
                      :: Initiate :: t').
Proof.
  intros H Ho. rewrite connection_eq in H.
  destruct (guarded_respects env reads ssl client server alpn s)
    as ((t & Et & (Hopen & Hread)) & _).
  destruct (guarded env reads ssl client server alpn s) as [o1 s1].
  cbn [snd] in Et.
  destruct (close_trace env s1) as (c & Ec & Hc & _).
  assert (G : o1 <> Pending ->
              (let (o0, s2) := _close env s1 in
               match o0 with
               | Ret _ => (o1, s2)
               | Raise e => (Raise e, s2)
               | Pending => (Pending, s2)
               end) = (o, s') ->
              exists t0 c0,
                st_trace s' = st_trace s ++ t0 ++ c0 /\
                (c0 = [SendEof] \/ c0 = [SendEof; AClose]) /\
                reading reads t0 /\
                (exists t', t0 = OpenNursery :: NewProtocol ssl client server alpn
                                   :: Initiate :: t')).
  { intros _ H2. destruct (_close env s1) as [o2 s2]. cbn [fst snd] in Ec, Hc.
    exists t, c.
    assert (s2 = s' /\ o2 <> Pending) as [-> Ho2].
    { destruct o2 as [[]|e|]; injection H2 as <- <-; split; congruence. }
    split; [now rewrite Ec, Et, app_assoc|]. auto. }
  destruct o1 as [[]|e|]; [apply G; [discriminate|exact H]
                          |apply G; [discriminate|exact H]|].
  injection H as <- _. contradiction.
Qed.

Lemma negotiate_trace env s :
  exists t0,
    st_trace (snd (negotiate env s)) = st_trace s ++ t0 /\ inner t0.
Proof.
  rewrite negotiate_eq.
  assert (I0 : inner []) by apply inner_nil.
  assert (I1 : inner [DoHandshake]) by repeat split.
  assert (I2 : inner [DoHandshake; SelectedAlpnProtocol]) by repeat split.
  destruct (e_do_handshake env) as [[[]|e|]|]; cbv zeta; cbn [snd].
  - eexists; split; [reflexivity|exact I2].
  - exists [DoHandshake]. split; [|exact I1]. destruct e; reflexivity.
  - eexists; split; [reflexivity|exact I1].
  - exists []. split; [now rewrite app_nil_r|exact I0].
Qed.

Lemma no_read_reached (h x pre post : history) :
  inner x -> h ++ x = h ++ pre ++ ReceiveSome MAX_RECV :: post -> False.
Proof.
  intros (H & _ & _) E. apply app_inv_head in E. subst x.
  rewrite count_app in H. cbn in H. lia.
Qed.

(** C2, as the code has it.  On every exit of [run] that reached the read
    phase the teardown of the [finally] clause ran, and it ran last; the
    teardown also ran once for every [Closed] the engine sent, and at most
    once more for every [Closed] the read loop fed to the engine after a slow
    read.  It ran exactly once when neither happened. *)
Theorem teardown_after_read_phase env reads s o s' :
  run env reads s = (o, s') ->
  o <> Pending ->
  (exists pre post,
     st_trace s' = st_trace s ++ pre ++ ReceiveSome MAX_RECV :: post) ->
  exists tr,
    st_trace s' = st_trace s ++ tr /\
    (exists t, tr = t ++ [SendEof] \/ tr = t ++ [SendEof; AClose]) /\
    1 + count is_SendClosed tr <= teardowns tr /\
    teardowns tr <= 1 + count is_SendClosed tr + closed_events (handled tr) /\
    (count is_SendClosed tr = 0 -> closed_events (handled tr) = 0 ->
     teardowns tr = 1).
Proof.
  intros Hrun Ho (pre & post & Hread). rewrite run_eq in Hrun.
  destruct (negotiate_trace env s) as (t0 & E0 & I0).
  destruct (negotiate env s) as [o0 s0]. cbn [snd] in E0.
  assert (I1 : inner (t0 ++ [GetPeerName])).
  { apply inner_app; [exact I0|repeat split]. }
  assert (I2 : inner (t0 ++ [GetPeerName; GetSockName])).
  { apply inner_app; [exact I0|repeat split]. }
  assert (Stop : forall x (o1 : Outcome unit),
             inner (t0 ++ x) ->
             (o1, set_trace (st_trace s0 ++ x) s0) = (o, s') -> False).
  { intros x o1 Hx Heq. injection Heq as <- <-. cbn in Hread.
    rewrite E0, <- app_assoc in Hread. eapply no_read_reached; eauto. }
  destruct o0 as [[[alpn ssl]|]|e|].
  - destruct (e_peername env) as [client|e|];
      [|exfalso; now apply (Stop _ _ I1 Hrun)
       |exfalso; now apply (Stop _ _ I1 Hrun)].
    cbv zeta in Hrun.
    destruct (e_sockname env) as [server|e|];
      [|exfalso; now apply (Stop _ _ I2 Hrun)
       |exfalso; now apply (Stop _ _ I2 Hrun)].
    apply connection_trace in Hrun as (t & c & Et & Hc & Hr & _); [|exact Ho].
    cbn [st_trace set_trace] in Et.
    destruct Hr as (n & d & (Hn & Hh & Htd) & Hd).
    destruct I2 as (J1 & J2 & J3).
    remember (t0 ++ [GetPeerName; GetSockName]) as x eqn:Ex.
    assert (Ex' : st_trace s0 ++ [GetPeerName; GetSockName] = st_trace s ++ x)
      by now rewrite Ex, E0, <- app_assoc.
    rewrite Ex' in Et. clear Ex Ex' I1 Stop.
    exists (x ++ t ++ c).
    split; [now rewrite Et, <- !app_assoc|].
    split.
    { destruct Hc as [-> | ->].
      - exists (x ++ t). left. now rewrite <- !app_assoc.
      - exists (x ++ t). right. now rewrite <- !app_assoc. }
    assert (Tc : teardowns c = 1 /\ count is_SendClosed c = 0 /\ handled c = []).
    { destruct Hc as [-> | ->]; repeat split. }
    destruct Tc as (Tc1 & Tc2 & Tc3).
    unfold teardowns in *.
    rewrite !count_app, !handled_app, J2, J3, Htd, Hh, Tc1, Tc2, Tc3.
    rewrite app_nil_r. cbn [app]. repeat split; intros; lia.
  - exfalso. injection Hrun as <- <-.
    rewrite E0 in Hread. exact (no_read_reached _ _ _ _ I0 Hread).
  - exfalso. injection Hrun as <- <-.
    rewrite E0 in Hread. exact (no_read_reached _ _ _ _ I0 Hread).
  - exfalso. injection Hrun as <- <-. contradiction.
Qed.

Lemma connection_opening env reads ssl client server alpn :
  respects
    (fun tr => exists t, tr = OpenNursery :: NewProtocol ssl client server alpn
                              :: Initiate :: t)
    (connection env reads ssl client server alpn).
Proof.
  unfold connection.
  apply (respects_try_finally
           (fun tr => exists t, tr = OpenNursery :: NewProtocol ssl client server alpn
                                     :: Initiate :: t)
           (fun _ => True)); [auto| | |].
  - intros a b (t & ->) _. now exists (t ++ b).
  - eapply respects_weaken; [|apply guarded_respects]. now intros t [H _].
  - eapply respects_weaken; [|apply close_respects]. auto.
Qed.

Lemma run_handshake_failed env reads s :
  e_do_handshake env = Some (Raise BrokenResourceError) \/
  e_do_handshake env = Some (Raise TooSlowError) ->
  run env reads s = (Ret tt, set_trace (st_trace s ++ [DoHandshake]) s).
Proof.
  intros [H|H]; rewrite run_eq, negotiate_eq, H; reflexivity.
Qed.

(** C9.  A handshake that fails or exceeds its deadline makes [run] return
    at once: the only call made is the handshake itself, so no engine is
    constructed, nothing is initiated or handled, and no teardown follows.
    On a stream without a security layer [run] goes on with the protocol
    token ["http/1.1"] and the [ssl] flag off. *)
Theorem handshake_failure_or_plain_stream env reads s :
  (e_do_handshake env = Some (Raise BrokenResourceError) \/
   e_do_handshake env = Some (Raise TooSlowError) ->
   run env reads s = (Ret tt, set_trace (st_trace s ++ [DoHandshake]) s)) /\
  (e_do_handshake env = None ->
   negotiate env s = (Ret (Some (Some "http/1.1", false)), s) /\
   forall client server,
     e_peername env = Ret client -> e_sockname env = Ret server ->
     exists t,
       st_trace (snd (run env reads s)) =
       st_trace s ++ GetPeerName :: GetSockName :: OpenNursery
         :: NewProtocol false client server (Some "http/1.1")
         :: Initiate :: t).
Proof.
  split; [apply run_handshake_failed|].
  intros Hplain.
  assert (N : negotiate env s = (Ret (Some (Some "http/1.1", false)), s))
    by now rewrite negotiate_eq, Hplain.
  split; [exact N|].
  intros client server Hc Hs. rewrite run_eq, N, Hc, Hs. cbv zeta.
  destruct (connection_opening env reads false client server (Some "http/1.1")
              (set_trace (st_trace s ++ [GetPeerName; GetSockName]) s))
    as ((tr & E & (t & ->)) & _).
  exists t. rewrite E. cbn [st_trace set_trace].
  now rewrite <- app_assoc.
Qed.

(** C1, as the code has it.  [run] returns normally when the handshake
    fails with [BrokenResourceError] or [TooSlowError]; and, once the nursery
    block is left and the teardown has returned, it returns normally when
    the block ended normally or with a [MultiError], and raises what the
    block raised otherwise. *)
Theorem run_swallows_handshake_and_multierror env reads s :
  (e_do_handshake env = Some (Raise BrokenResourceError) \/
   e_do_handshake env = Some (Raise TooSlowError) ->
   fst (run env reads s) = Ret tt) /\
  (forall alpn ssl s0 client server o s1 s2,
     negotiate env s = (Ret (Some (alpn, ssl)), s0) ->
     e_peername env = Ret client ->
     e_sockname env = Ret server ->
     open_nursery env (serve env reads ssl client server alpn)
       (set_trace (st_trace s0 ++ [GetPeerName; GetSockName]) s0) = (o, s1) ->
     o <> Pending ->
     _close env s1 = (Ret tt, s2) ->
     run env reads s =
     (match o with Raise (MultiError _) => Ret tt | _ => o end, s2)).
Proof.
  split.
  - intros H. now rewrite run_handshake_failed.
  - intros alpn ssl s0 client server o s1 s2 N Hc Hs Hn Ho Hclose.
    rewrite run_eq, N, Hc, Hs. cbv zeta.
    rewrite connection_eq, guarded_eq, Hn.
    destruct o as [[]|e|]; [now rewrite Hclose| |contradiction].
    destruct e; now rewrite Hclose.
Qed.

(** ** The read loop after a slow read *)

(** On a transport that reports itself closed or broken the loop ends with
    the read, whatever went before. *)
Lemma read_data_closed_transport env r rest s :
  r = Raise ClosedResourceError \/ r = Raise BrokenResourceError ->
  _read_data env (r :: rest) s =
  (Ret tt, set_trace (st_trace s ++ [ReceiveSome MAX_RECV]) s).
Proof. intros [-> | ->]; reflexivity. Qed.

(** The slow-read branch as it is written: after [Closed] was handed to the
    engine and the transport torn down, the [while] loop goes round again. *)
Lemma read_loop_after_slow_read env rest r s s1 s2 :
  r = Raise ClosedResourceError \/ r = Raise BrokenResourceError ->
  protocol_handle env Closed
    (set_trace (st_trace s ++ [ReceiveSome MAX_RECV]) s) = (Ret tt, s1) ->
  _close env s1 = (Ret tt, s2) ->
  _read_data env (Raise TooSlowError :: r :: rest) s =
  (Ret tt, set_trace (st_trace s2 ++ [ReceiveSome MAX_RECV]) s2).
Proof.
  intros Hr Hh Hc. cbn [_read_data]. unfold bind at 1 2 3, emit at 1.
  rewrite Hh, Hc.
  destruct Hr as [-> | ->]; reflexivity.
Qed.

Lemma read_data_starts env reads s :
  exists t,
    st_trace (snd (_read_data env reads s)) =
    st_trace s ++ ReceiveSome MAX_RECV :: t.
Proof.
  assert (Any : forall reads', respects (fun _ => True) (_read_data env reads')).
  { intros reads'. eapply respects_weaken; [|apply read_data_respects]. auto. }
  assert (Start : forall k : M unit,
             respects (fun _ => True) k ->
             exists t,
               st_trace (snd ((emit (ReceiveSome MAX_RECV) ;; k) s)) =
               st_trace s ++ ReceiveSome MAX_RECV :: t).
  { intros k Hk.
    destruct (respects_emit_bind (fun _ => True)
                (fun tr => exists t, tr = ReceiveSome MAX_RECV :: t)
                (ReceiveSome MAX_RECV) k (fun b _ => ex_intro _ b eq_refl) Hk s)
      as ((tr & E & (t & ->)) & _).
    now exists t. }
  assert (Pure : forall o : Outcome unit,
             respects (fun _ : history => True) (fun s => (o, s)))
    by (intros o; now apply (respects_pure _ (fun _ => o))).
  destruct reads as [|[data|e|] reads']; cbn [_read_data];
    try (apply Start; apply Pure).
  - apply Start.
    apply (respects_bind (fun _ => True) (fun _ => True)); [auto|auto| |intros ?].
    { eapply respects_weaken; [|apply handle_respects]. auto. }
    apply (respects_bind (fun _ => True) (fun _ => True)); [auto|auto| |intros ?].
    { eapply respects_weaken; [|apply update_respects]. auto. }
    destruct data; [apply Pure|apply Any].
  - destruct e; try (apply Start; apply Pure).
    apply Start.
    apply (respects_bind (fun _ => True) (fun _ => True)); [auto|auto| |intros ?].
    { eapply respects_weaken; [|apply handle_respects]. auto. }
    apply (respects_bind (fun _ => True) (fun _ => True)); [auto|auto| |intros ?].
    { eapply respects_weaken; [|apply close_respects]. auto. }
    apply Any.
Qed.

Lemma protocol_send_writes env data s :
  st_lock s = false ->
  exists t,
    st_trace (snd (protocol_send env (RawData data) s)) =
    st_trace s ++ Send (RawData data) :: Acquire :: SendAll data :: t.
Proof.
  intros Hl. rewrite protocol_send_eq, Hl. cbv zeta.
  set (s1 := set_lock false
               (set_trace
                  ((st_trace s ++ [Send (RawData data); Acquire; SendAll data])
                     ++ [Release]) s)).
  assert (E1 : st_trace s1 =
               st_trace s ++ Send (RawData data) :: Acquire :: SendAll data
                 :: [Release]).
  { unfold s1. cbn. now rewrite <- app_assoc. }
  assert (U : exists t,
             st_trace (snd (_update_keep_alive_timeout env s1)) =
             st_trace s ++ Send (RawData data) :: Acquire :: SendAll data :: t).
  { destruct (update_trace env s1) as (tu & Eu & _).
    exists (Release :: tu). rewrite Eu, E1, <- app_assoc. reflexivity. }
  destruct (e_send_all env _) as [[]|e|].
  - exact U.
  - destruct (written (Raise e)); [exact U|]. exists [Release]. exact E1.
  - exists []. reflexivity.
Qed.

(** C3, as the code has it.  The connection keeps no record of a [Closed]
    that the engine sent.  After a turn of the read loop in which the engine
    sent one (and the transport was torn down), the loop reads again,
    whatever the transport will answer, and ends with that read when the
    transport reports itself closed or broken; and [protocol_send] still
    writes the data it is given. *)
Theorem closed_is_not_recorded env data s s1 s2 :
  data <> [] ->
  protocol_handle env (RawData data)
    (set_trace (st_trace s ++ [ReceiveSome MAX_RECV]) s) = (Ret tt, s1) ->
  In (Send Closed) (st_trace s1) ->
  _update_keep_alive_timeout env s1 = (Ret tt, s2) ->
  (forall reads,
     exists t,
       st_trace (snd (_read_data env (Ret data :: reads) s)) =
       st_trace s2 ++ ReceiveSome MAX_RECV :: t) /\
  (forall r rest,
     r = Raise ClosedResourceError \/ r = Raise BrokenResourceError ->
     _read_data env (Ret data :: r :: rest) s =
     (Ret tt, set_trace (st_trace s2 ++ [ReceiveSome MAX_RECV]) s2)) /\
  (forall data',
     st_lock s2 = false ->
     exists t,
       st_trace (snd (protocol_send env (RawData data') s2)) =
       st_trace s2 ++ Send (RawData data') :: Acquire :: SendAll data' :: t).
Proof.
  intros Hd Hh _ Hu.
  assert (Turn : forall reads,
             _read_data env (Ret data :: reads) s = _read_data env reads s2).
  { intros reads. cbn [_read_data]. unfold bind at 1 2 3, emit at 1.
    rewrite Hh, Hu. destruct data; [contradiction|reflexivity]. }
  split; [|split].
  - intros reads. rewrite Turn. apply read_data_starts.
  - intros r rest Hr. rewrite Turn. now apply read_data_closed_transport.
  - intros data'. apply protocol_send_writes.
Qed.

(** ** A calm environment *)

Lemma close_lock env s : st_lock (snd (_close env s)) = st_lock s.
Proof.
  rewrite close_eq. cbv zeta.
  destruct (e_send_eof env _) as [[]|e|]; try reflexivity.
  destruct (half_closed (Raise e)); reflexivity.
Qed.

Lemma calm_update env s :
  calm env -> fst (_update_keep_alive_timeout env s) = Ret tt.
Proof.
  intros (_ & _ & _ & _ & Hstart). rewrite update_outcome.
  destruct (e_idle env _); [apply Hstart|reflexivity].
Qed.

Lemma calm_close env s : calm env -> fst (_close env s) = Ret tt.
Proof.
  intros (_ & _ & Heof & Hclose & _).
  rewrite close_half_closed by apply Heof. apply Hclose.
Qed.

Lemma calm_protocol_send env ev s :
  calm env -> st_lock s = false ->
  fst (protocol_send env ev s) = Ret tt /\
  st_lock (snd (protocol_send env ev s)) = false.
Proof.
  intros Hcalm Hl. rewrite protocol_send_eq. cbv zeta.
  destruct ev as [data| |].
  - rewrite Hl.
    pose proof (proj1 (proj2 Hcalm)
                  (st_trace s ++ [Send (RawData data); Acquire; SendAll data]))
      as Hw.
    destruct (e_send_all env _) as [[]|e|]; [| |discriminate].
    + cbn [written]. split; [now apply calm_update|now rewrite update_lock].
    + rewrite Hw. split; [now apply calm_update|now rewrite update_lock].
  - unfold bind.
    pose proof (calm_close env (set_trace (st_trace s ++ [Send Closed]) s) Hcalm) as Hc.
    pose proof (close_lock env (set_trace (st_trace s ++ [Send Closed]) s)) as Hcl.
    destruct (_close env _) as [o s1]. cbn [fst snd] in Hc, Hcl. rewrite Hc.
    split; [now apply calm_update|]. rewrite update_lock, Hcl. exact Hl.
  - split; [now apply calm_update|]. rewrite update_lock. exact Hl.
Qed.

Lemma calm_send_each env evs s :
  calm env -> st_lock s = false ->
  fst (send_each env evs s) = Ret tt /\
  st_lock (snd (send_each env evs s)) = false.
Proof.
  intros Hcalm. revert s. induction evs as [|ev evs IH]; intros s Hl.
  - now split.
  - cbn [send_each]. unfold bind.
    destruct (calm_protocol_send env ev s Hcalm Hl) as [H1 H2].
    destruct (protocol_send env ev s) as [o s1]. cbn [fst snd] in H1, H2.
    rewrite H1. now apply IH.
Qed.

Lemma calm_handle env ev s :
  calm env -> st_lock s = false ->
  fst (protocol_handle env ev s) = Ret tt /\
  st_lock (snd (protocol_handle env ev s)) = false.
Proof.
  intros Hcalm Hl. unfold protocol_handle, bind at 1, emit, react, bind.
  set (s0 := set_trace (st_trace s ++ [Handle ev]) s).
  set (r := e_handle env (st_trace s0) ev).
  assert (Hr : r_result r = Ret tt) by apply Hcalm.
  destruct (calm_send_each env (r_sends r) s0 Hcalm Hl) as [H1 H2].
  destruct (send_each env (r_sends r) s0) as [o s1]. cbn [fst snd] in H1, H2.
  rewrite H1, Hr. now split.
Qed.

(** ** What the read loop delivers *)

(** One turn of the loop on a read that returned [data]. *)
Lemma read_data_turn env data reads s :
  exists t s1,
    inner t /\
    st_trace s1 =
      st_trace s ++ ReceiveSome MAX_RECV :: Handle (RawData data) :: t /\
    ((_read_data env (Ret data :: reads) s =
        match data with
        | [] => (Ret tt, s1)
        | _ :: _ => _read_data env reads s1
        end /\
      (calm env -> st_lock s = false -> st_lock s1 = false)) \/
     (fst (_read_data env (Ret data :: reads) s) <> Ret tt /\
      snd (_read_data env (Ret data :: reads) s) = s1 /\
      ~ (calm env /\ st_lock s = false))).
Proof.
  remember (_read_data env (Ret data :: reads) s) as R eqn:ER.
  cbn [_read_data] in ER. unfold bind at 1, emit at 1 in ER.
  set (s0 := set_trace (st_trace s ++ [ReceiveSome MAX_RECV]) s) in ER.
  destruct (handle_respects env (RawData data) s0) as ((th & Eh & (t1 & -> & I1)) & _).
  pose proof (calm_handle env (RawData data) s0) as Ch.
  unfold bind at 1 in ER.
  destruct (protocol_handle env (RawData data) s0) as [oh sh].
  cbn [fst snd] in Eh, Ch.
  assert (Eh' : st_trace sh =
                st_trace s ++ ReceiveSome MAX_RECV :: Handle (RawData data) :: t1).
  { rewrite Eh. unfold s0. cbn [st_trace set_trace]. now rewrite <- app_assoc. }
  destruct oh as [[]|e|].
  - destruct (update_respects env sh) as ((tu & Eu & Iu) & _).
    pose proof (calm_update env sh) as Cu.
    pose proof (update_lock env sh) as Lu.
    unfold bind at 1 in ER.
    destruct (_update_keep_alive_timeout env sh) as [ou su].
    cbn [fst snd] in Eu, Cu, Lu.
    exists (t1 ++ tu), su. split; [now apply inner_app|].
    split.
    { rewrite Eu, Eh', <- app_assoc. reflexivity. }
    destruct ou as [[]|e|]; subst R.
    + left. split; [now destruct data|].
      intros Hc Hl. rewrite Lu. now apply Ch.
    + right. split; [discriminate|]. split; [reflexivity|].
      intros [Hc Hl]. specialize (Cu Hc). discriminate.
    + right. split; [discriminate|]. split; [reflexivity|].
      intros [Hc Hl]. specialize (Cu Hc). discriminate.
  - subst R. exists t1, sh. split; [exact I1|]. split; [exact Eh'|].
    right. split; [discriminate|]. split; [reflexivity|].
    intros [Hc Hl]. destruct (Ch Hc Hl). discriminate.
  - subst R. exists t1, sh. split; [exact I1|]. split; [exact Eh'|].
    right. split; [discriminate|]. split; [reflexivity|].
    intros [Hc Hl]. destruct (Ch Hc Hl). discriminate.
Qed.

Lemma turn_profile (data : bytes) (t : history) :
  inner t ->
  count is_ReceiveSome (ReceiveSome MAX_RECV :: Handle (RawData data) :: t) = 1 /\
  handled (ReceiveSome MAX_RECV :: Handle (RawData data) :: t) = [RawData data].
Proof.
  intros (H1 & H2 & _).
  change (ReceiveSome MAX_RECV :: Handle (RawData data) :: t)
    with ([ReceiveSome MAX_RECV; Handle (RawData data)] ++ t).
  rewrite count_app, handled_app, H1, H2. split; reflexivity.
Qed.

(** C4.  When the reads bring the chunks [chunks] and then an empty one, the
    engine is handed one [RawData] for each read made, in the order of the
    reads; when the loop returns it has made all those reads, the empty one
    last, and none after it; and it does return when nothing that it calls
    on the way fails. *)
Theorem read_data_delivers_every_read env (chunks : list bytes) rest s :
  Forall (fun d : bytes => d <> []) chunks ->
  let reads := map Ret chunks ++ Ret ([] : bytes) :: rest in
  exists tr,
    st_trace (snd (_read_data env reads s)) = st_trace s ++ tr /\
    (exists n,
       n <= length chunks + 1 /\
       count is_ReceiveSome tr = n /\
       handled tr = map RawData (take n (chunks ++ [[]]))) /\
    (fst (_read_data env reads s) = Ret tt ->
     count is_ReceiveSome tr = length chunks + 1 /\
     handled tr = map RawData (chunks ++ [[]])) /\
    (calm env -> st_lock s = false -> fst (_read_data env reads s) = Ret tt).
Proof.
  intros Hne. cbv zeta. revert s.
  induction Hne as [|d chunks Hd _ IH]; intros s.
  - cbn [map app length].
    destruct (read_data_turn env [] rest s)
      as (t & s1 & It & Et & [[Eq Hl] | (Hf & Hs & Hnc)]).
    + rewrite Eq. cbn [fst snd]. eexists. split; [exact Et|].
      destruct (turn_profile [] t It) as [C H].
      split; [exists 1; now rewrite C, H|]. split; [now rewrite C, H|]. auto.
    + rewrite Hs. eexists. split; [exact Et|].
      destruct (turn_profile [] t It) as [C H].
      split; [exists 1; now rewrite C, H|].
      split; [intros Hr; contradiction|]. intros Hc Hl. now destruct Hnc.
  - cbn [map app length].
    destruct (read_data_turn env d (map Ret chunks ++ Ret ([] : bytes) :: rest) s)
      as (t & s1 & It & Et & [[Eq Hl] | (Hf & Hs & Hnc)]).
    + destruct (turn_profile d t It) as [C H].
      destruct d as [|b d]; [contradiction|]. rewrite Eq.
      destruct (IH s1) as (tr & Etr & (n & Hn & Cn & Hh) & Hret & Hcalm).
      exists ((ReceiveSome MAX_RECV :: Handle (RawData (b :: d)) :: t) ++ tr).
      split; [now rewrite Etr, Et, <- app_assoc|].
      rewrite count_app, handled_app, C, H.
      split; [|split].
      * exists (S n). split; [lia|]. split; [now rewrite Cn|].
        now rewrite Hh.
      * intros Hr. destruct (Hret Hr) as [-> ->]. split; reflexivity.
      * intros Hc Hl0. apply Hcalm; auto.
    + rewrite Hs. eexists. split; [exact Et|].
      destruct (turn_profile d t It) as [C H].
      split; [exists 1; rewrite C, H; repeat split; lia|].
      split; [intros Hr; contradiction|]. intros Hc Hl. now destruct Hnc.
Qed.

(** ** The idle timer *)

Lemma exited_step t x ev :
  CallLater.exited t = Some x ->
  CallLater.exited (CallLater.step t ev) = Some x /\
  CallLater.invoked (CallLater.step t ev) = CallLater.invoked t /\
  CallLater.completed (CallLater.step t ev) = CallLater.completed t.
Proof.
  intros H. destruct ev; cbn; auto.
  unfold CallLater.resume. rewrite H. auto.
Qed.

Lemma exited_steps evs t x :
  CallLater.exited t = Some x ->
  CallLater.exited (CallLater.steps evs t) = Some x /\
  CallLater.invoked (CallLater.steps evs t) = CallLater.invoked t /\
  CallLater.completed (CallLater.steps evs t) = CallLater.completed t.
Proof.
  revert t. induction evs as [|ev evs IH]; intros t H; [now cbn|].
  cbn [CallLater.steps fold_left].
  destruct (exited_step t x ev H) as (H1 & H2 & H3).
  destruct (IH _ H1) as (G1 & G2 & G3). unfold CallLater.steps in *.
  rewrite G1, G2, G3. auto.
Qed.

(** Whatever happens to a timer task, the connection's invariant holds on. *)
Lemma timer_event_ok i ev s : timers_ok s -> timers_ok (timer_event i ev s).
Proof.
  intros [Hp Hw]. split; cbn.
  - intros j t Hj Pt. destruct (decide (i = j)) as [->|Hne].
    + rewrite list_lookup_alter_eq in Hj.
      destruct (st_timers s !! j) as [t0|] eqn:E0; [|discriminate].
      injection Hj as <-.
      destruct (CallLater.pending t0) eqn:P0; [now apply (Hp j t0)|].
      pose proof (Forall_lookup_1 _ _ _ _ Hw E0) as W0.
      destruct (step_wf t0 ev W0) as [_ Hn]. rewrite (Hn P0) in Pt.
      discriminate.
    + rewrite list_lookup_alter_ne in Hj by exact Hne. now apply (Hp j t).
  - apply Forall_lookup. intros j t Hj.
    destruct (decide (i = j)) as [->|Hne].
    + rewrite list_lookup_alter_eq in Hj.
      destruct (st_timers s !! j) as [t0|] eqn:E0; [|discriminate].
      injection Hj as <-. apply step_wf. eapply Forall_lookup_1; eauto.
    + rewrite list_lookup_alter_ne in Hj by exact Hne.
      eapply Forall_lookup_1; eauto.
Qed.

Lemma rearm_repeatedly_one env :
  (forall h, e_idle env h = true) ->
  (forall h, e_start env h = Ret tt) ->
  forall n s,
    timers_ok s ->
    fst (rearm_repeatedly env (S n) s) = Ret tt /\
    pending_timers (snd (rearm_repeatedly env (S n) s)) = 1.
Proof.
  intros Hidle Hstart n. induction n as [|n IH]; intros s Hok.
  - cbn [rearm_repeatedly]. unfold bind, ret.
    destruct (update_timers env s Hok) as (_ & _ & H).
    pose proof (update_outcome env s) as Ho. rewrite Hidle, Hstart in Ho.
    rewrite Hidle in H. specialize (H Ho).
    destruct (_update_keep_alive_timeout env s) as [o s1].
    cbn [fst snd] in *. subst o. cbn. split; [reflexivity|apply H].
  - change (rearm_repeatedly env (S (S n)))
      with (_update_keep_alive_timeout env ;; rearm_repeatedly env (S n)).
    unfold bind at 1 2.
    destruct (update_timers env s Hok) as (Hok1 & _ & _).
    pose proof (update_outcome env s) as Ho. rewrite Hidle, Hstart in Ho.
    destruct (_update_keep_alive_timeout env s) as [o s1].
    cbn [fst snd] in *. subst o. now apply IH.
Qed.

Lemma update_fired env s h t x :
  st_handle s = Some h ->
  st_timers s !! h = Some t ->
  CallLater.exited t = Some x ->
  exists t',
    st_timers (snd (_update_keep_alive_timeout env s)) !! h = Some t' /\
    CallLater.exited t' = Some x /\
    CallLater.invoked t' = CallLater.invoked t /\
    CallLater.completed t' = CallLater.completed t.
Proof.
  intros Hh Ht Hx. exists (CallLater.step t CallLater.Cancel).
  split; [|now apply exited_step].
  assert (D : st_timers (disarm s) !! h = Some (CallLater.step t CallLater.Cancel)).
  { unfold disarm. rewrite Hh. cbn. rewrite list_lookup_alter_eq, Ht.
    reflexivity. }
  rewrite update_eq. cbv zeta.
  destruct (e_idle env _); [|exact D].
  destruct (e_start env _) as [[]|e|]; cbn; try exact D.
  now apply lookup_app_l_Some.
Qed.

(** One task in the method at a time.  After such a rearm at most one
    delayed close is pending, and it is the one the connection holds the
    handle of; when the rearm returns, a new one was scheduled if the engine
    was idle and none if it was not; rearming any number of times in a row
    while idle leaves exactly one; and cancelling the handle of a task that
    has already run changes nothing about that task and raises nothing. *)
Lemma rearm_one_task_at_a_time env s :
  timers_ok s ->
  let idle := e_idle env (st_trace (disarm s) ++ [ReadIdle]) in
  let o := fst (_update_keep_alive_timeout env s) in
  let s' := snd (_update_keep_alive_timeout env s) in
  (timers_ok s' /\ pending_timers s' <= 1) /\
  (o = Ret tt ->
   if idle
   then st_timers s' =
          st_timers (disarm s) ++ [CallLater._call_later (e_close_checkpoints env)] /\
        st_handle s' = Some (length (st_timers s)) /\
        pending_timers s' = 1
   else st_timers s' = st_timers (disarm s) /\
        st_handle s' = None /\
        pending_timers s' = 0) /\
  ((forall h, e_idle env h = true) ->
   (forall h, e_start env h = Ret tt) ->
   forall n,
     fst (rearm_repeatedly env (S n) s) = Ret tt /\
     pending_timers (snd (rearm_repeatedly env (S n) s)) = 1) /\
  (forall h t x,
     st_handle s = Some h ->
     st_timers s !! h = Some t ->
     CallLater.exited t = Some x ->
     o = (if idle
          then e_start env (st_trace (disarm s) ++ [ReadIdle; StartTimer])
          else Ret tt) /\
     exists t',
       st_timers s' !! h = Some t' /\
       CallLater.exited t' = Some x /\
       CallLater.invoked t' = CallLater.invoked t /\
       CallLater.completed t' = CallLater.completed t).
Proof.
  intros Hok. cbv zeta.
  destruct (update_timers env s Hok) as (H1 & H2 & H3).
  split; [now split|]. split; [exact H3|]. split.
  - intros Hidle Hstart n. now apply rearm_repeatedly_one.
  - intros h t x Hh Ht Hx. split; [apply update_outcome|].
    now apply (update_fired env s h t x).
Qed.

(** *** Two tasks in the rearm *)

Lemma until_start_eq env s :
  rearm_until_start env s =
  let s1 := disarm s in
  let h := st_trace s1 ++ [ReadIdle] in
  if e_idle env h then
    match e_start env (h ++ [StartTimer]) with
    | Ret _ =>
        (Ret (Some (length (st_timers s1))),
         set_timers
           (st_timers s1 ++ [CallLater._call_later (e_close_checkpoints env)])
           (set_trace (h ++ [StartTimer]) s1))
    | Raise e => (Raise e, set_trace (h ++ [StartTimer]) s1)
    | Pending => (Pending, set_trace (h ++ [StartTimer]) s1)
    end
  else (Ret None, set_trace h s1).
Proof.
  unfold rearm_until_start, disarm, read_idle, start_call_later,
    cancel_handle, timer_event, call, bind, emit, ask, ret.
  destruct (st_handle s) as [h0|]; simpl.
  - destruct (e_idle env _); [|reflexivity].
    destruct (e_start env _) as [[]|e|]; reflexivity.
  - destruct (e_idle env _); [|reflexivity].
    destruct (e_start env _) as [[]|e|]; reflexivity.
Qed.

(** Run by one task alone, the two halves are the method. *)
Lemma update_split env s :
  _update_keep_alive_timeout env s =
  (started <- rearm_until_start env ;; rearm_after_start started) s.
Proof.
  unfold bind at 1. rewrite update_eq, until_start_eq. cbv zeta.
  destruct (e_idle env _); [|reflexivity].
  destruct (e_start env _) as [[]|e|]; reflexivity.
Qed.

(** A delayed close that no handle of the connection refers to stays
    pending through every rearm made by one task at a time. *)
Lemma orphan_outlives_rearms env i t :
  (forall h, e_idle env h = true) ->
  (forall h, e_start env h = Ret tt) ->
  forall n s,
    st_timers s !! i = Some t ->
    (forall h, st_handle s = Some h -> i < h) ->
    i < length (st_timers s) ->
    st_timers (snd (rearm_repeatedly env n s)) !! i = Some t.
Proof.
  intros Hidle Hstart n. induction n as [|n IH]; intros s Hi Hh Hl; [exact Hi|].
  cbn [rearm_repeatedly]. unfold bind at 1.
  assert (D : st_timers (disarm s) !! i = Some t).
  { unfold disarm. destruct (st_handle s) as [h|] eqn:Eh; cbn; [|exact Hi].
    rewrite list_lookup_alter_ne; [exact Hi|]. specialize (Hh h eq_refl). lia. }
  rewrite update_eq. cbv zeta. rewrite Hidle, Hstart.
  apply IH; cbn.
  - now apply lookup_app_l_Some.
  - intros h [= <-]. rewrite disarm_length. exact Hl.
  - rewrite length_app, disarm_length. lia.
Qed.

(** C5, as the code has it.  On an idle connection whose nursery starts
    the timer task, two calls of [_update_keep_alive_timeout] made one after
    the other leave one delayed close pending.  Made by two tasks, the second
    entering while the first is suspended in [nursery.start], they leave
    two: the handle refers to the second, the first is pending and no handle
    refers to it, and it stays pending through every later rearm, so that
    nothing but its own deadline ends it. *)
Theorem overlapping_rearms_leave_two_timers env s :
  (forall h, e_idle env h = true) ->
  (forall h, e_start env h = Ret tt) ->
  timers_ok s ->
  (fst (rearm_repeatedly env 2 s) = Ret tt /\
   pending_timers (snd (rearm_repeatedly env 2 s)) = 1) /\
  fst (overlapping_rearms env s) = Ret tt /\
  pending_timers (snd (overlapping_rearms env s)) = 2 /\
  st_handle (snd (overlapping_rearms env s)) = Some (S (length (st_timers s))) /\
  forall n,
    st_timers (snd (rearm_repeatedly env n (snd (overlapping_rearms env s))))
      !! length (st_timers s) =
    Some (CallLater._call_later (e_close_checkpoints env)) /\
    CallLater.pending (CallLater._call_later (e_close_checkpoints env)) = true.
Proof.
  intros Hidle Hstart Hok.
  split; [now apply rearm_repeatedly_one|].
  destruct (disarm_settled s Hok) as (Hs & _ & Hh).
  set (new := CallLater._call_later (e_close_checkpoints env)).
  set (s1 := set_timers (st_timers (disarm s) ++ [new])
               (set_trace ((st_trace (disarm s) ++ [ReadIdle]) ++ [StartTimer])
                  (disarm s))).
  assert (E1 : rearm_until_start env s =
               (Ret (Some (length (st_timers (disarm s)))), s1)).
  { rewrite until_start_eq. cbv zeta. now rewrite Hidle, Hstart. }
  assert (H1 : st_handle s1 = None) by exact Hh.
  assert (D1 : disarm s1 = s1).
  { unfold disarm. rewrite H1. unfold s1. clear -Hh.
    destruct (disarm s) as [tr0 h0 ts0 l0]. cbn in *. now subst h0. }
  set (s2 := set_timers (st_timers s1 ++ [new])
               (set_trace ((st_trace s1 ++ [ReadIdle]) ++ [StartTimer]) s1)).
  assert (E2 : rearm_until_start env s1 = (Ret (Some (length (st_timers s1))), s2)).
  { rewrite until_start_eq. cbv zeta. rewrite D1. now rewrite Hidle, Hstart. }
  assert (E : overlapping_rearms env s =
              (Ret tt, set_handle (Some (length (st_timers s1))) s2)).
  { unfold overlapping_rearms. unfold bind at 1. rewrite E1.
    unfold bind at 1. rewrite E2. reflexivity. }
  assert (L1 : length (st_timers s1) = S (length (st_timers s))).
  { unfold s1. cbn. rewrite length_app, disarm_length. cbn. lia. }
  rewrite E. cbn [fst snd].
  split; [reflexivity|]. split; [|split].
  - unfold pending_timers. cbn.
    rewrite !List.filter_app, filter_settled by exact Hs. reflexivity.
  - cbn [st_handle set_handle]. now rewrite L1.
  - intros n. split; [|reflexivity].
    apply (orphan_outlives_rearms env (length (st_timers s)) new Hidle Hstart).
    + cbn. apply lookup_app_l_Some. rewrite <- disarm_length.
      now apply list_lookup_middle.
    + cbn [st_handle set_handle]. intros h [= <-].
      rewrite length_app, disarm_length. cbn. lia.
    + unfold s2. cbn [st_timers set_handle set_timers set_trace].
      rewrite length_app, L1. cbn. lia.
Qed.

(** ** The delayed-close task *)

Lemma exec_code_no_sleep c t :
  no_sleep c = true -> no_sleep (CallLater.code (CallLater.exec c t)) = true.
Proof.
  revert t. induction c as [|i c IH]; intros t H; [reflexivity|].
  cbn in H. apply andb_prop in H as [Hi Hc].
  destruct i; try discriminate; cbn [CallLater.exec]; auto.
Qed.

Lemma no_sleep_callback k : no_sleep (CallLater.callback k) = true.
Proof.
  unfold CallLater.callback, no_sleep. cbn. rewrite forallb_app. cbn.
  rewrite andb_true_r. induction k; cbn; auto.
Qed.

Lemma no_sleep_step t ev :
  no_sleep (CallLater.code t) = true ->
  no_sleep (CallLater.code (CallLater.step t ev)) = true.
Proof.
  intros H. destruct ev; cbn; auto.
  unfold CallLater.resume. destruct (CallLater.exited t); [exact H|].
  destruct (CallLater.code t) as [|i c] eqn:Ec; [reflexivity|].
  assert (U : no_sleep (CallLater.code (CallLater.unwind t)) = true).
  { unfold CallLater.unwind.
    destruct (CallLater.scope_cancelled t && negb (CallLater.shield t));
      reflexivity. }
  destruct i.
  - discriminate H.
  - now apply exec_code_no_sleep.
  - now apply exec_code_no_sleep.
  - destruct (CallLater.delivers t); [exact U|].
    apply exec_code_no_sleep. cbn in H. exact H.
  - now apply exec_code_no_sleep.
Qed.

Lemma asleep_step k t ev :
  asleep k t \/ no_sleep (CallLater.code t) = true ->
  asleep k (CallLater.step t ev) \/
  no_sleep (CallLater.code (CallLater.step t ev)) = true.
Proof.
  intros [(H1 & H2 & H3 & H4 & H5) | H]; [|right; now apply no_sleep_step].
  destruct ev; cbn [CallLater.step].
  - left. repeat split; assumption.
  - left. repeat split; assumption.
  - left. repeat split; assumption.
  - unfold CallLater.resume. rewrite H1, H2.
    destruct (CallLater.delivers t).
    + right. unfold CallLater.unwind.
      destruct (CallLater.scope_cancelled t && negb (CallLater.shield t));
        reflexivity.
    + destruct (CallLater.elapsed t).
      * right. apply exec_code_no_sleep. apply (no_sleep_callback k).
      * left. repeat split; assumption.
Qed.

Lemma asleep_reached k evs :
  CallLater.sleeping (CallLater.steps evs (CallLater._call_later k)) = true ->
  asleep k (CallLater.steps evs (CallLater._call_later k)).
Proof.
  assert (G : forall t,
             asleep k t \/ no_sleep (CallLater.code t) = true ->
             asleep k (CallLater.steps evs t) \/
             no_sleep (CallLater.code (CallLater.steps evs t)) = true).
  { induction evs as [|ev evs IH]; intros t H; [exact H|].
    cbn. apply IH. now apply asleep_step. }
  intros Hs.
  destruct (G (CallLater._call_later k)) as [H|H]; [left; repeat split|exact H|].
  unfold CallLater.sleeping in Hs.
  destruct (CallLater.exited _); [discriminate|].
  destruct (CallLater.code _) as [|[] c]; try discriminate.
Qed.

(** (a) cancelled while asleep: the callback is never entered *)
Lemma cancelled_never_invoked k t post :
  asleep k t ->
  CallLater.invoked
    (CallLater.steps post (CallLater.step t CallLater.Cancel)) = false.
Proof.
  intros Ha.
  assert (G : forall u,
             CallLater.invoked u = false ->
             CallLater.cancel_called u = true ->
             (CallLater.exited u = None ->
              CallLater.code u =
              CallLater.Sleep :: CallLater.SetShield true :: CallLater.callback k) ->
             CallLater.invoked (CallLater.steps post u) = false).
  { induction post as [|ev post IH]; intros u Hi Hc Hcode; [exact Hi|].
    cbn. apply IH; destruct ev; cbn; auto.
    - unfold CallLater.resume.
      destruct (CallLater.exited u) eqn:Ex; [exact Hi|].
      rewrite (Hcode eq_refl). unfold CallLater.delivers. rewrite Hc. cbn.
      unfold CallLater.unwind.
      destruct (CallLater.scope_cancelled u && negb (CallLater.shield u));
        exact Hi.
    - unfold CallLater.resume.
      destruct (CallLater.exited u) eqn:Ex; [exact Hc|].
      rewrite (Hcode eq_refl). unfold CallLater.delivers. rewrite Hc. cbn.
      unfold CallLater.unwind.
      destruct (CallLater.scope_cancelled u && negb (CallLater.shield u));
        exact Hc.
    - unfold CallLater.resume.
      destruct (CallLater.exited u) eqn:Ex; [now rewrite Ex|].
      rewrite (Hcode eq_refl). unfold CallLater.delivers. rewrite Hc. cbn.
      unfold CallLater.unwind.
      destruct (CallLater.scope_cancelled u && negb (CallLater.shield u));
        discriminate. }
  destruct Ha as (H1 & H2 & H3 & _). apply G; cbn; auto.
Qed.

Lemma exec_yields j u :
  CallLater.shield u = true ->
  CallLater.cancel_called u = false ->
  CallLater.invoked u = true ->
  CallLater.exited u = None \/ j = 0 ->
  match j with
  | O => callback_done
  | S j' => in_callback j'
  end (CallLater.exec (repeat CallLater.Yield j ++ [CallLater.Complete]) u).
Proof.
  intros Hs Hc Hi He. destruct j as [|j]; cbn.
  - repeat split; assumption.
  - destruct He as [He|He]; [|discriminate]. repeat split; assumption.
Qed.

Lemma callback_completes post :
  forallb (fun ev => negb (CallLater.is_cancel ev)) post = true ->
  forall j u,
    in_callback j u ->
    S j <= length (List.filter CallLater.is_resume post) ->
    callback_done (CallLater.steps post u).
Proof.
  induction post as [|ev post IH]; intros Hnc j u Hu Hn; [cbn in Hn; lia|].
  cbn in Hnc. apply andb_prop in Hnc as [Hev Hnc].
  destruct Hu as (H1 & H2 & H3 & H4 & H5).
  destruct ev; try discriminate; cbn [CallLater.steps fold_left] in *.
  - apply (IH Hnc j); [repeat split; assumption|exact Hn].
  - apply (IH Hnc j); [repeat split; assumption|exact Hn].
  - cbn [List.filter CallLater.is_resume length] in Hn.
    assert (R : CallLater.step u CallLater.Resume =
                CallLater.exec (repeat CallLater.Yield j ++ [CallLater.Complete]) u).
    { cbn. unfold CallLater.resume. rewrite H1, H2. cbn.
      unfold CallLater.delivers. rewrite H3, H4.
      now rewrite andb_false_r. }
    rewrite R.
    pose proof (exec_yields j u H3 H4 H5 (or_introl H1)) as E.
    destruct j as [|j].
    + destruct E as (E1 & E2 & E3 & E4).
      destruct (exited_steps post _ _ E1) as (G1 & G2 & G3).
      unfold CallLater.steps in *.
      assert (G4 : forall evs t, CallLater.shield t = true ->
                     CallLater.exited t <> None ->
                     CallLater.shield (fold_left CallLater.step evs t) = true).
      { clear. induction evs as [|ev evs IH]; intros t Hs He; [exact Hs|].
        cbn. apply IH.
        - destruct ev; cbn; auto. unfold CallLater.resume.
          destruct (CallLater.exited t); [exact Hs|contradiction].
        - destruct ev; cbn; auto. unfold CallLater.resume.
          destruct (CallLater.exited t) eqn:Ex; [now rewrite Ex|contradiction]. }
      repeat split; [exact G1|now rewrite G3|now rewrite G2|].
      apply G4; [exact E4|]. rewrite E1. discriminate.
    + apply (IH Hnc j); [exact E|lia].
Qed.

(** C6.  Take the task at any moment at which it is still asleep.  If its
    cancel scope is cancelled then, the callback is never entered, whatever
    happens next.  If the task is resumed then with the time elapsed and
    nothing cancelled, it sets its shield and enters the callback, and the
    callback returns after its [k] checkpoints however often the enclosing
    scope is cancelled meanwhile. *)
Theorem call_later_cancel_and_shield k pre :
  let t := CallLater.steps pre (CallLater._call_later k) in
  CallLater.sleeping t = true ->
  (forall post,
     CallLater.invoked
       (CallLater.steps post (CallLater.step t CallLater.Cancel)) = false) /\
  (CallLater.delivers t = false ->
   CallLater.elapsed t = true ->
   let t1 := CallLater.step t CallLater.Resume in
   CallLater.shield t1 = true /\
   CallLater.invoked t1 = true /\
   forall post,
     forallb (fun ev => negb (CallLater.is_cancel ev)) post = true ->
     k <= length (List.filter CallLater.is_resume post) ->
     CallLater.completed (CallLater.steps post t1) = true /\
     CallLater.exited (CallLater.steps post t1) = Some CallLater.Returned).
Proof.
  cbv zeta. intros Hs. apply asleep_reached in Hs.
  split; [intros post; now apply (cancelled_never_invoked k)|].
  intros Hd He.
  destruct Hs as (H1 & H2 & H3 & H4 & H5).
  set (t := CallLater.steps pre (CallLater._call_later k)) in *.
  assert (Hc : CallLater.cancel_called t = false).
  { unfold CallLater.delivers in Hd. now apply orb_false_elim in Hd as [-> _]. }
  set (u := CallLater.set_invoked true (CallLater.set_shield true t)).
  assert (R : CallLater.step t CallLater.Resume =
              CallLater.exec (repeat CallLater.Yield k ++ [CallLater.Complete]) u).
  { cbn. unfold CallLater.resume. rewrite H1, H2, Hd, He. reflexivity. }
  rewrite R.
  assert (E : match k with
              | O => callback_done
              | S j' => in_callback j'
              end (CallLater.exec (repeat CallLater.Yield k ++ [CallLater.Complete]) u)).
  { apply exec_yields; cbn; auto. }
  destruct k as [|k].
  - destruct E as (E1 & E2 & E3 & E4). split; [exact E4|]. split; [exact E3|].
    intros post _ _. destruct (exited_steps post _ _ E1) as (G1 & _ & G3).
    split; [now rewrite G3|exact G1].
  - destruct E as (E1 & E2 & E3 & E4 & E5). split; [exact E3|].
    split; [exact E5|]. intros post Hnc Hn.
    destruct (callback_completes post Hnc k _
                (conj E1 (conj E2 (conj E3 (conj E4 E5)))) Hn)
      as (G1 & G2 & _). split; assumption.
Qed.

(** ** One write at a time *)

Lemma filter_insert_length {A} (p : A -> bool) (l : list A) i x y :
  l !! i = Some x ->
  length (List.filter p (<[i := y]> l)) + (if p x then 1 else 0) =
  length (List.filter p l) + (if p y then 1 else 0).
Proof.
  revert i. induction l as [|a l IH]; intros i H; [discriminate|].
  destruct i as [|i]; cbn in *.
  - injection H as ->. destruct (p x), (p y); cbn; lia.
  - specialize (IH i H). destruct (p a); cbn; [f_equal|]; exact IH.
Qed.

Lemma send_lock_step sys i :
  SendLock.in_flight sys = (if SendLock.lock sys then 1 else 0) ->
  SendLock.in_flight (SendLock.step sys i) =
  (if SendLock.lock (SendLock.step sys i) then 1 else 0).
Proof.
  intros H. unfold SendLock.step.
  destruct (SendLock.tasks sys !! i) as [[]|] eqn:E; try exact H.
  - destruct (SendLock.lock sys) eqn:L; [now rewrite L|].
    unfold SendLock.in_flight in *.
    cbn [SendLock.lock SendLock.tasks].
    pose proof (filter_insert_length SendLock.is_writing _ i _ SendLock.InSendAll E)
      as F. cbn [SendLock.is_writing] in F. lia.
  - unfold SendLock.in_flight in *. cbn [SendLock.lock SendLock.tasks].
    pose proof (filter_insert_length SendLock.is_writing _ i _ SendLock.Past E)
      as F. cbn [SendLock.is_writing] in F.
    destruct (SendLock.lock sys); lia.
Qed.

Lemma send_lock_one_writer n schedule :
  SendLock.in_flight (SendLock.run schedule (SendLock.start n)) <= 1.
Proof.
  assert (G : forall sys,
             SendLock.in_flight sys = (if SendLock.lock sys then 1 else 0) ->
             SendLock.in_flight (SendLock.run schedule sys) =
             (if SendLock.lock (SendLock.run schedule sys) then 1 else 0)).
  { induction schedule as [|i schedule IH]; intros sys H; [exact H|].
    cbn. apply IH. now apply send_lock_step. }
  assert (S0 : SendLock.in_flight (SendLock.start n) = 0).
  { unfold SendLock.in_flight, SendLock.start. cbn.
    induction n as [|n IH]; [reflexivity|exact IH]. }
  specialize (G (SendLock.start n) S0).
  destruct (SendLock.lock _); lia.
Qed.



(** ** The request task *)

Lemma exn_tree_ind (P : exn -> Prop) :
  (forall excs, Forall P excs -> P (MultiError excs)) ->
  (forall e, is_MultiError e = false -> P e) ->
  forall e, P e.
Proof.
  intros Hm Hl. fix IH 1. intros e.
  destruct e as [|excs| | | | | | |]; try (apply Hl; reflexivity).
  apply Hm. induction excs as [|x excs IHl]; constructor.
  - apply IH.
  - exact IHl.
Qed.

(** Nothing is left of an exception once the cancellations are filtered
    out exactly when it is made of cancellations only. *)
Lemma filter_only_cancelled e :
  filter_exn drop_cancelled e = None <-> only_cancelled e = true.
Proof.
  induction e as [excs IH|e He] using exn_tree_ind.
  - cbn [filter_exn only_cancelled].
    set (go := fix go (l : list exn) : list exn :=
                 match l with
                 | [] => []
                 | x :: l' =>
                     match filter_exn drop_cancelled x with
                     | Some y => y :: go l'
                     | None => go l'
                     end
                 end).
    set (all := fix all (l : list exn) : bool :=
                  match l with
                  | [] => true
                  | x :: l' => only_cancelled x && all l'
                  end).
    assert (G : go excs = [] <-> all excs = true).
    { induction IH as [|x excs Hx _ IHl]; [now split|]. cbn.
      destruct (filter_exn drop_cancelled x) as [y|] eqn:Fx.
      - split; [discriminate|]. intros H. apply andb_prop in H as [H _].
        apply Hx in H. discriminate.
      - rewrite (proj1 Hx eq_refl). cbn. exact IHl. }
    rewrite <- G. destruct (go excs) as [|y [|z l]]; split; congruence.
  - destruct e; try discriminate He; cbn; split; congruence.
Qed.

Lemma handle_eq env e s :
  _handle env (Raise e) s =
  let s0 := set_trace (st_trace s ++ [InvokeAsgi]) s in
  let h := st_trace s ++ [InvokeAsgi; LogException "Error in ASGI Framework"] in
  let logged :=
    match e_log env h with
    | Ret _ => (e_app_send env (h ++ [SendNone]), set_trace (h ++ [SendNone]) s)
    | Raise e' => (Raise e', set_trace h s)
    | Pending => (Pending, set_trace h s)
    end in
  match e with
  | Cancelled => (Raise e, s0)
  | MultiError _ =>
      match e_filter env drop_cancelled e with
      | Ret (Some _) => logged
      | Ret None => (Raise e, s0)
      | Raise e' => (Raise e', s0)
      | Pending => (Pending, s0)
      end
  | _ => if is_Exception e then logged else (Raise e, s0)
  end.
Proof.
  cbv zeta.
  assert (L : (log_exception env "Error in ASGI Framework" ;; send_none env)
                (set_trace (st_trace s ++ [InvokeAsgi]) s) =
              match e_log env (st_trace s ++
                                 [InvokeAsgi; LogException "Error in ASGI Framework"]) with
              | Ret _ =>
                  (e_app_send env
                     ((st_trace s ++
                         [InvokeAsgi; LogException "Error in ASGI Framework"])
                        ++ [SendNone]),
                   set_trace
                     ((st_trace s ++
                         [InvokeAsgi; LogException "Error in ASGI Framework"])
                        ++ [SendNone]) s)
              | Raise e' =>
                  (Raise e',
                   set_trace
                     (st_trace s ++
                        [InvokeAsgi; LogException "Error in ASGI Framework"]) s)
              | Pending =>
                  (Pending,
                   set_trace
                     (st_trace s ++
                        [InvokeAsgi; LogException "Error in ASGI Framework"]) s)
              end).
  { unfold log_exception, send_none, call, bind, emit, ask.
    cbn [st_trace set_trace]. rewrite <- app_assoc. cbn [app].
    destruct (e_log env _) as [[]|e'|]; reflexivity. }
  unfold _handle, try_except, call, bind at 1, emit, ask.
  cbn [st_trace set_trace].
  destruct e as [|excs| | | | | | |]; try exact L; try reflexivity.
  unfold bind at 1.
  destruct (e_filter env drop_cancelled (MultiError excs)) as [[y|]|e'|];
    try reflexivity.
  exact L.
Qed.

(** What is neither an [Exception] nor one of the two trio classes (a
    [KeyboardInterrupt], a [SystemExit]) passes through [_handle]
    untouched. *)
Lemma handle_base_exception env name s :
  _handle env (Raise (OtherBaseException name)) s =
  (Raise (OtherBaseException name),
   set_trace (st_trace s ++ [InvokeAsgi]) s).
Proof. now rewrite handle_eq. Qed.

(** A request that ends normally adds nothing. *)
Lemma handle_returns env s :
  _handle env (Ret tt) s = (Ret tt, set_trace (st_trace s ++ [InvokeAsgi]) s).
Proof. reflexivity. Qed.

(** When the call [error.filter(handler)] itself raises, that exception
    leaves [_handle] from inside the [except] clause: nothing is logged and
    nothing is sent. *)
Lemma handle_filter_raises env excs e' s :
  e_filter env drop_cancelled (MultiError excs) = Raise e' ->
  _handle env (Raise (MultiError excs)) s =
  (Raise e', set_trace (st_trace s ++ [InvokeAsgi]) s).
Proof. intros H. rewrite handle_eq. cbv zeta. now rewrite H. Qed.

(** C8, as the code has it.  With trio's [MultiError.filter], which the
    call [error.filter(handler)] gives no exception to filter: when the
    application raises an [Exception], the task logs it once (the log call
    returning) and sends the sentinel once, and a cancellation is raised
    again, with nothing logged or sent; but when it raises a [MultiError],
    whatever it is made of, the call of [filter] raises [TypeError], and
    that is what leaves [_handle]: nothing is logged, nothing is sent, and
    the [MultiError] is not raised again. *)
Theorem handle_multierror_is_never_filtered env e s :
  (forall handler err, e_filter env handler err = MultiError_filter handler None) ->
  (is_Exception e = true ->
   let h := st_trace s ++ [InvokeAsgi; LogException "Error in ASGI Framework"] in
   e_log env h = Ret tt ->
   _handle env (Raise e) s =
   (e_app_send env (h ++ [SendNone]), set_trace (h ++ [SendNone]) s)) /\
  (e = Cancelled ->
   _handle env (Raise e) s =
   (Raise Cancelled, set_trace (st_trace s ++ [InvokeAsgi]) s)) /\
  (is_MultiError e = true ->
   _handle env (Raise e) s =
   (Raise (OtherException "TypeError"),
    set_trace (st_trace s ++ [InvokeAsgi]) s)).
Proof.
  intros Hf. split; [|split].
  - intros He. cbv zeta. intros Hlog. rewrite handle_eq. cbv zeta.
    rewrite Hlog. destruct e; try discriminate He; reflexivity.
  - intros ->. now rewrite handle_eq.
  - intros Hm. destruct e as [|excs| | | | | | |]; try discriminate Hm.
    apply handle_filter_raises. now rewrite Hf.
Qed.

(** * The theorems at work on concrete connections *)

(** A failure of the engine inside the nursery block leaves [run] as an
    exception, after the teardown: [run] does not turn every failure into a
    return. *)
Lemma run_propagates_engine_failure :
  fst (run failing_engine_env [Ret GET] init) =
    Raise (OtherException "ProtocolError") /\
  st_trace (snd (run failing_engine_env [Ret GET] init)) =
    [GetPeerName; GetSockName; OpenNursery;
     NewProtocol false peer host (Some "http/1.1"); Initiate; ReadIdle;
     ReceiveSome MAX_RECV; Handle (RawData GET); SendEof; AClose].
Proof. split; reflexivity. Qed.

Lemma run_swallows_multierror_witness :
  fst (run multierror_env [Ret GET; Ret []] init) = Ret tt.
Proof.
  pose proof (run_swallows_handshake_and_multierror multierror_env
                [Ret GET; Ret []] init) as [_ H].
  set (block := open_nursery multierror_env
                  (serve multierror_env [Ret GET; Ret []] false peer host
                     (Some "http/1.1"))
                  (set_trace [GetPeerName; GetSockName] init)).
  rewrite (H (Some "http/1.1") false init peer host
             (Raise (MultiError [OtherException "ValueError"; Cancelled]))
             (snd block) (snd (_close multierror_env (snd block))));
    [reflexivity|reflexivity|reflexivity|reflexivity|reflexivity
    |discriminate|reflexivity].
Defined.

(** After a slow read the teardown runs twice on a run that ends
    normally: once in the read loop, once in the [finally] clause. *)
Lemma slow_read_tears_down_twice :
  fst (run (plain_env false)
         [Raise TooSlowError; Raise ClosedResourceError] init) = Ret tt /\
  teardowns
    (st_trace (snd (run (plain_env false)
                      [Raise TooSlowError; Raise ClosedResourceError] init))) = 2 /\
  count is_AClose
    (st_trace (snd (run (plain_env false)
                      [Raise TooSlowError; Raise ClosedResourceError] init))) = 2.
Proof. repeat split. Qed.

(** So it does when the engine sends [Closed]. *)
Lemma engine_closed_tears_down_twice :
  fst (run closing_engine_env [Ret GET; Raise ClosedResourceError] init) = Ret tt /\
  teardowns
    (st_trace (snd (run closing_engine_env
                      [Ret GET; Raise ClosedResourceError] init))) = 2.
Proof. repeat split. Qed.

Lemma teardown_after_read_phase_witness :
  exists tr,
    st_trace (snd (run (plain_env false) [Ret GET; Ret []] init)) = [] ++ tr /\
    (exists t, tr = t ++ [SendEof] \/ tr = t ++ [SendEof; AClose]) /\
    1 + count is_SendClosed tr <= teardowns tr /\
    teardowns tr <= 1 + count is_SendClosed tr + closed_events (handled tr) /\
    (count is_SendClosed tr = 0 -> closed_events (handled tr) = 0 ->
     teardowns tr = 1).
Proof.
  apply (teardown_after_read_phase (plain_env false) [Ret GET; Ret []] init
           (Ret tt) (snd (run (plain_env false) [Ret GET; Ret []] init))).
  - reflexivity.
  - discriminate.
  - exists [GetPeerName; GetSockName; OpenNursery;
            NewProtocol false peer host (Some "http/1.1"); Initiate; ReadIdle],
           [Handle (RawData GET); ReadIdle; ReceiveSome MAX_RECV;
            Handle (RawData []); ReadIdle; SendEof; AClose].
    reflexivity.
Defined.

(** After a slow read, its [Closed] and its teardown, the loop reads
    again. *)
Lemma read_after_slow_read :
  silent_after_closed
    (st_trace (snd (_read_data (plain_env false)
                      [Raise TooSlowError; Raise ClosedResourceError] init))) = false /\
  st_trace (snd (_read_data (plain_env false)
                   [Raise TooSlowError; Raise ClosedResourceError] init)) =
    [ReceiveSome MAX_RECV; Handle Closed; SendEof; AClose; ReceiveSome MAX_RECV].
Proof. split; reflexivity. Qed.

(** After the engine sent [Closed] while handling a read, and the transport
    was torn down, the loop reads again. *)
Lemma read_after_engine_closed :
  st_trace (snd (_read_data closing_engine_env
                   [Ret GET; Raise ClosedResourceError] init)) =
    [ReceiveSome MAX_RECV; Handle (RawData GET); Send Closed; SendEof; AClose;
     ReadIdle; ReadIdle; ReceiveSome MAX_RECV] /\
  silent_after_closed
    (st_trace (snd (_read_data closing_engine_env
                      [Ret GET; Raise ClosedResourceError] init))) = false.
Proof. split; reflexivity. Qed.

(** And a write that the engine asks for after it sent [Closed] is
    attempted as any other. *)
Lemma write_after_closed :
  st_trace (snd (send_each (plain_env false) [Closed; RawData GET] init)) =
    [Send Closed; SendEof; AClose; ReadIdle;
     Send (RawData GET); Acquire; SendAll GET; Release; ReadIdle].
Proof. reflexivity. Qed.

Lemma closed_is_not_recorded_witness :
  In (Send Closed)
    (st_trace (snd (protocol_handle closing_engine_env (RawData GET)
                      (set_trace [ReceiveSome MAX_RECV] init)))) /\
  _read_data closing_engine_env [Ret GET; Raise ClosedResourceError; Ret GET] init =
  (Ret tt,
   set_trace
     [ReceiveSome MAX_RECV; Handle (RawData GET); Send Closed; SendEof; AClose;
      ReadIdle; ReadIdle; ReceiveSome MAX_RECV] init).
Proof.
  set (s1 := snd (protocol_handle closing_engine_env (RawData GET)
                    (set_trace [ReceiveSome MAX_RECV] init))).
  set (s2 := snd (_update_keep_alive_timeout closing_engine_env s1)).
  assert (H : In (Send Closed) (st_trace s1))
    by (right; right; left; reflexivity).
  split; [exact H|].
  assert (Hd : GET <> []) by discriminate.
  exact (proj1 (proj2 (closed_is_not_recorded closing_engine_env GET init s1 s2
                         Hd eq_refl H eq_refl))
           (Raise ClosedResourceError) [Ret GET] (or_introl eq_refl)).
Defined.

Lemma read_data_delivers_witness :
  Forall (fun d : bytes => d <> []) [GET] /\
  exists tr,
    st_trace (snd (_read_data (plain_env false)
                     (map Ret [GET] ++ Ret ([] : bytes) :: [Ret GET]) init)) =
      [] ++ tr /\
    (exists n,
       n <= length [GET] + 1 /\
       count is_ReceiveSome tr = n /\
       handled tr = map RawData (take n ([GET] ++ [[]]))) /\
    (fst (_read_data (plain_env false)
            (map Ret [GET] ++ Ret ([] : bytes) :: [Ret GET]) init) = Ret tt ->
     count is_ReceiveSome tr = length [GET] + 1 /\
     handled tr = map RawData ([GET] ++ [[]])) /\
    (calm (plain_env false) -> st_lock init = false ->
     fst (_read_data (plain_env false)
            (map Ret [GET] ++ Ret ([] : bytes) :: [Ret GET]) init) = Ret tt).
Proof.
  assert (H : Forall (fun d : bytes => d <> []) [GET])
    by (constructor; [discriminate|constructor]).
  split; [exact H|].
  exact (read_data_delivers_every_read (plain_env false) [GET] [Ret GET] init H).
Defined.

Lemma call_later_witness :
  CallLater.sleeping
    (CallLater.steps [CallLater.Deadline] (CallLater._call_later 2)) = true /\
  CallLater.invoked
    (CallLater.steps [CallLater.Cancel; CallLater.Resume; CallLater.Resume]
       (CallLater.steps [CallLater.Deadline] (CallLater._call_later 2))) = false /\
  CallLater.completed
    (CallLater.steps
       [CallLater.Resume; CallLater.ScopeCancel; CallLater.Resume; CallLater.Resume]
       (CallLater.steps [CallLater.Deadline] (CallLater._call_later 2))) = true.
Proof.
  pose proof (call_later_cancel_and_shield 2 [CallLater.Deadline] eq_refl)
    as [Ha Hb].
  split; [reflexivity|]. split.
  - exact (Ha [CallLater.Resume; CallLater.Resume]).
  - destruct (Hb eq_refl eq_refl) as (_ & _ & Hc).
    exact (proj1 (Hc [CallLater.ScopeCancel; CallLater.Resume; CallLater.Resume]
                    eq_refl (le_n 2))).
Defined.

Lemma handshake_failure_witness :
  run (tls_env (Raise TooSlowError)) [Ret GET; Ret []] init =
    (Ret tt, set_trace [DoHandshake] init) /\
  negotiate (plain_env false) init = (Ret (Some (Some "http/1.1", false)), init).
Proof.
  split.
  - exact (proj1 (handshake_failure_or_plain_stream (tls_env (Raise TooSlowError))
                    [Ret GET; Ret []] init) (or_intror eq_refl)).
  - exact (proj1 (proj2 (handshake_failure_or_plain_stream (plain_env false)
                           [] init) eq_refl)).
Defined.

Lemma overlapping_rearms_witness :
  pending_timers (snd (rearm_repeatedly (plain_env true) 2 init)) = 1 /\
  pending_timers (snd (overlapping_rearms (plain_env true) init)) = 2 /\
  st_handle (snd (overlapping_rearms (plain_env true) init)) = Some 1 /\
  st_timers (snd (rearm_repeatedly (plain_env true) 3
                    (snd (overlapping_rearms (plain_env true) init)))) !! 0 =
    Some (CallLater._call_later 1).
Proof.
  assert (H : timers_ok init)
    by (split; [intros i t Hi; discriminate Hi | constructor]).
  destruct (overlapping_rearms_leave_two_timers (plain_env true) init
              (fun _ => eq_refl) (fun _ => eq_refl) H)
    as ((_ & H1) & _ & H2 & H3 & H4).
  split; [exact H1|]. split; [exact H2|]. split; [exact H3|].
  exact (proj1 (H4 3)).
Defined.

Lemma close_ends_as_aclose_ends_witness :
  close_repeatedly (tls_env (Ret tt)) 2 init =
  (Ret tt, set_trace [SendEof; AClose; SendEof; AClose] init).
Proof.
  exact (proj2 (proj2 (close_ends_as_aclose_ends (tls_env (Ret tt))))
           (fun _ => eq_refl) (fun _ => eq_refl) 2 init).
Defined.

(** The stream is already closed, and the full close is cut short by a
    cancellation: [_close] raises. *)
Lemma close_raises_what_aclose_raises :
  _close (transport_env (Ret tt) (Raise ClosedResourceError) (Raise Cancelled) false)
    init =
  (Raise Cancelled, set_trace [SendEof; AClose] init).
Proof. reflexivity. Qed.





Lemma handle_multierror_witness :
  _handle (plain_env false) (Raise (OtherException "KeyError")) init =
    (Ret tt,
     set_trace [InvokeAsgi; LogException "Error in ASGI Framework"; SendNone] init) /\
  _handle (plain_env false)
    (Raise (MultiError [OtherException "ValueError"; Cancelled])) init =
    (Raise (OtherException "TypeError"), set_trace [InvokeAsgi] init) /\
  _handle (plain_env false) (Raise (MultiError [Cancelled; Cancelled])) init =
    (Raise (OtherException "TypeError"), set_trace [InvokeAsgi] init).
Proof.
  pose proof (handle_multierror_is_never_filtered (plain_env false)
                (OtherException "KeyError") init (fun _ _ => eq_refl)) as (H1 & _).
  pose proof (handle_multierror_is_never_filtered (plain_env false)
                (MultiError [OtherException "ValueError"; Cancelled]) init
                (fun _ _ => eq_refl)) as (_ & _ & H2).
  pose proof (handle_multierror_is_never_filtered (plain_env false)
                (MultiError [Cancelled; Cancelled]) init
                (fun _ _ => eq_refl)) as (_ & _ & H3).
  split; [|split].
  - exact (H1 eq_refl eq_refl).
  - exact (H2 eq_refl).
  - exact (H3 eq_refl).
Defined.

(** * More of the module *)

(** ** The teardown and the ways out of [run] *)

(** X1.  An exception of [send_eof] that is none of the four [_close]
    names, or a [send_eof] that never completes, ends [_close] there: it is
    what [_close] comes to, and [aclose] is not called. *)
Theorem close_stops_at_other_half_close_failure env s :
  half_closed (e_send_eof env (st_trace s ++ [SendEof])) = false ->
  _close env s =
  (e_send_eof env (st_trace s ++ [SendEof]),
   set_trace (st_trace s ++ [SendEof]) s).
Proof.
  intros H. rewrite close_eq. cbv zeta.
  destruct (e_send_eof env _) as [[]|e|]; [discriminate H| |reflexivity].
  now rewrite H.
Qed.

Lemma close_stops_witness :
  _close (stream_env None (Ret peer) (Raise Cancelled)) init =
  (Raise Cancelled, set_trace [SendEof] init).
Proof.
  exact (close_stops_at_other_half_close_failure
           (stream_env None (Ret peer) (Raise Cancelled)) init eq_refl).
Defined.

(** X2.  A teardown that fails decides how [run] ends: whatever the
    nursery block came to, also a [MultiError] that [run] would have
    swallowed or a normal end, [run] raises the exception of the [_close] in
    its [finally] clause. *)
Theorem run_raises_teardown_failure env reads s alpn ssl s0 client server o s1 e s2 :
  negotiate env s = (Ret (Some (alpn, ssl)), s0) ->
  e_peername env = Ret client ->
  e_sockname env = Ret server ->
  open_nursery env (serve env reads ssl client server alpn)
    (set_trace (st_trace s0 ++ [GetPeerName; GetSockName]) s0) = (o, s1) ->
  o <> Pending ->
  _close env s1 = (Raise e, s2) ->
  run env reads s = (Raise e, s2).
Proof.
  intros Hn Hp Hs Ho Hne Hc.
  rewrite run_eq, Hn, Hp, Hs. cbv zeta.
  rewrite connection_eq, guarded_eq, Ho.
  destruct o as [[]|e0|]; [now rewrite Hc| |contradiction].
  destruct e0; now rewrite Hc.
Qed.

Lemma run_raises_teardown_failure_witness :
  run (stream_env None (Ret peer) (Raise Cancelled)) [Ret []] init =
  (Raise Cancelled,
   set_trace
     [GetPeerName; GetSockName; OpenNursery;
      NewProtocol false peer host (Some "http/1.1"); Initiate; ReadIdle;
      ReceiveSome MAX_RECV; Handle (RawData []); ReadIdle; SendEof] init).
Proof.
  apply (run_raises_teardown_failure
           (stream_env None (Ret peer) (Raise Cancelled)) [Ret []] init
           (Some "http/1.1") false init peer host (Ret tt)
           (set_trace
              [GetPeerName; GetSockName; OpenNursery;
               NewProtocol false peer host (Some "http/1.1"); Initiate; ReadIdle;
               ReceiveSome MAX_RECV; Handle (RawData []); ReadIdle] init)
           Cancelled).
  - reflexivity.
  - reflexivity.
  - reflexivity.
  - reflexivity.
  - discriminate.
  - reflexivity.
Defined.

(** X3.  A handshake that fails with anything but [BrokenResourceError],
    [TooSlowError] or [AttributeError] is not handled by [run]: the
    exception leaves [run] at once, with no engine built and no teardown
    (neither [send_eof] nor [aclose] is called). *)
Theorem run_handshake_error_propagates env reads s e :
  e_do_handshake env = Some (Raise e) ->
  e <> BrokenResourceError -> e <> TooSlowError -> e <> AttributeError ->
  run env reads s = (Raise e, set_trace (st_trace s ++ [DoHandshake]) s).
Proof.
  intros H H1 H2 H3. rewrite run_eq, negotiate_eq, H. cbv zeta.
  destruct e; try reflexivity; contradiction.
Qed.

Lemma run_handshake_error_witness :
  run (stream_env (Some (Raise (OtherException "SSLError"))) (Ret peer) (Ret tt))
    [Ret GET] init =
  (Raise (OtherException "SSLError"), set_trace [DoHandshake] init).
Proof.
  apply (run_handshake_error_propagates
           (stream_env (Some (Raise (OtherException "SSLError"))) (Ret peer) (Ret tt))
           [Ret GET] init (OtherException "SSLError") eq_refl);
    discriminate.
Defined.

(** X4.  After a handshake that returned, [run] asks the stream for the
    protocol negotiated by ALPN, resolves the two addresses and builds the
    engine with [ssl] true and that protocol, before anything is read. *)
Theorem run_tls_builds_engine_with_alpn env reads s client server :
  e_do_handshake env = Some (Ret tt) ->
  e_peername env = Ret client ->
  e_sockname env = Ret server ->
  exists t,
    st_trace (snd (run env reads s)) =
    st_trace s ++ DoHandshake :: SelectedAlpnProtocol :: GetPeerName
      :: GetSockName :: OpenNursery
      :: NewProtocol true client server (e_selected_alpn_protocol env)
      :: Initiate :: t.
Proof.
  intros H Hp Hs. rewrite run_eq, negotiate_eq, H, Hp, Hs. cbv zeta.
  destruct (connection_opening env reads true client server
              (e_selected_alpn_protocol env)
              (set_trace
                 (st_trace (set_trace (st_trace s ++ [DoHandshake; SelectedAlpnProtocol]) s)
                  ++ [GetPeerName; GetSockName])
                 (set_trace (st_trace s ++ [DoHandshake; SelectedAlpnProtocol]) s)))
    as [(tr & E & t & ->) _].
  exists t. rewrite E. cbn [st_trace set_trace]. now rewrite <- !app_assoc.
Qed.

Lemma run_tls_witness :
  exists t,
    st_trace (snd (run (tls_env (Ret tt)) [Ret GET] init)) =
    [] ++ DoHandshake :: SelectedAlpnProtocol :: GetPeerName
      :: GetSockName :: OpenNursery
      :: NewProtocol true peer host (Some "h2") :: Initiate :: t.
Proof.
  exact (run_tls_builds_engine_with_alpn (tls_env (Ret tt)) [Ret GET] init
           peer host eq_refl eq_refl eq_refl).
Defined.

(** X5.  An [AttributeError] raised by the handshake itself is taken for
    a stream without [do_handshake]: [selected_alpn_protocol] is not asked,
    and [run] goes on to [self.stream.socket].  On a stream that has that
    attribute (its addresses resolve) the connection is served as a plain
    one, with [ssl] false and ["http/1.1"]; on a stream that has not, as
    trio's [SSLStream], the lookup raises a second [AttributeError], which
    leaves [run] before the nursery is opened, the stream not closed. *)
Theorem run_attribute_error_in_handshake env reads s :
  e_do_handshake env = Some (Raise AttributeError) ->
  (forall client server,
     e_peername env = Ret client ->
     e_sockname env = Ret server ->
     exists t,
       st_trace (snd (run env reads s)) =
       st_trace s ++ DoHandshake :: GetPeerName :: GetSockName :: OpenNursery
         :: NewProtocol false client server (Some "http/1.1")
         :: Initiate :: t) /\
  (e_peername env = Raise AttributeError ->
   run env reads s =
   (Raise AttributeError, set_trace (st_trace s ++ [DoHandshake; GetPeerName]) s)).
Proof.
  intros H. split.
  - intros client server Hp Hs.
    rewrite run_eq, negotiate_eq, H, Hp, Hs. cbv zeta.
    destruct (connection_opening env reads false client server (Some "http/1.1")
                (set_trace
                   (st_trace (set_trace (st_trace s ++ [DoHandshake]) s)
                    ++ [GetPeerName; GetSockName])
                   (set_trace (st_trace s ++ [DoHandshake]) s)))
      as [(tr & E & t & ->) _].
    exists t. rewrite E. cbn [st_trace set_trace]. now rewrite <- !app_assoc.
  - intros Hp. rewrite run_eq, negotiate_eq, H, Hp. cbv zeta.
    cbn [st_trace set_trace]. now rewrite <- app_assoc.
Qed.

Lemma run_attribute_error_witness :
  (exists t,
     st_trace (snd (run (stream_env (Some (Raise AttributeError)) (Ret peer) (Ret tt))
                      [Ret GET] init)) =
     [] ++ DoHandshake :: GetPeerName :: GetSockName :: OpenNursery
       :: NewProtocol false peer host (Some "http/1.1") :: Initiate :: t) /\
  run (stream_env (Some (Raise AttributeError)) (Raise AttributeError) (Ret tt))
    [Ret GET] init =
  (Raise AttributeError, set_trace [DoHandshake; GetPeerName] init).
Proof.
  split.
  - exact (proj1 (run_attribute_error_in_handshake
                    (stream_env (Some (Raise AttributeError)) (Ret peer) (Ret tt))
                    [Ret GET] init eq_refl) peer host eq_refl eq_refl).
  - exact (proj2 (run_attribute_error_in_handshake
                    (stream_env (Some (Raise AttributeError))
                       (Raise AttributeError) (Ret tt))
                    [Ret GET] init eq_refl) eq_refl).
Defined.

(** X6.  A failure to resolve the peer's or the server's address (a
    [getpeername] on a socket the peer has left) is not handled: it leaves
    [run] before the nursery is opened, and the stream is not closed. *)
Theorem run_address_failure env reads s alpn ssl s0 e :
  negotiate env s = (Ret (Some (alpn, ssl)), s0) ->
  (e_peername env = Raise e ->
   run env reads s = (Raise e, set_trace (st_trace s0 ++ [GetPeerName]) s0)) /\
  (forall client,
     e_peername env = Ret client ->
     e_sockname env = Raise e ->
     run env reads s =
     (Raise e, set_trace (st_trace s0 ++ [GetPeerName; GetSockName]) s0)).
Proof.
  intros Hn. split.
  - intros Hp. now rewrite run_eq, Hn, Hp.
  - intros client Hp Hs. now rewrite run_eq, Hn, Hp, Hs.
Qed.

Lemma run_address_failure_witness :
  run (stream_env None (Raise (OtherException "OSError")) (Ret tt)) [Ret GET] init =
  (Raise (OtherException "OSError"), set_trace [GetPeerName] init).
Proof.
  exact (proj1 (run_address_failure
                  (stream_env None (Raise (OtherException "OSError")) (Ret tt))
                  [Ret GET] init (Some "http/1.1") false init
                  (OtherException "OSError") eq_refl) eq_refl).
Defined.

Lemma negotiate_calls env s :
  exists t0,
    st_trace (snd (negotiate env s)) = st_trace s ++ t0 /\
    Forall (fun a => a = DoHandshake \/ a = SelectedAlpnProtocol) t0.
Proof.
  rewrite negotiate_eq.
  destruct (e_do_handshake env) as [r|].
  - cbv zeta. destruct r as [[]|e|].
    + exists [DoHandshake; SelectedAlpnProtocol]. split; [reflexivity|].
      repeat (constructor; [auto|]). constructor.
    + exists [DoHandshake]. split; [destruct e; reflexivity|].
      repeat (constructor; [auto|]). constructor.
    + exists [DoHandshake]. split; [reflexivity|].
      repeat (constructor; [auto|]). constructor.
  - exists []. split; [now rewrite app_nil_r|constructor].
Qed.

(** X7.  [run] closes the stream exactly when it got as far as the nursery
    block.  Once the nursery was opened, every way out of [run] goes through
    the teardown, which is the last thing done, also when nothing was ever
    read; before that, no way out of [run] calls [send_eof] or [aclose]. *)
Theorem run_closes_iff_nursery_opened env reads s :
  fst (run env reads s) <> Pending ->
  exists tr,
    st_trace (snd (run env reads s)) = st_trace s ++ tr /\
    (In OpenNursery tr ->
     exists t, tr = t ++ [SendEof] \/ tr = t ++ [SendEof; AClose]) /\
    (~ In OpenNursery tr -> teardowns tr = 0 /\ count is_AClose tr = 0).
Proof.
  intros Hne. rewrite run_eq in *.
  destruct (negotiate_calls env s) as (t0 & E0 & F0).
  assert (Q : forall x,
             Forall (fun a => a = DoHandshake \/ a = SelectedAlpnProtocol \/
                              a = GetPeerName \/ a = GetSockName) x ->
             (In OpenNursery x ->
              exists t, x = t ++ [SendEof] \/ x = t ++ [SendEof; AClose]) /\
             (~ In OpenNursery x -> teardowns x = 0 /\ count is_AClose x = 0)).
  { intros x Fx. split.
    - intros Hin. rewrite List.Forall_forall in Fx. apply Fx in Hin.
      destruct Hin as [?|[?|[?|?]]]; discriminate.
    - intros _. induction Fx as [|a x Ha _ IH]; [split; reflexivity|].
      destruct IH as [I1 I2]. unfold teardowns, count in *.
      destruct Ha as [-> | [-> | [-> | ->]]]; cbn; auto. }
  assert (F1 : forall x,
             Forall (fun a => a = GetPeerName \/ a = GetSockName) x ->
             Forall (fun a => a = DoHandshake \/ a = SelectedAlpnProtocol \/
                              a = GetPeerName \/ a = GetSockName) (t0 ++ x)).
  { intros x Fx. apply Forall_app. split.
    - eapply Forall_impl; [exact F0|]. intros a [?|?]; auto.
    - eapply Forall_impl; [exact Fx|]. intros a [?|?]; auto. }
  destruct (negotiate env s) as [o0 s0]. cbn [snd] in E0.
  destruct o0 as [[[alpn ssl]|]|e|].
  - destruct (e_peername env) as [client|e|].
    + cbv zeta in *. destruct (e_sockname env) as [server|e|].
      * destruct (connection env reads ssl client server alpn _) as [o s'] eqn:Ec.
        cbn [fst snd] in *.
        apply connection_trace in Ec as (t & c & Et & Hc & _ & t' & ->);
          [|exact Hne].
        cbn [st_trace set_trace] in Et.
        exists (t0 ++ [GetPeerName; GetSockName]
                  ++ (OpenNursery :: NewProtocol ssl client server alpn
                        :: Initiate :: t') ++ c).
        split; [rewrite Et, E0, <- !app_assoc; reflexivity|]. split.
        -- intros _.
           exists (t0 ++ [GetPeerName; GetSockName]
                     ++ OpenNursery :: NewProtocol ssl client server alpn
                          :: Initiate :: t').
           destruct Hc as [-> | ->]; [left|right];
             now rewrite <- !app_assoc.
        -- intros Hnot. exfalso. apply Hnot.
           apply in_or_app. right. cbn. auto.
      * exists (t0 ++ [GetPeerName; GetSockName]). cbn [snd st_trace set_trace].
        split; [now rewrite E0, <- app_assoc|].
        apply Q, F1. repeat (constructor; [auto|]). constructor.
      * cbn [fst] in Hne. contradiction.
    + exists (t0 ++ [GetPeerName]). cbn [snd st_trace set_trace].
      split; [now rewrite E0, <- app_assoc|].
      apply Q, F1. repeat (constructor; [auto|]). constructor.
    + cbn [fst] in Hne. contradiction.
  - exists t0. split; [exact E0|].
    rewrite <- (app_nil_r t0). apply Q, F1. constructor.
  - exists t0. split; [exact E0|].
    rewrite <- (app_nil_r t0). apply Q, F1. constructor.
  - cbn [fst] in Hne. contradiction.
Qed.

Lemma run_closes_witness :
  exists tr,
    st_trace (snd (run (plain_env false) [Ret []] init)) = [] ++ tr /\
    (In OpenNursery tr ->
     exists t, tr = t ++ [SendEof] \/ tr = t ++ [SendEof; AClose]) /\
    (~ In OpenNursery tr -> teardowns tr = 0 /\ count is_AClose tr = 0).
Proof.
  apply (run_closes_iff_nursery_opened (plain_env false) [Ret []] init).
  discriminate.
Defined.

(** ** The timers over a connection *)



(** X10.  What the rearm cancels never fires.  If the connection holds the
    handle of a timer task that is still in its sleep, then after
    [_update_keep_alive_timeout], however it ends and whatever happens to
    that task later (deadline, scheduling, cancellation of the connection),
    its callback is never invoked: the stream is not closed by it. *)
Theorem rearm_cancels_the_timer_it_held env s h k pre :
  st_handle s = Some h ->
  st_timers s !! h = Some (CallLater.steps pre (CallLater._call_later k)) ->
  CallLater.sleeping (CallLater.steps pre (CallLater._call_later k)) = true ->
  exists t',
    st_timers (snd (_update_keep_alive_timeout env s)) !! h = Some t' /\
    CallLater.cancel_called t' = true /\
    forall post, CallLater.invoked (CallLater.steps post t') = false.
Proof.
  intros Hh Ht Hs.
  exists (CallLater.step (CallLater.steps pre (CallLater._call_later k))
            CallLater.Cancel).
  assert (E : st_timers (disarm s) !! h =
              Some (CallLater.step (CallLater.steps pre (CallLater._call_later k))
                      CallLater.Cancel)).
  { unfold disarm. rewrite Hh. cbn. rewrite list_lookup_alter_eq, Ht. reflexivity. }
  split; [|split].
  - rewrite update_eq. cbv zeta.
    destruct (e_idle env _); [|exact E].
    destruct (e_start env _) as [[]|e|]; cbn; [|exact E|exact E].
    apply lookup_app_l_Some. exact E.
  - reflexivity.
  - intros post. apply (cancelled_never_invoked k). now apply asleep_reached.
Qed.

Lemma rearm_cancels_witness :
  exists t',
    st_timers
      (snd (_update_keep_alive_timeout (plain_env false)
              (snd (_update_keep_alive_timeout (plain_env true) init)))) !! 0 =
      Some t' /\
    CallLater.cancel_called t' = true /\
    forall post, CallLater.invoked (CallLater.steps post t') = false.
Proof.
  exact (rearm_cancels_the_timer_it_held (plain_env false)
           (snd (_update_keep_alive_timeout (plain_env true) init)) 0 1 []
           eq_refl eq_refl eq_refl).
Defined.

(** ** The delayed-close task, from start to end *)

Lemma steps_snoc evs ev t :
  CallLater.steps (evs ++ [ev]) t = CallLater.step (CallLater.steps evs t) ev.
Proof. unfold CallLater.steps. now rewrite fold_left_app. Qed.

Lemma asleep_flag k t ev :
  asleep k t -> CallLater.is_resume ev = false -> asleep k (CallLater.step t ev).
Proof.
  intros (H1 & H2 & H3 & H4 & H5) Hev.
  destruct ev; try discriminate; repeat split; assumption.
Qed.

(** Resuming a task that is in its sleep. *)
Lemma asleep_resume k t :
  asleep k t ->
  CallLater.step t CallLater.Resume =
  if CallLater.delivers t then CallLater.unwind t
  else if CallLater.elapsed t
       then CallLater.exec (CallLater.SetShield true :: CallLater.callback k) t
       else t.
Proof.
  intros (H1 & H2 & _). cbn. unfold CallLater.resume. now rewrite H1, H2.
Qed.

Lemma unwind_fields t :
  CallLater.exited (CallLater.unwind t) =
    Some (if CallLater.scope_cancelled t && negb (CallLater.shield t)
          then CallLater.CancelledOut else CallLater.Returned) /\
  CallLater.invoked (CallLater.unwind t) = CallLater.invoked t /\
  CallLater.completed (CallLater.unwind t) = CallLater.completed t.
Proof.
  unfold CallLater.unwind.
  destruct (CallLater.scope_cancelled t && negb (CallLater.shield t));
    repeat split.
Qed.

(** X11.  The delayed close waits for its deadline: in every history of a
    task started by [_call_later], the callback is invoked only by a
    scheduling of the task that comes after the deadline has passed. *)
Theorem call_later_waits_for_deadline k evs :
  CallLater.invoked (CallLater.steps evs (CallLater._call_later k)) = true ->
  exists pre post,
    evs = pre ++ CallLater.Deadline :: post /\ In CallLater.Resume post.
Proof.
  assert (I : (asleep k (CallLater.steps evs (CallLater._call_later k)) /\
               (CallLater.elapsed (CallLater.steps evs (CallLater._call_later k)) = true ->
                In CallLater.Deadline evs)) \/
              (exists pre post,
                 evs = pre ++ CallLater.Deadline :: post /\
                 In CallLater.Resume post) \/
              (CallLater.exited (CallLater.steps evs (CallLater._call_later k)) <> None /\
               CallLater.invoked (CallLater.steps evs (CallLater._call_later k)) = false)).
  { induction evs as [|ev evs IH] using rev_ind.
    - left. split; [repeat split|discriminate].
    - rewrite steps_snoc.
      destruct IH as [[Ha He]|[(pre & post & -> & Hr)|[Hx Hi]]].
      + destruct (CallLater.is_resume ev) eqn:Ev.
        * destruct ev; try discriminate. rewrite (asleep_resume k _ Ha).
          destruct (CallLater.delivers _).
          -- right. right.
             destruct (unwind_fields (CallLater.steps evs (CallLater._call_later k)))
               as (U1 & U2 & _).
             rewrite U1, U2. split; [discriminate|apply Ha].
          -- destruct (CallLater.elapsed _) eqn:El.
             ++ right. left. destruct (in_split _ _ (He eq_refl)) as (pre & post & ->).
                exists pre, (post ++ [CallLater.Resume]). split.
                ** now rewrite <- app_assoc.
                ** apply in_or_app. right. now left.
             ++ left. split; [exact Ha|]. rewrite El. discriminate.
        * left. split; [now apply asleep_flag|].
          intros H. apply in_or_app.
          destruct ev; try discriminate; cbn in H; auto.
          right. now left.
      + right. left. exists pre, (post ++ [ev]). split.
        * now rewrite <- app_assoc.
        * apply in_or_app. now left.
      + right. right.
        destruct (CallLater.exited (CallLater.steps evs _)) as [x|] eqn:Ex;
          [|contradiction].
        destruct (exited_step _ x ev Ex) as (E1 & E2 & _).
        rewrite E1, E2. split; [discriminate|exact Hi]. }
  intros H. destruct I as [[(_ & _ & Hi & _) _]|[I|[_ Hi]]];
    [congruence|exact I|congruence].
Qed.

Lemma call_later_waits_witness :
  exists pre post,
    [CallLater.Resume; CallLater.Deadline; CallLater.Resume] =
      pre ++ CallLater.Deadline :: post /\
    In CallLater.Resume post.
Proof.
  exact (call_later_waits_for_deadline 0
           [CallLater.Resume; CallLater.Deadline; CallLater.Resume] eq_refl).
Defined.

(** X12.  The connection goes away while the timer sleeps: once the
    enclosing scope is cancelled, the callback is never invoked, and the
    first scheduling of the task ends it with [Cancelled] leaving
    [_call_later], the task's own scope not absorbing it. *)
Theorem call_later_scope_cancelled_in_sleep k pre post :
  CallLater.sleeping (CallLater.steps pre (CallLater._call_later k)) = true ->
  CallLater.invoked
    (CallLater.steps post
       (CallLater.step (CallLater.steps pre (CallLater._call_later k))
          CallLater.ScopeCancel)) = false /\
  (In CallLater.Resume post ->
   CallLater.exited
     (CallLater.steps post
        (CallLater.step (CallLater.steps pre (CallLater._call_later k))
           CallLater.ScopeCancel)) = Some CallLater.CancelledOut).
Proof.
  intros Hs. apply asleep_reached in Hs.
  assert (K : forall evs u,
             (asleep k u /\ CallLater.scope_cancelled u = true) \/
             (CallLater.exited u = Some CallLater.CancelledOut /\
              CallLater.invoked u = false) ->
             CallLater.invoked (CallLater.steps evs u) = false /\
             (In CallLater.Resume evs \/
              CallLater.exited u = Some CallLater.CancelledOut ->
              CallLater.exited (CallLater.steps evs u) = Some CallLater.CancelledOut)).
  { induction evs as [|ev evs IH]; intros u Hu.
    - cbn. split.
      + destruct Hu as [[(_ & _ & Hi & _) _]|[_ Hi]]; exact Hi.
      + intros [[]|Hx]. exact Hx.
    - change (CallLater.steps (ev :: evs) u)
        with (CallLater.steps evs (CallLater.step u ev)).
      destruct Hu as [[Ha Hc]|[Hx Hi]].
      + destruct (CallLater.is_resume ev) eqn:Ev.
        * destruct ev; try discriminate.
          assert (E : CallLater.exited (CallLater.step u CallLater.Resume) =
                        Some CallLater.CancelledOut /\
                      CallLater.invoked (CallLater.step u CallLater.Resume) = false).
          { rewrite (asleep_resume k u Ha). unfold CallLater.delivers.
            destruct Ha as (_ & _ & Hi & Hsh & _). rewrite Hc, Hsh.
            rewrite orb_true_r.
            destruct (unwind_fields u) as (U1 & U2 & _).
            rewrite U1, U2, Hc, Hsh. split; [reflexivity|exact Hi]. }
          destruct (IH _ (or_intror E)) as [I1 I2].
          split; [exact I1|]. intros _. apply I2. right. apply E.
        * assert (A : asleep k (CallLater.step u ev) /\
                      CallLater.scope_cancelled (CallLater.step u ev) = true).
          { split; [now apply asleep_flag|].
            destruct ev; try discriminate; cbn; auto. }
          destruct (IH _ (or_introl A)) as [I1 I2].
          split; [exact I1|]. intros [[->|Hin]|Hx].
          -- discriminate.
          -- apply I2. now left.
          -- destruct Ha as (Hn & _). congruence.
      + destruct (exited_step u _ ev Hx) as (E1 & E2 & _).
        assert (E : CallLater.exited (CallLater.step u ev) =
                      Some CallLater.CancelledOut /\
                    CallLater.invoked (CallLater.step u ev) = false)
          by (split; congruence).
        destruct (IH _ (or_intror E)) as [I1 I2].
        split; [exact I1|]. intros _. apply I2. right. apply E. }
  destruct (K post
              (CallLater.step (CallLater.steps pre (CallLater._call_later k))
                 CallLater.ScopeCancel)) as [K1 K2].
  { left. split; [now apply asleep_flag|reflexivity]. }
  split; [exact K1|]. intros Hin. apply K2. now left.
Qed.

Lemma call_later_scope_cancelled_witness :
  CallLater.invoked
    (CallLater.steps [CallLater.Deadline; CallLater.Resume; CallLater.Resume]
       (CallLater.step (CallLater.steps [] (CallLater._call_later 1))
          CallLater.ScopeCancel)) = false /\
  CallLater.exited
    (CallLater.steps [CallLater.Deadline; CallLater.Resume; CallLater.Resume]
       (CallLater.step (CallLater.steps [] (CallLater._call_later 1))
          CallLater.ScopeCancel)) = Some CallLater.CancelledOut.
Proof.
  destruct (call_later_scope_cancelled_in_sleep 1 []
              [CallLater.Deadline; CallLater.Resume; CallLater.Resume] eq_refl)
    as [H1 H2].
  split; [exact H1|]. apply H2. right. now left.
Defined.

(** Where a task started by [_call_later] can be: in its sleep, at a
    checkpoint of the callback (shielded, not completed), or gone. *)
Lemma call_later_reachable k evs :
  let t := CallLater.steps evs (CallLater._call_later k) in
  asleep k t \/
  (exists j,
     CallLater.code t = repeat CallLater.Yield (S j) ++ [CallLater.Complete] /\
     CallLater.exited t = None /\ CallLater.invoked t = true /\
     CallLater.completed t = false /\ CallLater.shield t = true) \/
  CallLater.exited t <> None.
Proof.
  cbv zeta. induction evs as [|ev evs IH] using rev_ind.
  - left. repeat split.
  - rewrite steps_snoc.
    set (t := CallLater.steps evs (CallLater._call_later k)) in *.
    assert (Y : forall j u,
               CallLater.exited u = None -> CallLater.invoked u = true ->
               CallLater.completed u = false -> CallLater.shield u = true ->
               let v := CallLater.exec (repeat CallLater.Yield j ++ [CallLater.Complete]) u in
               (exists j',
                  CallLater.code v = repeat CallLater.Yield (S j') ++ [CallLater.Complete] /\
                  CallLater.exited v = None /\ CallLater.invoked v = true /\
                  CallLater.completed v = false /\ CallLater.shield v = true) \/
               CallLater.exited v <> None).
    { intros j u H1 H2 H3 H4. cbv zeta. destruct j as [|j].
      - right. cbn. discriminate.
      - left. exists j. repeat split; assumption. }
    destruct IH as [Ha|[(j & Hc & Hx & Hi & Hd & Hsh)|Hx]].
    + destruct (CallLater.is_resume ev) eqn:Ev.
      * destruct ev; try discriminate. rewrite (asleep_resume k t Ha).
        destruct (CallLater.delivers t).
        -- right. right. rewrite (proj1 (unwind_fields t)). discriminate.
        -- destruct (CallLater.elapsed t); [|now left].
           right. destruct Ha as (Hx & _ & _ & _ & Hd).
           apply (Y k (CallLater.set_invoked true (CallLater.set_shield true t)));
             auto.
      * left. now apply asleep_flag.
    + destruct (CallLater.is_resume ev) eqn:Ev.
      * destruct ev; try discriminate. right.
        cbn. unfold CallLater.resume. rewrite Hx, Hc. cbn [repeat app].
        destruct (CallLater.delivers t).
        -- right. rewrite (proj1 (unwind_fields t)). discriminate.
        -- now apply Y.
      * right. left. exists j. destruct ev; try discriminate; repeat split; assumption.
    + right. right.
      destruct (CallLater.exited t) as [x|] eqn:Ex; [|contradiction].
      rewrite (proj1 (exited_step t x ev Ex)). discriminate.
Qed.

(** X13.  The shield of [_call_later] does not stand against the task's
    own handle.  If [cancel()] is called on the handle while the callback is
    under way (entered, not yet returned: the timer's [aclose] is at one of
    its checkpoints), the next scheduling of the task ends it there: the
    callback never completes, and the task returns normally, its scope
    absorbing the cancellation. *)
Theorem call_later_cancel_interrupts_callback k pre :
  CallLater.invoked (CallLater.steps pre (CallLater._call_later k)) = true ->
  CallLater.exited (CallLater.steps pre (CallLater._call_later k)) = None ->
  CallLater.shield (CallLater.steps pre (CallLater._call_later k)) = true /\
  CallLater.exited
    (CallLater.steps [CallLater.Cancel; CallLater.Resume]
       (CallLater.steps pre (CallLater._call_later k))) = Some CallLater.Returned /\
  forall post,
    CallLater.completed
      (CallLater.steps (CallLater.Cancel :: CallLater.Resume :: post)
         (CallLater.steps pre (CallLater._call_later k))) = false.
Proof.
  intros Hi Hx.
  destruct (call_later_reachable k pre)
    as [(_ & _ & Hn & _)|[(j & Hc & _ & _ & Hd & Hsh)|Hne]];
    [congruence| |contradiction].
  set (t := CallLater.steps pre (CallLater._call_later k)) in *.
  assert (E : CallLater.steps [CallLater.Cancel; CallLater.Resume] t =
              CallLater.set_exited CallLater.Returned
                (CallLater.set_cancel_called true t)).
  { cbn. unfold CallLater.resume. cbn. rewrite Hx, Hc. cbn.
    unfold CallLater.unwind. cbn. rewrite Hsh, andb_false_r. reflexivity. }
  split; [exact Hsh|]. split; [now rewrite E|].
  intros post.
  change (CallLater.steps (CallLater.Cancel :: CallLater.Resume :: post) t)
    with (CallLater.steps post (CallLater.steps [CallLater.Cancel; CallLater.Resume] t)).
  rewrite E.
  destruct (exited_steps post
              (CallLater.set_exited CallLater.Returned
                 (CallLater.set_cancel_called true t))
              CallLater.Returned eq_refl) as (_ & _ & Hcomp).
  rewrite Hcomp. exact Hd.
Qed.

Lemma call_later_cancel_interrupts_witness :
  CallLater.exited
    (CallLater.steps [CallLater.Cancel; CallLater.Resume]
       (CallLater.steps [CallLater.Deadline; CallLater.Resume]
          (CallLater._call_later 2))) = Some CallLater.Returned /\
  CallLater.completed
    (CallLater.steps
       [CallLater.Cancel; CallLater.Resume; CallLater.Resume; CallLater.Resume]
       (CallLater.steps [CallLater.Deadline; CallLater.Resume]
          (CallLater._call_later 2))) = false.
Proof.
  destruct (call_later_cancel_interrupts_callback 2
              [CallLater.Deadline; CallLater.Resume] eq_refl eq_refl)
    as (_ & H1 & H2).
  split; [exact H1|exact (H2 [CallLater.Resume; CallLater.Resume])].
Defined.

(** ** The send lock over a connection *)

Lemma lock_discipline_app b x y :
  lock_discipline b (x ++ y) =
  match lock_discipline b x with
  | Some b' => lock_discipline b' y
  | None => None
  end.
Proof.
  revert b. induction x as [|a x IH]; intros b; [reflexivity|].
  destruct a; cbn; try apply IH; destruct b; auto.
Qed.

Lemma lock_discipline_free b tr :
  forallb lock_free tr = true -> lock_discipline b tr = Some b.
Proof.
  induction tr as [|a tr IH]; [reflexivity|]. cbn.
  intros H. apply andb_prop in H as [Ha Ht].
  destruct a; try discriminate; cbn; auto.
Qed.

Lemma lock_rel_refl {A} (o : Outcome A) s : lock_rel s (o, s).
Proof.
  split; [|reflexivity]. exists []. split; [now rewrite app_nil_r|reflexivity].
Qed.

(** A coroutine that returned, and the one run after it. *)
Lemma lock_rel_then {A B} s (a : Outcome A) s1 (r : Outcome B * State) :
  lock_rel s (a, s1) -> a <> Pending -> lock_rel s1 r -> lock_rel s r.
Proof.
  intros [(t1 & E1 & D1) L1] Ha [(t2 & E2 & D2) L2]. cbn [fst snd] in *.
  split.
  - exists (t1 ++ t2). split; [now rewrite E2, E1, app_assoc|].
    now rewrite lock_discipline_app, D1.
  - intros Hr. rewrite L2, L1; auto.
Qed.

(** The state a coroutine stopped in, given to what comes out of it. *)
Lemma lock_rel_outcome {A B} s (a : Outcome A) (b : Outcome B) s1 :
  lock_rel s (a, s1) -> (b <> Pending -> a <> Pending) -> lock_rel s (b, s1).
Proof.
  intros [H L] Hb. split; [exact H|]. intros Hne. apply L. now apply Hb.
Qed.

Lemma lock_safe_ret {A} (a : A) : lock_safe (ret a).
Proof. intros s. apply lock_rel_refl. Qed.

Lemma lock_safe_raise {A} e : lock_safe (@raise A e).
Proof. intros s. apply lock_rel_refl. Qed.

Lemma lock_safe_pure {A} (o : State -> Outcome A) : lock_safe (fun s => (o s, s)).
Proof. intros s. apply lock_rel_refl. Qed.

Lemma lock_safe_emit a : lock_free a = true -> lock_safe (emit a).
Proof.
  intros Ha s. split; [|reflexivity]. exists [a]. split; [reflexivity|].
  cbn [snd emit st_lock set_trace]. apply lock_discipline_free. cbn. now rewrite Ha.
Qed.

Lemma lock_safe_bind {A B} (m : M A) (k : A -> M B) :
  lock_safe m -> (forall a, lock_safe (k a)) -> lock_safe (bind m k).
Proof.
  intros Hm Hk s. unfold bind. specialize (Hm s).
  destruct (m s) as [[a|e|] s1].
  - eapply lock_rel_then; [exact Hm|discriminate|apply Hk].
  - eapply lock_rel_outcome; [exact Hm|discriminate].
  - eapply lock_rel_outcome; [exact Hm|]. intros H. now elim H.
Qed.

Lemma lock_safe_call {A} a (f : history -> Outcome A) :
  lock_free a = true -> lock_safe (call a f).
Proof.
  intros Ha. apply lock_safe_bind; [now apply lock_safe_emit|].
  intros _. apply (lock_safe_pure (fun s => f (st_trace s))).
Qed.

Lemma lock_safe_try_except {A} (m : M A) (h : exn -> option (M A)) :
  lock_safe m -> (forall e k, h e = Some k -> lock_safe k) ->
  lock_safe (try_except m h).
Proof.
  intros Hm Hh s. unfold try_except. specialize (Hm s).
  destruct (m s) as [[a|e|] s1]; [exact Hm| |exact Hm].
  destruct (h e) as [k|] eqn:Ek; [|exact Hm].
  eapply lock_rel_then; [exact Hm|discriminate|eapply Hh; eauto].
Qed.

Lemma lock_safe_try_finally {A} (m : M A) (f : M unit) :
  lock_safe m -> lock_safe f -> lock_safe (try_finally m f).
Proof.
  intros Hm Hf s. unfold try_finally. specialize (Hm s).
  destruct (m s) as [o s1].
  assert (K : o <> Pending ->
              lock_rel s
                (match f s1 with
                 | (Ret _, s2) => (o, s2)
                 | (Raise e, s2) => (Raise e, s2)
                 | (Pending, s2) => (Pending, s2)
                 end)).
  { intros Ho. specialize (Hf s1).
    destruct (f s1) as [[[]|e|] s2].
    - eapply lock_rel_then; [exact Hm|exact Ho|].
      eapply lock_rel_outcome; [exact Hf|discriminate].
    - eapply lock_rel_then; [exact Hm|exact Ho|].
      eapply lock_rel_outcome; [exact Hf|discriminate].
    - eapply lock_rel_then; [exact Hm|exact Ho|].
      eapply lock_rel_outcome; [exact Hf|]. intros H. now elim H. }
  destruct o as [a|e|]; [apply K; discriminate|apply K; discriminate|exact Hm].
Qed.

Lemma close_lock_safe env : lock_safe (_close env).
Proof.
  unfold _close. apply lock_safe_bind.
  - apply lock_safe_try_except; [now apply lock_safe_call|].
    intros e k Hk. destruct e; try discriminate; injection Hk as <-;
      apply lock_safe_ret.
  - intros _. now apply lock_safe_call.
Qed.

Lemma timer_trace_lock_free tr : timer_trace tr -> forallb lock_free tr = true.
Proof.
  induction 1 as [|a tr Ha _ IH]; [reflexivity|].
  cbn. rewrite IH. destruct a; try contradiction; reflexivity.
Qed.

Lemma update_lock_safe env : lock_safe (_update_keep_alive_timeout env).
Proof.
  intros s. destruct (update_trace env s) as (tr & E & T).
  pose proof (update_lock env s) as L. split.
  - exists tr. split; [exact E|]. rewrite L.
    now apply lock_discipline_free, timer_trace_lock_free.
  - intros _. exact L.
Qed.

Lemma protocol_send_lock_safe env ev : lock_safe (protocol_send env ev).
Proof.
  destruct ev as [data| |].
  - intros s. rewrite protocol_send_eq. cbv zeta.
    destruct (st_lock s) eqn:Ls.
    + split; [|cbn; now rewrite Ls]. exists [Send (RawData data)].
      split; [reflexivity|]. cbn. now rewrite Ls.
    + assert (R : lock_rel s
                (@Ret unit tt,
                 set_lock false
                   (set_trace
                      ((st_trace s ++ [Send (RawData data); Acquire; SendAll data])
                       ++ [Release]) s))).
      { split; [|cbn; now rewrite Ls].
        exists [Send (RawData data); Acquire; SendAll data; Release]. split.
        - cbn. now rewrite <- app_assoc.
        - rewrite Ls. reflexivity. }
      destruct (e_send_all env _) as [[]|e|]; cbn [written].
      * eapply lock_rel_then; [exact R|discriminate|apply update_lock_safe].
      * destruct e; try (eapply lock_rel_outcome; [exact R|discriminate]).
        eapply lock_rel_then; [exact R|discriminate|apply update_lock_safe].
      * split; [|intros H; now elim H].
        exists [Send (RawData data); Acquire; SendAll data].
        split; [reflexivity|]. rewrite Ls. reflexivity.
  - unfold protocol_send. apply lock_safe_bind; [now apply lock_safe_emit|].
    intros _. apply lock_safe_bind; [apply close_lock_safe|].
    intros _. apply update_lock_safe.
  - unfold protocol_send. apply lock_safe_bind; [now apply lock_safe_emit|].
    intros _. apply lock_safe_bind; [apply lock_safe_ret|].
    intros _. apply update_lock_safe.
Qed.

Lemma send_each_lock_safe env evs : lock_safe (send_each env evs).
Proof.
  induction evs as [|ev evs IH]; [apply lock_safe_ret|].
  cbn. apply lock_safe_bind; [apply protocol_send_lock_safe|]. intros _. exact IH.
Qed.

Lemma react_lock_safe env r : lock_safe (react env r).
Proof.
  unfold react. apply lock_safe_bind; [apply send_each_lock_safe|].
  intros _. apply (lock_safe_pure (fun _ => r_result r)).
Qed.

Lemma lock_safe_emit_then {B} a (k : State -> M B) :
  lock_free a = true -> (forall s0, lock_safe (k s0)) ->
  lock_safe (emit a ;; fun s => k s s).
Proof.
  intros Ha Hk. apply lock_safe_bind; [now apply lock_safe_emit|].
  intros _ s. apply Hk.
Qed.

Lemma handle_lock_safe env ev : lock_safe (protocol_handle env ev).
Proof.
  unfold protocol_handle.
  apply (lock_safe_emit_then (Handle ev)
           (fun s => react env (e_handle env (st_trace s) ev))); [reflexivity|].
  intros s0. apply react_lock_safe.
Qed.

Lemma initiate_lock_safe env : lock_safe (protocol_initiate env).
Proof.
  unfold protocol_initiate.
  apply (lock_safe_emit_then Initiate
           (fun s => react env (e_initiate env (st_trace s)))); [reflexivity|].
  intros s0. apply react_lock_safe.
Qed.

Lemma read_data_lock_safe env reads : lock_safe (_read_data env reads).
Proof.
  induction reads as [|r reads IH].
  - cbn. apply lock_safe_bind; [now apply lock_safe_emit|].
    intros _. apply (lock_safe_pure (fun _ => Pending)).
  - cbn [_read_data]. apply lock_safe_bind; [now apply lock_safe_emit|].
    intros _. destruct r as [data|e|].
    + apply lock_safe_bind; [apply handle_lock_safe|]. intros _.
      apply lock_safe_bind; [apply update_lock_safe|]. intros _.
      destruct data; [apply lock_safe_ret|exact IH].
    + destruct e; try apply lock_safe_raise; try apply lock_safe_ret.
      apply lock_safe_bind; [apply handle_lock_safe|]. intros _.
      apply lock_safe_bind; [apply close_lock_safe|]. intros _. exact IH.
    + apply (lock_safe_pure (fun _ => Pending)).
Qed.

Lemma serve_lock_safe env reads ssl client server alpn :
  lock_safe (serve env reads ssl client server alpn).
Proof.
  unfold serve. apply lock_safe_bind; [now apply lock_safe_emit|]. intros _.
  apply lock_safe_bind; [apply initiate_lock_safe|]. intros _.
  apply lock_safe_bind; [apply update_lock_safe|]. intros _.
  apply read_data_lock_safe.
Qed.

Lemma open_nursery_lock_safe env body :
  lock_safe body -> lock_safe (open_nursery env body).
Proof.
  intros Hb. unfold open_nursery.
  apply lock_safe_bind; [now apply lock_safe_emit|]. intros _ s.
  specialize (Hb s). destruct (body s) as [[[]|e|] s1]; try exact Hb;
    (eapply lock_rel_outcome; [exact Hb|discriminate]).
Qed.

Lemma connection_lock_safe env reads ssl client server alpn :
  lock_safe (connection env reads ssl client server alpn).
Proof.
  unfold connection, guarded.
  apply lock_safe_try_finally; [|apply close_lock_safe].
  apply lock_safe_try_except.
  - apply open_nursery_lock_safe, serve_lock_safe.
  - intros e k Hk. destruct e; try discriminate. injection Hk as <-.
    apply lock_safe_ret.
Qed.

Lemma negotiate_lock_safe env : lock_safe (negotiate env).
Proof.
  unfold negotiate. apply lock_safe_try_except.
  - apply lock_safe_bind.
    + apply lock_safe_try_except.
      * apply lock_safe_bind; [|intros _; apply lock_safe_ret].
        unfold do_handshake. destruct (e_do_handshake env);
          [now apply lock_safe_call|apply lock_safe_raise].
      * intros e k Hk. destruct e; try discriminate; injection Hk as <-;
          apply lock_safe_ret.
    + intros [|]; [apply lock_safe_ret|].
      apply lock_safe_bind; [now apply lock_safe_emit|].
      intros _. apply lock_safe_ret.
  - intros e k Hk. destruct e; try discriminate. injection Hk as <-.
    apply lock_safe_ret.
Qed.

Lemma run_lock_safe env reads : lock_safe (run env reads).
Proof.
  unfold run. apply lock_safe_bind; [apply negotiate_lock_safe|].
  intros [[alpn ssl]|]; [|apply lock_safe_ret].
  apply lock_safe_bind; [now apply lock_safe_call|]. intros client.
  apply lock_safe_bind; [now apply lock_safe_call|]. intros server.
  apply connection_lock_safe.
Qed.

(** X14.  The send lock over a whole connection.  In every trace of [run]
    the lock is taken only when free and released only when held,
    [send_all] is called only between the two, and when [run] returns or
    raises (by whatever path, an exception of [send_all] included) the lock
    is as [run] found it: free, if it was free. *)
Theorem run_keeps_lock_discipline env reads s :
  exists tr,
    st_trace (snd (run env reads s)) = st_trace s ++ tr /\
    lock_discipline (st_lock s) tr = Some (st_lock (snd (run env reads s))) /\
    (fst (run env reads s) <> Pending ->
     st_lock (snd (run env reads s)) = st_lock s).
Proof.
  destruct (run_lock_safe env reads s) as [(tr & E & D) L].
  exists tr. auto.
Qed.

(** ** When the read loop returns *)

Lemma bind_returns {A B} (m : M A) (k : A -> M B) s b :
  fst (bind m k s) = Ret b ->
  exists a s1, m s = (Ret a, s1) /\ bind m k s = k a s1.
Proof.
  unfold bind. destruct (m s) as [[a|e|] s1]; try discriminate.
  intros _. now exists a, s1.
Qed.

(** The calls below the read loop make no read. *)
Lemma no_read_in {A} n evs d (m : M A) s s1 o :
  respects (profile n evs d) m -> n = 0 -> m s = (o, s1) ->
  exists tr, st_trace s1 = st_trace s ++ tr /\ count is_ReceiveSome tr = 0.
Proof.
  intros H -> E. destruct (H s) as [(tr & Et & Hc & _) _].
  rewrite E in Et. now exists tr.
Qed.

(** X15.  [_read_data] returns only at the end of the stream: if the loop
    returns, the last read it made came back empty or found the transport
    closed or broken, every read before it brought data or timed out (a
    timeout never ends the loop), and nothing was read after it. *)
Theorem read_data_returns_at_end_of_stream env reads s :
  fst (_read_data env reads s) = Ret tt ->
  exists n r tr,
    reads !! n = Some r /\
    ends_loop r = true /\
    Forall (fun r' => loops_on r' = true) (take n reads) /\
    st_trace (snd (_read_data env reads s)) = st_trace s ++ tr /\
    count is_ReceiveSome tr = S n.
Proof.
  revert s. induction reads as [|r reads IH]; intros s H; [discriminate H|].
  assert (Stop : forall s2 t,
             ends_loop r = true ->
             st_trace s2 = st_trace s ++ ReceiveSome MAX_RECV :: t ->
             count is_ReceiveSome t = 0 ->
             _read_data env (r :: reads) s = (Ret tt, s2) ->
             exists n r0 tr,
               (r :: reads) !! n = Some r0 /\ ends_loop r0 = true /\
               Forall (fun r' => loops_on r' = true) (take n (r :: reads)) /\
               st_trace (snd (_read_data env (r :: reads) s)) = st_trace s ++ tr /\
               count is_ReceiveSome tr = S n).
  { intros s2 t He Et Hc E. exists 0, r, (ReceiveSome MAX_RECV :: t). rewrite E.
    split; [reflexivity|]. split; [exact He|]. split; [constructor|].
    split; [exact Et|].
    change (ReceiveSome MAX_RECV :: t) with ([ReceiveSome MAX_RECV] ++ t).
    rewrite count_app, Hc. reflexivity. }
  assert (Go : forall s2 t,
             loops_on r = true ->
             st_trace s2 = st_trace s ++ ReceiveSome MAX_RECV :: t ->
             count is_ReceiveSome t = 0 ->
             _read_data env (r :: reads) s = _read_data env reads s2 ->
             exists n r0 tr,
               (r :: reads) !! n = Some r0 /\ ends_loop r0 = true /\
               Forall (fun r' => loops_on r' = true) (take n (r :: reads)) /\
               st_trace (snd (_read_data env (r :: reads) s)) = st_trace s ++ tr /\
               count is_ReceiveSome tr = S n).
  { intros s2 t Hl Et Hc E. rewrite E in H.
    destruct (IH s2 H) as (n & r0 & tr & Hn & He & Hf & Etr & Hcn).
    exists (S n), r0, (ReceiveSome MAX_RECV :: t ++ tr).
    split; [exact Hn|]. split; [exact He|].
    split; [cbn; constructor; assumption|]. split.
    - rewrite E, Etr, Et, <- app_assoc. reflexivity.
    - change (ReceiveSome MAX_RECV :: t ++ tr)
        with ([ReceiveSome MAX_RECV] ++ t ++ tr).
      rewrite !count_app, Hc, Hcn. reflexivity. }
  set (s0 := set_trace (st_trace s ++ [ReceiveSome MAX_RECV]) s).
  destruct r as [data|e|]; [| |discriminate H].
  - assert (E : _read_data env (Ret data :: reads) s =
                (protocol_handle env (RawData data) ;;
                 _update_keep_alive_timeout env ;;
                 match data with
                 | [] => ret tt
                 | _ :: _ => _read_data env reads
                 end) s0) by reflexivity.
    pose proof H as H0. rewrite E in H0.
    apply bind_returns in H0 as ([] & s1 & E1 & H1). rewrite H1 in E.
    pose proof H as H2. rewrite E in H2.
    apply bind_returns in H2 as ([] & s2 & E2 & H2). rewrite H2 in E.
    destruct (no_read_in _ _ _ _ _ _ _ (handle_profile env (RawData data))
                eq_refl E1) as (t1 & Et1 & C1).
    destruct (no_read_in _ _ _ _ _ _ _ (update_respects env) eq_refl E2)
      as (t2 & Et2 & C2).
    assert (Et : st_trace s2 = st_trace s ++ ReceiveSome MAX_RECV :: t1 ++ t2).
    { rewrite Et2, Et1. cbn. now rewrite <- !app_assoc. }
    assert (Hc : count is_ReceiveSome (t1 ++ t2) = 0)
      by now rewrite count_app, C1, C2.
    destruct data as [|b data].
    + now apply (Stop s2 (t1 ++ t2)).
    + now apply (Go s2 (t1 ++ t2)).
  - destruct e; try discriminate H.
    + apply (Stop s0 []); reflexivity.
    + apply (Stop s0 []); reflexivity.
    + assert (E : _read_data env (Raise TooSlowError :: reads) s =
                  (protocol_handle env Closed ;; _close env ;;
                   _read_data env reads) s0) by reflexivity.
      pose proof H as H0. rewrite E in H0.
      apply bind_returns in H0 as ([] & s1 & E1 & H1). rewrite H1 in E.
      pose proof H as H2. rewrite E in H2.
      apply bind_returns in H2 as ([] & s2 & E2 & H2). rewrite H2 in E.
      destruct (no_read_in _ _ _ _ _ _ _ (handle_profile env Closed)
                  eq_refl E1) as (t1 & Et1 & C1).
      destruct (no_read_in _ _ _ _ _ _ _ (close_respects env) eq_refl E2)
        as (t2 & Et2 & C2).
      apply (Go s2 (t1 ++ t2)); [reflexivity| | |exact E].
      * rewrite Et2, Et1. cbn. now rewrite <- !app_assoc.
      * now rewrite count_app, C1, C2.
Qed.

Lemma read_data_returns_witness :
  exists n r tr,
    [Ret GET; Raise TooSlowError; Raise BrokenResourceError; Ret GET] !! n = Some r /\
    ends_loop r = true /\
    Forall (fun r' => loops_on r' = true)
      (take n [Ret GET; Raise TooSlowError; Raise BrokenResourceError; Ret GET]) /\
    st_trace (snd (_read_data (plain_env false)
                     [Ret GET; Raise TooSlowError; Raise BrokenResourceError; Ret GET]
                     init)) = [] ++ tr /\
    count is_ReceiveSome tr = S n.
Proof.
  exact (read_data_returns_at_end_of_stream (plain_env false)
           [Ret GET; Raise TooSlowError; Raise BrokenResourceError; Ret GET]
           init eq_refl).
Defined.

(** ** What the request task does *)

(** X16.  Whatever the application does, [_handle] runs it once and does
    nothing else but, at most, one call of the logger followed by at most
    one [send(None)].  Nothing is logged or sent when the application
    returns; [_handle] itself returns only if the application did or
    [send(None)] was called; and when the logger does not return,
    [send(None)] is not called and [_handle] ends as the logger did. *)
Theorem handle_runs_app_once_sends_at_most_once env app s :
  exists tr,
    st_trace (snd (_handle env app s)) = st_trace s ++ InvokeAsgi :: tr /\
    (tr = [] \/ tr = [LogException "Error in ASGI Framework"] \/
     tr = [LogException "Error in ASGI Framework"; SendNone]) /\
    (app = Ret tt -> fst (_handle env app s) = Ret tt /\ tr = []) /\
    (fst (_handle env app s) = Ret tt ->
     app = Ret tt \/ tr = [LogException "Error in ASGI Framework"; SendNone]) /\
    (tr = [LogException "Error in ASGI Framework"] ->
     fst (_handle env app s) =
       e_log env (st_trace s ++ [InvokeAsgi; LogException "Error in ASGI Framework"]) /\
     fst (_handle env app s) <> Ret tt).
Proof.
  assert (Fin : forall (r : Outcome unit * State) tr,
            st_trace (snd r) = st_trace s ++ InvokeAsgi :: tr ->
            (tr = [] /\ (fst r = Ret tt -> app = Ret tt) \/
             tr = [LogException "Error in ASGI Framework"] /\
               fst r = e_log env (st_trace s ++
                          [InvokeAsgi; LogException "Error in ASGI Framework"]) /\
               fst r <> Ret tt /\ app <> Ret tt \/
             tr = [LogException "Error in ASGI Framework"; SendNone] /\
               app <> Ret tt) ->
            (app = Ret tt -> fst r = Ret tt) ->
            exists tr,
              st_trace (snd r) = st_trace s ++ InvokeAsgi :: tr /\
              (tr = [] \/ tr = [LogException "Error in ASGI Framework"] \/
               tr = [LogException "Error in ASGI Framework"; SendNone]) /\
              (app = Ret tt -> fst r = Ret tt /\ tr = []) /\
              (fst r = Ret tt ->
               app = Ret tt \/
               tr = [LogException "Error in ASGI Framework"; SendNone]) /\
              (tr = [LogException "Error in ASGI Framework"] ->
               fst r = e_log env (st_trace s ++
                          [InvokeAsgi; LogException "Error in ASGI Framework"]) /\
               fst r <> Ret tt)).
  { intros r tr Et H Happ. exists tr. split; [exact Et|].
    destruct H as [[-> H]|[(-> & H1 & H2 & H3)|[-> H]]].
    - split; [now left|]. split; [auto|]. split; [auto|discriminate].
    - split; [right; now left|]. split; [intros; contradiction|].
      split; [intros; contradiction|auto].
    - split; [right; now right|]. split; [intros; contradiction|].
      split; [auto|discriminate]. }
  destruct app as [[]|e|].
  - rewrite handle_returns. apply (Fin _ []); [reflexivity| |reflexivity].
    left. auto.
  - rewrite handle_eq. cbv zeta.
    assert (Plain : forall o : Outcome unit,
              o <> Ret tt ->
              exists tr,
                st_trace (snd (o, set_trace (st_trace s ++ [InvokeAsgi]) s)) =
                  st_trace s ++ InvokeAsgi :: tr /\
                (tr = [] \/ tr = [LogException "Error in ASGI Framework"] \/
                 tr = [LogException "Error in ASGI Framework"; SendNone]) /\
                (Raise e = Ret tt ->
                 fst (o, set_trace (st_trace s ++ [InvokeAsgi]) s) = Ret tt /\ tr = []) /\
                (fst (o, set_trace (st_trace s ++ [InvokeAsgi]) s) = Ret tt ->
                 Raise e = Ret tt \/
                 tr = [LogException "Error in ASGI Framework"; SendNone]) /\
                (tr = [LogException "Error in ASGI Framework"] ->
                 fst (o, set_trace (st_trace s ++ [InvokeAsgi]) s) =
                   e_log env (st_trace s ++
                      [InvokeAsgi; LogException "Error in ASGI Framework"]) /\
                 fst (o, set_trace (st_trace s ++ [InvokeAsgi]) s) <> Ret tt)).
    { intros o Ho. apply (Fin _ []); [reflexivity| |discriminate].
      left. split; [reflexivity|]. cbn. intros H. now elim Ho. }
    assert (Logged :
              let r := match e_log env (st_trace s ++
                                 [InvokeAsgi; LogException "Error in ASGI Framework"]) with
                       | Ret _ =>
                           (e_app_send env
                              ((st_trace s ++
                                [InvokeAsgi; LogException "Error in ASGI Framework"])
                               ++ [SendNone]),
                            set_trace
                              ((st_trace s ++
                                [InvokeAsgi; LogException "Error in ASGI Framework"])
                               ++ [SendNone]) s)
                       | Raise e' =>
                           (Raise e',
                            set_trace
                              (st_trace s ++
                               [InvokeAsgi; LogException "Error in ASGI Framework"]) s)
                       | Pending =>
                           (Pending,
                            set_trace
                              (st_trace s ++
                               [InvokeAsgi; LogException "Error in ASGI Framework"]) s)
                       end in
              exists tr,
                st_trace (snd r) = st_trace s ++ InvokeAsgi :: tr /\
                (tr = [] \/ tr = [LogException "Error in ASGI Framework"] \/
                 tr = [LogException "Error in ASGI Framework"; SendNone]) /\
                (Raise e = Ret tt -> fst r = Ret tt /\ tr = []) /\
                (fst r = Ret tt ->
                 Raise e = Ret tt \/
                 tr = [LogException "Error in ASGI Framework"; SendNone]) /\
                (tr = [LogException "Error in ASGI Framework"] ->
                 fst r = e_log env (st_trace s ++
                            [InvokeAsgi; LogException "Error in ASGI Framework"]) /\
                 fst r <> Ret tt)).
    { cbv zeta.
      destruct (e_log env (st_trace s ++
                  [InvokeAsgi; LogException "Error in ASGI Framework"]))
        as [[]|e'|] eqn:El.
      - apply (Fin _ [LogException "Error in ASGI Framework"; SendNone]);
          [cbn; now rewrite <- !app_assoc| |discriminate].
        right. right. split; [reflexivity|discriminate].
      - apply (Fin _ [LogException "Error in ASGI Framework"]);
          [reflexivity| |discriminate].
        right. left. cbn. rewrite ?El. repeat split; discriminate.
      - apply (Fin _ [LogException "Error in ASGI Framework"]);
          [reflexivity| |discriminate].
        right. left. cbn. rewrite ?El. repeat split; discriminate. }
    cbv zeta in Logged.
    destruct e; cbn [is_Exception];
      try exact Logged; try (apply Plain; discriminate).
    destruct (e_filter env drop_cancelled (MultiError excs)) as [[x|]|e'|];
      try exact Logged; apply Plain; discriminate.
  - apply (Fin _ []); [reflexivity| |discriminate]. left. split; [reflexivity|].
    discriminate.
Qed.

(** ** Applications and their channels *)

Lemma spawn_send_queue {message : Type} (m : message) (a : SpawnApp.app) :
  SpawnApp.bounded a ->
  SpawnApp.queue (SpawnApp.send m a) = SpawnApp.queue a ++ [m] /\
  SpawnApp.max_buffer_size (SpawnApp.send m a) = SpawnApp.max_buffer_size a /\
  SpawnApp.bounded (SpawnApp.send m a).
Proof.
  intros (Hb & Hs & Hr). unfold SpawnApp.send, SpawnApp.queue, SpawnApp.bounded.
  destruct (SpawnApp.receiving a) eqn:R.
  - destruct (Hr eq_refl) as [-> ->]. cbn. rewrite !app_nil_r.
    repeat split; intros; first [discriminate|lia|congruence|contradiction|reflexivity|assumption|now rewrite ?app_assoc|now rewrite <- ?app_assoc].
  - destruct (Nat.ltb_spec (length (SpawnApp.buffer a)) (SpawnApp.max_buffer_size a))
      as [Hlt|Hge]; cbn.
    + assert (E : SpawnApp.senders a = []).
      { destruct (SpawnApp.senders a) as [|x l] eqn:Es; [reflexivity|].
        destruct Hs as [Hs _]; [discriminate|]. lia. }
      rewrite E, !app_nil_r. rewrite length_app. cbn.
      repeat split; intros; first [discriminate|lia|congruence|contradiction|reflexivity|assumption|now rewrite ?app_assoc|now rewrite <- ?app_assoc].
    + rewrite !app_assoc. repeat split; intros; first [discriminate|lia|congruence|contradiction|reflexivity|assumption|now rewrite ?app_assoc|now rewrite <- ?app_assoc].
Qed.

Lemma spawn_receive_queue {message : Type} (a : @SpawnApp.app message) :
  SpawnApp.bounded a ->
  SpawnApp.queue (SpawnApp.receive a) = SpawnApp.queue a /\
  SpawnApp.max_buffer_size (SpawnApp.receive a) = SpawnApp.max_buffer_size a /\
  SpawnApp.bounded (SpawnApp.receive a).
Proof.
  intros (Hb & Hs & Hr). unfold SpawnApp.receive, SpawnApp.queue, SpawnApp.bounded.
  destruct (SpawnApp.receiving a) eqn:R; [rewrite R; auto|].
  cbv zeta.
  destruct (SpawnApp.senders a) as [|x l] eqn:Es.
  - cbn [take drop]. rewrite !app_nil_r.
    destruct (SpawnApp.buffer a) as [|y b] eqn:Eb; cbn.
    + rewrite !app_nil_r. repeat split; intros; first [discriminate|lia|congruence|contradiction|reflexivity|assumption|now rewrite ?app_assoc|now rewrite <- ?app_assoc].
    + rewrite !app_nil_r, <- app_assoc. cbn in Hb.
      repeat split; intros; first [discriminate|lia|congruence|contradiction|reflexivity|assumption|now rewrite ?app_assoc|now rewrite <- ?app_assoc].
  - destruct Hs as [Hs _]; [discriminate|]. cbn [take drop]. rewrite take_0.
    destruct (SpawnApp.buffer a) as [|y b] eqn:Eb; cbn.
    + cbn in Hs. repeat split; intros; first [discriminate|lia|congruence|contradiction|reflexivity|assumption|now rewrite ?app_assoc|now rewrite <- ?app_assoc].
    + cbn in Hs. rewrite length_app. cbn.
      repeat split; intros; first [discriminate|lia|congruence|contradiction|reflexivity|assumption|now rewrite ?app_assoc|now rewrite <- ?app_assoc].
Qed.

(** The channel of one application through a step taken anywhere in the
    nursery. *)
Lemma spawn_step {message : Type} (n : list (@SpawnApp.app message)) o c a :
  n !! c = Some a -> SpawnApp.bounded a ->
  exists a',
    SpawnApp.step n o !! c = Some a' /\
    SpawnApp.queue a' = SpawnApp.queue a ++ SpawnApp.sent_to c [o] /\
    SpawnApp.max_buffer_size a' = SpawnApp.max_buffer_size a /\
    SpawnApp.bounded a'.
Proof.
  intros Hc Hb.
  destruct o as [size|c' m|c'];
    cbn [SpawnApp.step SpawnApp.sent_to SpawnApp.spawn_app snd].
  - exists a. rewrite app_nil_r.
    split; [now apply lookup_app_l_Some|]. split; [reflexivity|].
    split; [reflexivity|exact Hb].
  - destruct (Nat.eqb_spec c' c) as [->|Hne].
    + exists (SpawnApp.send m a). rewrite list_lookup_alter_eq, Hc.
      split; [reflexivity|]. now apply spawn_send_queue.
    + exists a. rewrite list_lookup_alter_ne by exact Hne.
      rewrite app_nil_r. split; [exact Hc|]. split; [reflexivity|].
      split; [reflexivity|exact Hb].
  - destruct (decide (c' = c)) as [->|Hne].
    + exists (SpawnApp.receive a). rewrite list_lookup_alter_eq, Hc.
      split; [reflexivity|]. rewrite app_nil_r. now apply spawn_receive_queue.
    + exists a. rewrite list_lookup_alter_ne by exact Hne.
      rewrite app_nil_r. split; [exact Hc|]. split; [reflexivity|].
      split; [reflexivity|exact Hb].
Qed.

Lemma sent_to_app {message : Type} c (x y : list (@SpawnApp.op message)) :
  SpawnApp.sent_to c (x ++ y) = SpawnApp.sent_to c x ++ SpawnApp.sent_to c y.
Proof.
  induction x as [|o x IH]; [reflexivity|].
  destruct o as [size|c' m|c']; cbn; auto.
  destruct (Nat.eqb c' c); cbn; now rewrite ?IH.
Qed.

Lemma spawn_run {message : Type} (ops : list (@SpawnApp.op message)) n c a :
  n !! c = Some a -> SpawnApp.bounded a ->
  exists a',
    SpawnApp.run ops n !! c = Some a' /\
    SpawnApp.queue a' = SpawnApp.queue a ++ SpawnApp.sent_to c ops /\
    SpawnApp.max_buffer_size a' = SpawnApp.max_buffer_size a /\
    SpawnApp.bounded a'.
Proof.
  revert n a. induction ops as [|o ops IH]; intros n a Hc Hb.
  - exists a. cbn. rewrite app_nil_r.
    split; [exact Hc|]. split; [reflexivity|]. split; [reflexivity|exact Hb].
  - destruct (spawn_step n o c a Hc Hb) as (a1 & H1 & Q1 & M1 & B1).
    destruct (IH _ _ H1 B1) as (a2 & H2 & Q2 & M2 & B2).
    exists a2. split; [exact H2|]. split; [|split; [congruence|exact B2]].
    rewrite Q2, Q1, <- app_assoc.
    change (o :: ops) with ([o] ++ ops). now rewrite sent_to_app.
Qed.

(** X17.  What the engine passes to the function that [spawn_app] returned
    reaches the application it started, complete and in order, and nothing
    else does: whatever is done afterwards in the nursery (other
    applications spawned, sends and receives on any channel), the messages
    the application has received, followed by those buffered and those of
    the sends still waiting, are exactly the messages sent on its channel. *)
Theorem spawn_app_delivers_in_order {message : Type}
    (size : nat) (n : list (@SpawnApp.app message)) (ops : list SpawnApp.op) :
  exists a,
    SpawnApp.run ops (snd (SpawnApp.spawn_app size n))
      !! fst (SpawnApp.spawn_app size n) = Some a /\
    SpawnApp.received a ++ SpawnApp.buffer a ++ SpawnApp.senders a =
      SpawnApp.sent_to (fst (SpawnApp.spawn_app size n)) ops.
Proof.
  destruct (spawn_run ops (snd (SpawnApp.spawn_app size n)) (length n)
              (SpawnApp.mkApp size [] [] [] false))
    as (a & H & Q & _ & _).
  - cbn. rewrite lookup_app_r by lia. now rewrite Nat.sub_diag.
  - repeat split; cbn; intros; first [discriminate|lia|congruence|contradiction|reflexivity|assumption|now rewrite ?app_assoc|now rewrite <- ?app_assoc].
  - exists a. split; [exact H|exact Q].
Qed.

(** X18.  The queue of an application is bounded by
    [config.max_app_queue_size]: its channel never buffers more messages
    than that, a send is left waiting only while the buffer is full, and the
    application waits in [receive] only while nothing is buffered or
    waiting. *)
Theorem spawn_app_queue_is_bounded {message : Type}
    (size : nat) (n : list (@SpawnApp.app message)) (ops : list SpawnApp.op) :
  exists a,
    SpawnApp.run ops (snd (SpawnApp.spawn_app size n))
      !! fst (SpawnApp.spawn_app size n) = Some a /\
    length (SpawnApp.buffer a) <= size /\
    (SpawnApp.senders a <> [] ->
     length (SpawnApp.buffer a) = size /\ SpawnApp.receiving a = false) /\
    (SpawnApp.receiving a = true ->
     SpawnApp.buffer a = [] /\ SpawnApp.senders a = []).
Proof.
  destruct (spawn_run ops (snd (SpawnApp.spawn_app size n)) (length n)
              (SpawnApp.mkApp size [] [] [] false))
    as (a & H & _ & M & B).
  - cbn. rewrite lookup_app_r by lia. now rewrite Nat.sub_diag.
  - repeat split; cbn; intros; first [discriminate|lia|congruence|contradiction|reflexivity|assumption|now rewrite ?app_assoc|now rewrite <- ?app_assoc].
  - exists a. split; [exact H|]. cbn in M. rewrite <- M. exact B.
Qed.

(** ** What is written to the stream *)

Lemma sent_data_app x y : sent_data (x ++ y) = sent_data x ++ sent_data y.
Proof.
  induction x as [|a x IH]; [reflexivity|].
  destruct a as [| | | | | | |ev|[d| |]| | | | | | | | | | | |]; cbn; now rewrite ?IH.
Qed.

Lemma written_data_app x y :
  written_data (x ++ y) = written_data x ++ written_data y.
Proof.
  induction x as [|a x IH]; [reflexivity|].
  destruct a; cbn; now rewrite ?IH.
Qed.

Lemma no_data_trace tr :
  forallb no_data tr = true -> written_data tr = [] /\ sent_data tr = [].
Proof.
  induction tr as [|a tr IH]; [now split|]. cbn.
  intros H. apply andb_prop in H as [Ha Ht]. destruct (IH Ht) as [I1 I2].
  destruct a as [| | | | | | |ev|[d| |]| | | | | | | | | | | |];
    try discriminate; now split.
Qed.

(** One coroutine after another. *)
Lemma writes_then {A B} s (a : Outcome A) s1 (r : Outcome B * State) t1 :
  st_trace s1 = st_trace s ++ t1 ->
  sublist (written_data t1) (sent_data t1) ->
  (exists t2,
     st_trace (snd r) = st_trace s1 ++ t2 /\
     sublist (written_data t2) (sent_data t2)) ->
  exists tr,
    st_trace (snd r) = st_trace s ++ tr /\
    sublist (written_data tr) (sent_data tr).
Proof.
  intros E1 W1 (t2 & E2 & W2). exists (t1 ++ t2).
  split; [now rewrite E2, E1, app_assoc|].
  rewrite written_data_app, sent_data_app. now apply sublist_app.
Qed.

(** A coroutine that neither is asked to send nor writes. *)
Lemma writes_quiet {A} (m : M A) :
  (forall s, exists tr,
     st_trace (snd (m s)) = st_trace s ++ tr /\ forallb no_data tr = true) ->
  writes_only_sent m.
Proof.
  intros H s. destruct (H s) as (tr & E & N). exists tr. split; [exact E|].
  destruct (no_data_trace tr N) as [-> ->]. constructor.
Qed.

Lemma writes_ret {A} (a : A) : writes_only_sent (ret a).
Proof.
  apply writes_quiet. intros s. exists [].
  split; [now rewrite app_nil_r|reflexivity].
Qed.

Lemma writes_raise {A} e : writes_only_sent (@raise A e).
Proof.
  apply writes_quiet. intros s. exists [].
  split; [now rewrite app_nil_r|reflexivity].
Qed.

Lemma writes_pure {A} (o : State -> Outcome A) :
  writes_only_sent (fun s => (o s, s)).
Proof.
  apply writes_quiet. intros s. exists [].
  split; [now rewrite app_nil_r|reflexivity].
Qed.

Lemma writes_emit a : no_data a = true -> writes_only_sent (emit a).
Proof.
  intros Hn. apply writes_quiet. intros s. exists [a].
  split; [reflexivity|]. cbn. now rewrite Hn.
Qed.

Lemma writes_bind {A B} (m : M A) (k : A -> M B) :
  writes_only_sent m -> (forall a, writes_only_sent (k a)) ->
  writes_only_sent (bind m k).
Proof.
  intros Hm Hk s. unfold bind. specialize (Hm s).
  destruct (m s) as [[a|e|] s1]; try exact Hm.
  destruct Hm as (t1 & E1 & W1). cbn [snd] in E1.
  apply (writes_then s (Ret a) s1 _ t1 E1 W1). apply Hk.
Qed.

Lemma writes_call {A} a (f : history -> Outcome A) :
  no_data a = true -> writes_only_sent (call a f).
Proof.
  intros Hn. apply writes_bind; [now apply writes_emit|].
  intros _. apply (writes_pure (fun s => f (st_trace s))).
Qed.

Lemma writes_try_except {A} (m : M A) (h : exn -> option (M A)) :
  writes_only_sent m -> (forall e k, h e = Some k -> writes_only_sent k) ->
  writes_only_sent (try_except m h).
Proof.
  intros Hm Hh s. unfold try_except. specialize (Hm s).
  destruct (m s) as [[a|e|] s1]; try exact Hm.
  destruct (h e) as [k|] eqn:Ek; [|exact Hm].
  destruct Hm as (t1 & E1 & W1). cbn [snd] in E1.
  apply (writes_then s (@Raise A e) s1 _ t1 E1 W1). eapply Hh; eauto.
Qed.

Lemma writes_try_finally {A} (m : M A) (f : M unit) :
  writes_only_sent m -> writes_only_sent f ->
  writes_only_sent (try_finally m f).
Proof.
  intros Hm Hf s. unfold try_finally. specialize (Hm s).
  destruct (m s) as [o s1]. destruct Hm as (t1 & E1 & W1). cbn [snd] in E1.
  assert (K : exists tr,
              st_trace (snd (f s1)) = st_trace s ++ tr /\
              sublist (written_data tr) (sent_data tr)).
  { apply (writes_then s o s1 _ t1 E1 W1). apply Hf. }
  destruct o as [a|e|].
  - destruct K as (tr & E & W). exists tr. split; [|exact W].
    destruct (f s1) as [[[]|e|] s2]; exact E.
  - destruct K as (tr & E & W). exists tr. split; [|exact W].
    destruct (f s1) as [[[]|e'|] s2]; exact E.
  - exists t1. split; [exact E1|exact W1].
Qed.

Lemma close_writes env : writes_only_sent (_close env).
Proof.
  unfold _close. apply writes_bind.
  - apply writes_try_except; [now apply writes_call|].
    intros e k Hk. destruct e; try discriminate; injection Hk as <-;
      apply writes_ret.
  - intros _. now apply writes_call.
Qed.

Lemma timer_trace_no_data tr : timer_trace tr -> forallb no_data tr = true.
Proof.
  induction 1 as [|a tr Ha _ IH]; [reflexivity|].
  cbn. rewrite IH. destruct a; try contradiction; reflexivity.
Qed.

Lemma update_writes env : writes_only_sent (_update_keep_alive_timeout env).
Proof.
  apply writes_quiet. intros s.
  destruct (update_trace env s) as (tr & E & T).
  exists tr. split; [exact E|now apply timer_trace_no_data].
Qed.

Lemma protocol_send_writes_only_sent env ev :
  writes_only_sent (protocol_send env ev).
Proof.
  destruct ev as [data| |].
  - intros s. rewrite protocol_send_eq. cbv zeta.
    destruct (st_lock s).
    + exists [Send (RawData data)]. split; [reflexivity|].
      cbn. apply sublist_cons. constructor.
    + assert (Q : exists tr,
                (st_trace s ++ [Send (RawData data); Acquire; SendAll data])
                  ++ [Release] = st_trace s ++ tr /\
                sublist (written_data tr) (sent_data tr)).
      { exists [Send (RawData data); Acquire; SendAll data; Release].
        split; [now rewrite <- app_assoc|reflexivity]. }
      assert (R : exists tr,
                st_trace
                  (snd (_update_keep_alive_timeout env
                          (set_lock false
                             (set_trace
                                ((st_trace s ++
                                  [Send (RawData data); Acquire; SendAll data])
                                 ++ [Release]) s)))) = st_trace s ++ tr /\
                sublist (written_data tr) (sent_data tr)).
      { destruct Q as (t1 & E1 & W1).
        apply (writes_then s (Ret tt)
                 (set_lock false
                    (set_trace
                       ((st_trace s ++ [Send (RawData data); Acquire; SendAll data])
                        ++ [Release]) s)) _ t1 E1 W1).
        apply update_writes. }
      destruct (e_send_all env _) as [[]|e|]; cbn [written].
      * exact R.
      * destruct e; try exact Q. exact R.
      * exists [Send (RawData data); Acquire; SendAll data]. now split.
  - unfold protocol_send. apply writes_bind; [now apply writes_emit|].
    intros _. apply writes_bind; [apply close_writes|].
    intros _. apply update_writes.
  - unfold protocol_send. apply writes_bind; [now apply writes_emit|].
    intros _. apply writes_bind; [apply writes_ret|].
    intros _. apply update_writes.
Qed.

Lemma send_each_writes env evs : writes_only_sent (send_each env evs).
Proof.
  induction evs as [|ev evs IH]; [apply writes_ret|].
  cbn. apply writes_bind; [apply protocol_send_writes_only_sent|].
  intros _. exact IH.
Qed.

Lemma react_writes env r : writes_only_sent (react env r).
Proof.
  unfold react. apply writes_bind; [apply send_each_writes|].
  intros _. apply (writes_pure (fun _ => r_result r)).
Qed.

Lemma writes_emit_then {B} a (k : State -> M B) :
  no_data a = true ->
  (forall s0, writes_only_sent (k s0)) ->
  writes_only_sent (emit a ;; fun s => k s s).
Proof.
  intros Hn Hk s. unfold bind, emit.
  apply (writes_then s (Ret tt) (set_trace (st_trace s ++ [a]) s) _ [a]).
  - reflexivity.
  - destruct (no_data_trace [a]) as [-> ->]; [cbn; now rewrite Hn|constructor].
  - apply Hk.
Qed.

Lemma handle_writes env ev : writes_only_sent (protocol_handle env ev).
Proof.
  unfold protocol_handle.
  apply (writes_emit_then (Handle ev)
           (fun s => react env (e_handle env (st_trace s) ev))); [reflexivity|].
  intros s0. apply react_writes.
Qed.

Lemma initiate_writes env : writes_only_sent (protocol_initiate env).
Proof.
  unfold protocol_initiate.
  apply (writes_emit_then Initiate
           (fun s => react env (e_initiate env (st_trace s)))); [reflexivity|].
  intros s0. apply react_writes.
Qed.

Lemma read_data_writes env reads : writes_only_sent (_read_data env reads).
Proof.
  induction reads as [|r reads IH].
  - cbn. apply writes_bind; [now apply writes_emit|].
    intros _. apply (writes_pure (fun _ => Pending)).
  - cbn [_read_data]. apply writes_bind; [now apply writes_emit|].
    intros _. destruct r as [data|e|].
    + apply writes_bind; [apply handle_writes|]. intros _.
      apply writes_bind; [apply update_writes|]. intros _.
      destruct data; [apply writes_ret|exact IH].
    + destruct e; try apply writes_raise; try apply writes_ret.
      apply writes_bind; [apply handle_writes|]. intros _.
      apply writes_bind; [apply close_writes|]. intros _. exact IH.
    + apply (writes_pure (fun _ => Pending)).
Qed.

Lemma open_nursery_writes env body :
  writes_only_sent body -> writes_only_sent (open_nursery env body).
Proof.
  intros Hb s. unfold open_nursery, bind, emit.
  destruct (Hb (set_trace (st_trace s ++ [OpenNursery]) s)) as (t2 & E2 & W2).
  exists ([OpenNursery] ++ t2). split.
  - destruct (body _) as [[[]|e|] s1]; cbn [snd] in *; rewrite E2;
      cbn [st_trace set_trace]; now rewrite <- app_assoc.
  - now rewrite written_data_app, sent_data_app.
Qed.

Lemma run_writes env reads : writes_only_sent (run env reads).
Proof.
  unfold run. apply writes_bind.
  - unfold negotiate. apply writes_try_except.
    + apply writes_bind.
      * apply writes_try_except.
        -- apply writes_bind; [|intros _; apply writes_ret].
           unfold do_handshake. destruct (e_do_handshake env);
             [now apply writes_call|apply writes_raise].
        -- intros e k Hk. destruct e; try discriminate; injection Hk as <-;
             apply writes_ret.
      * intros [|]; [apply writes_ret|].
        apply writes_bind; [now apply writes_emit|].
        intros _. apply writes_ret.
    + intros e k Hk. destruct e; try discriminate. injection Hk as <-.
      apply writes_ret.
  - intros [[alpn ssl]|]; [|apply writes_ret].
    apply writes_bind; [now apply writes_call|]. intros client.
    apply writes_bind; [now apply writes_call|]. intros server.
    unfold connection, guarded.
    apply writes_try_finally; [|apply close_writes].
    apply writes_try_except.
    + apply open_nursery_writes. unfold serve.
      apply writes_bind; [now apply writes_emit|]. intros _.
      apply writes_bind; [apply initiate_writes|]. intros _.
      apply writes_bind; [apply update_writes|]. intros _.
      apply read_data_writes.
    + intros e k Hk. destruct e; try discriminate. injection Hk as <-.
      apply writes_ret.
Qed.

(** X19.  The connection writes nothing of its own.  Wherever [run] stops,
    what it has passed to [send_all] is data of [RawData] events that the
    engine passed to [protocol_send], in the order they were passed and each
    at most once: an event whose write did not take place (the lock was not
    obtained) is skipped, nothing is written twice or out of order. *)
Theorem run_writes_only_what_the_engine_sends env reads s :
  exists tr,
    st_trace (snd (run env reads s)) = st_trace s ++ tr /\
    sublist (written_data tr) (sent_data tr).
Proof. apply run_writes. Qed.
